(** * A native-protocol PulseAudio client: the multiplexer, the handshake and
      the volume operations, embedded from [client.go] and the volume file.

    Unsigned 32-bit integers are [Z] with the wrap-around written out, byte
    slices are lists of 8-bit [Z], the pending table is a [gmap], [float32]
    is [spec_float] at precision 24.  Channel operations and socket writes
    of the multiplexer are recorded in a trace of effects; the goroutine
    interleaving is a list of events: the firings of the handler's [select]
    and, between them, what the callers and the owner of the client do.  A
    send on a response channel completes only while its caller is there to
    receive, and a send on a closed channel panics. *)

From Stdlib Require Import ZArith String Ascii List Lia QArith Qround.
From Stdlib Require Import Floats.SpecFloat.
From stdpp Require Import base gmap list pretty.
Import ListNotations.
Open Scope Z_scope.

(** ** Integers and byte slices *)

Definition uint32_max : Z := 0xffffffff.
Definition uint32_mod : Z := 0x100000000.

(** [uint32(x)] of an integer expression: the value modulo 2^32. *)
Definition uint32 (x : Z) : Z := x mod uint32_mod.

(** [byte(x)] of an integer expression: the low eight bits. *)
Definition byte_of (x : Z) : Z := Z.land x 255.

(** The four bytes [binary.BigEndian.PutUint32] stores. *)
Definition be32 (v : Z) : list Z :=
  [byte_of (Z.shiftr v 24); byte_of (Z.shiftr v 16);
   byte_of (Z.shiftr v 8); byte_of v].

(** [binary.BigEndian.PutUint32(b, v)]: overwrites [b[0..3]] in place; a
    slice shorter than four bytes makes the bounds check panic ([None]). *)
Definition PutUint32 (b : list Z) (v : Z) : option (list Z) :=
  if decide (4 <= length b)%nat then Some (be32 v ++ drop 4 b) else None.

(** [binary.BigEndian.Uint32(b)]: panics ([None]) below four bytes. *)
Definition Uint32 (b : list Z) : option Z :=
  match b with
  | b0 :: b1 :: b2 :: b3 :: _ =>
      Some (Z.lor (Z.lor (Z.lor (Z.shiftl b0 24) (Z.shiftl b1 16))
                         (Z.shiftl b2 8)) b3)
  | _ => None
  end.

(** [[]byte(s)] for a Go string holding single-byte characters. *)
Fixpoint bytes_of_string (s : string) : list Z :=
  match s with
  | EmptyString => []
  | String c s' => Z.of_nat (nat_of_ascii c) :: bytes_of_string s'
  end.

(** ** Errors

    [errors.New] and [fmt.Errorf] values keep their text and arguments, so
    that wrapping with [%w] stays visible. *)

Inductive error : Type :=
| errors_New (text : string)
| fmt_Errorf (format : string) (args : list fmt_arg)
| PulseError (Cmd : Z) (Code : Z)
with fmt_arg : Type :=
| FmtErr (e : error)
| FmtInt (z : Z)
| FmtStr (s : string).

Definition ErrClientClosed : error := errors_New "pulseaudio client was closed".
Definition ErrCouldNotSendRequest : error := errors_New "could not send packet".
Definition io_EOF : error := errors_New "EOF".

(** ** Command codes

    The command code table of the protocol is a static registry declared
    outside the source files modelled here; the values are those of the
    protocol's canonical list, and the source's own message "expected reply
    (2) or error (0)" fixes the two generic ones. *)

(** Modelled from the spec: the code of ERROR. *)
Definition commandError : Z := 0.
(** Modelled from the spec: the code of REPLY. *)
Definition commandReply : Z := 2.
(** Modelled from the spec: the code of AUTH. *)
Definition commandAuth : Z := 8.
(** Modelled from the spec: the code of SET_CLIENT_NAME. *)
Definition commandSetClientName : Z := 9.
(** Modelled from the spec: the code of GET_SERVER_INFO. *)
Definition commandGetServerInfo : Z := 20.
(** Modelled from the spec: the code of GET_SINK_INFO_LIST. *)
Definition commandGetSinkInfoList : Z := 22.
(** Modelled from the spec: the code of SUBSCRIBE. *)
Definition commandSubscribe : Z := 35.
(** Modelled from the spec: the code of SET_SINK_VOLUME. *)
Definition commandSetSinkVolume : Z := 36.
(** Modelled from the spec: the code of SUBSCRIBE_EVENT. *)
Definition commandSubscribeEvent : Z := 66.

(** ** Type tags of the codec (section 4.1 of the specification) *)

(** Modelled from the spec: the tag byte ['t'] of a string. *)
Definition stringTag : Z := 116.
(** Modelled from the spec: the tag byte ['N'] of an absent string. *)
Definition stringNullTag : Z := 78.
(** Modelled from the spec: the tag byte ['L'] of a [uint32]. *)
Definition uint32Tag : Z := 76.
(** Modelled from the spec: the tag byte ['x'] of an arbitrary byte array. *)
Definition arbitraryTag : Z := 120.
(** Modelled from the spec: the tag byte ['v'] of a volume vector. *)
Definition cvolumeTag : Z := 118.
(** Modelled from the spec: the tag byte ['P'] of a property list. *)
Definition propListTag : Z := 80.

(** ** Requests, frames, channels *)

Record request := { data : list Z; response : nat }.

Record frame := { buff : option (list Z); err : option error }.

(** A buffered Go channel: capacity, queued values (oldest first), and
    whether [close] was called on it. *)
Record chan (A : Type) := { cap : nat; queue : list A; closed : bool }.
Arguments cap {A} _.
Arguments queue {A} _.
Arguments closed {A} _.

Definition make_chan {A} (n : nat) : chan A :=
  {| cap := n; queue := []; closed := false |}.

(** [close(ch)]. *)
Definition chan_close {A} (ch : chan A) : chan A :=
  {| cap := cap ch; queue := queue ch; closed := true |}.

(** [select { case ch <- x: default: }]: on an open channel the send happens
    only when the buffer has room, and the boolean tells which branch ran.
    On a closed channel the send case is ready and panics: [None]. *)
Definition try_send {A} (ch : chan A) (x : A) : option (chan A * bool) :=
  if closed ch then None
  else if decide (length (queue ch) < cap ch)%nat
  then Some ({| cap := cap ch; queue := queue ch ++ [x]; closed := false |}, true)
  else Some (ch, false).

(** [<-ch] by a consumer, when a value is queued. *)
Definition chan_recv {A} (ch : chan A) : option (A * chan A) :=
  match queue ch with
  | [] => None
  | x :: q => Some (x, {| cap := cap ch; queue := q; closed := closed ch |})
  end.

(** ** Tag allocation *)

(** One turn of the loop body after the lookup: [tag++] on a [uint32], then
    the reserved value is skipped. *)
Definition next_tag (tag : Z) : Z :=
  let tag := uint32 (tag + 1) in
  if decide (tag = 0xffffffff) then 0 else tag.

(** The [for] loop of [nextAvailableTag], with the number of turns bounded:
    [None] when the bound is used up. *)
Fixpoint nextAvailableTag_loop (turns : nat) (tag : Z)
    (pending : gmap Z request) : option Z :=
  match turns with
  | O => None
  | S turns' =>
      match pending !! tag with
      | None => Some tag
      | Some _ => nextAvailableTag_loop turns' (next_tag tag) pending
      end
  end.

(** [nextAvailableTag]: the loop leaves after at most [size pending + 1]
    lookups when it leaves at all (the tags it visits are pairwise distinct
    until the cycle closes, and all but the last are keys), so that bound
    loses no result; [None] stands for the loop that never returns. *)
Definition nextAvailableTag (tag : Z) (pending : gmap Z request) : option Z :=
  nextAvailableTag_loop (S (size pending)) tag pending.

(** The tag the loop looks up in its [i]-th turn. *)
Definition visited (i : nat) (t : Z) : Z := Nat.iter i next_tag t.

(** ** Reading tagged values

    The decoder [bread] is declared outside the source files modelled here.
    A result carries what is left of the buffer, which the decoder advances
    as it reads. *)

(** Modelled from the spec: the type check of [bread] (section 4.1): a tag
    byte supplied by the caller must equal the next byte on the wire, or
    decoding fails with a type-mismatch error. *)
Definition bread_tag (expected : Z) (b : list Z) : list Z * option error :=
  match b with
  | [] => ([], Some io_EOF)
  | t :: b' =>
      if decide (t = expected) then (b', None)
      else (b', Some (fmt_Errorf "protocol error: got type %s but expected %s"
                        [FmtInt t; FmtInt expected]))
  end.

(** Modelled from the spec: [bread] into a [uint32], four big-endian bytes. *)
Definition bread_uint32 (b : list Z) : list Z * (Z + error) :=
  match Uint32 b with
  | Some v => (drop 4 b, inl v)
  | None => ([], inr (errors_New "unexpected EOF"))
  end.

(** Modelled from the spec: [bread(b, uint32Tag, &x)]. *)
Definition bread_tagged_uint32 (b : list Z) : list Z * (Z + error) :=
  match bread_tag uint32Tag b with
  | (b', Some e) => (b', inr e)
  | (b', None) => bread_uint32 b'
  end.

(** Modelled from the spec: [bread(b, uint32Tag, &rsp, uint32Tag, &tag)], the
    values read one after the other. *)
Definition bread_rsp_tag (b : list Z) : list Z * ((Z * Z) + error) :=
  match bread_tagged_uint32 b with
  | (b', inr e) => (b', inr e)
  | (b', inl rsp) =>
      match bread_tagged_uint32 b' with
      | (b'', inr e) => (b'', inr e)
      | (b'', inl tag) => (b'', inl (rsp, tag))
      end
  end.

(** ** The receiver *)

Definition frameSizeMaxAllow : Z := 1024 * 1024 * 16.

(** [io.CopyN(&b, c.conn, n)] on a connection that will deliver the bytes
    [conn] and then end: the bytes appended to [b], the rest of the
    connection, and the error when fewer than [n] bytes arrive. *)
Definition CopyN (conn : list Z) (n : Z) : list Z * list Z * option error :=
  if decide (Z.to_nat n <= length conn)%nat
  then (take (Z.to_nat n) conn, drop (Z.to_nat n) conn, None)
  else (conn, [], Some io_EOF).

(** The loop of the goroutine started by [receive], while the context is
    live: the frames it sends on [recv], in order; the channel is closed
    after the last one.  A turn that succeeds consumes at least twenty
    bytes, so [turns] above the length of the input is never used up. *)
Fixpoint receive_loop (turns : nat) (conn : list Z) : list frame :=
  match turns with
  | O => []
  | S turns' =>
      let '(b, conn, e) := CopyN conn 4 in
      match e with
      | Some e =>
          [ {| buff := Some b;
               err := Some (fmt_Errorf "could not read header from connection: %w"
                              [FmtErr e]) |} ]
      | None =>
          match Uint32 b with
          | None => []
          | Some n =>
              if decide (n > frameSizeMaxAllow) then
                (* the declared body is drained from the connection after
                   the frame is sent, and the goroutine returns *)
                [ {| buff := Some b;
                     err := Some (fmt_Errorf
                                    "response size %d is too long (only %d allowed)"
                                    [FmtInt n; FmtInt frameSizeMaxAllow]) |} ]
              else
                let '(rest, conn, e) := CopyN conn (n + 16) in
                match e with
                | Some e =>
                    [ {| buff := Some (b ++ rest);
                         err := Some (fmt_Errorf
                                        "could not read data from connection: %w"
                                        [FmtErr e]) |} ]
                | None =>
                    {| buff := Some (drop 20 (b ++ rest)); err := None |}
                      :: receive_loop turns' conn
                end
          end
      end
  end.

Definition receive (conn : list Z) : list frame :=
  receive_loop (S (length conn)) conn.

(** ** The multiplexer *)

(** What the frame handler does to the outside: socket writes, sends on a
    caller's response channel, and the two branches of the non-blocking send
    on the updates channel. *)
Inductive effect : Type :=
| Wrote (bytes : list Z)
| Delivered (slot : nat) (f : frame)
| Notified
| Dropped
| ConnClosed.

(** The variables of [handleFrames], the client's updates channel, and the
    response channels nobody receives from any more.  [request] makes a
    fresh unbuffered channel for each request and receives from it once, in
    a [select] with [ctx.Done()]: its caller is gone once it has taken a
    frame or has left through [ctx.Done()]. *)
Record mux := {
  m_tag : Z;
  m_pending : gmap Z request;
  m_updates : chan unit;
  m_trace : list effect;
  m_gone : gset nat
}.

Definition emit (st : mux) (es : list effect) : mux :=
  {| m_tag := m_tag st; m_pending := m_pending st;
     m_updates := m_updates st; m_trace := m_trace st ++ es;
     m_gone := m_gone st |}.

(** What the frame handler keeps true of its variables: the cursor and every
    pending tag lie below the reserved value. *)
Definition mux_ok (st : mux) : Prop :=
  0 <= m_tag st < 0xffffffff /\
  forall k, is_Some (m_pending st !! k) -> 0 <= k < 0xffffffff.

(** One firing of the [select]: a request taken from [out] (with the error
    [c.conn.Write] would return for it), [out] found closed, a frame taken
    from [in], [in] found closed.  Between two firings the surroundings act:
    the caller waiting on a response channel leaves through [ctx.Done()], or
    [Close] is called on the client and closes the updates channel. *)
Inductive event : Type :=
| OutReq (p : request) (werr : option error)
| OutClosed
| InFrame (f : frame)
| InClosed
| CallerLeft (slot : nat)
| ClientClose.

(** [Spin] is the tag search that never ends; [Blocked] is a send on a
    response channel that nobody will receive. *)
Inductive outcome : Type :=
| Continue (st : mux)
| Return (e : option error) (st : mux)
| Panic (st : mux)
| Spin (st : mux)
| Blocked (st : mux).

(** [p.response <- f]: the channel is unbuffered, so the send completes only
    when the caller is there to receive; [None] is the send that blocks for
    good. *)
Definition deliver (st : mux) (slot : nat) (f : frame) : option mux :=
  if decide (slot ∈ m_gone st) then None
  else Some {| m_tag := m_tag st; m_pending := m_pending st;
               m_updates := m_updates st;
               m_trace := m_trace st ++ [Delivered slot f];
               m_gone := {[slot]} ∪ m_gone st |}.

(** The two in-place patches of the outgoing branch:
    [PutUint32(p.data, uint32(len(p.data))-20)] and
    [PutUint32(p.data[26:], tag)].  [None] is a run-time panic. *)
Definition patch_request (d : list Z) (tag : Z) : option (list Z) :=
  match PutUint32 d (uint32 (uint32 (Z.of_nat (length d)) - 20)) with
  | None => None
  | Some d1 =>
      if decide (26 <= length d1)%nat then
        match PutUint32 (drop 26 d1) tag with
        | None => None
        | Some tl => Some (take 26 d1 ++ tl)
        end
      else None
  end.

Definition handle_out (st : mux) (p : request) (werr : option error) : outcome :=
  if decide (length (data p) < 26)%nat then
    match deliver st (response p)
            {| buff := None;
               err := Some (fmt_Errorf "request too short; minimum is 26 bytes" []) |}
    with
    | Some st' => Continue st'
    | None => Blocked st
    end
  else
    match nextAvailableTag (m_tag st) (m_pending st) with
    | None => Spin st
    | Some tag =>
        let st := {| m_tag := tag; m_pending := m_pending st;
                     m_updates := m_updates st; m_trace := m_trace st;
                     m_gone := m_gone st |} in
        match patch_request (data p) tag with
        | None => Panic st
        | Some d =>
            let p := {| data := d; response := response p |} in
            match werr with
            | Some e =>
                match deliver st (response p)
                        {| buff := None;
                           err := Some (fmt_Errorf "couldn't send request: %s"
                                          [FmtErr e]) |}
                with
                | Some st' =>
                    Return
                      (Some (fmt_Errorf "could not write to connection: %w"
                               [FmtErr e]))
                      st'
                | None => Blocked st
                end
            | None =>
                Continue
                  {| m_tag := tag; m_pending := <[tag := p]> (m_pending st);
                     m_updates := m_updates st;
                     m_trace := m_trace st ++ [Wrote d];
                     m_gone := m_gone st |}
            end
        end
    end.

Definition handle_in (st : mux) (incoming : frame) : outcome :=
  match err incoming with
  | Some e =>
      Return (Some (fmt_Errorf "error reading incoming frame: %w" [FmtErr e])) st
  | None =>
      match buff incoming with
      | None => Panic st
      | Some b =>
          match bread_rsp_tag b with
          | (_, inr e) =>
              Return (Some (fmt_Errorf "received invalid pulseaudio request: %w"
                              [FmtErr e])) st
          | (b, inl (rsp, tag)) =>
              if decide (rsp = commandSubscribeEvent /\ tag = 0xffffffff) then
                match try_send (m_updates st) tt with
                | None => Panic st
                | Some (ch, sent) =>
                    Continue
                      {| m_tag := m_tag st; m_pending := m_pending st;
                         m_updates := ch;
                         m_trace := m_trace st ++ [if sent then Notified else Dropped];
                         m_gone := m_gone st |}
                end
              else
                match m_pending st !! tag with
                | None =>
                    Return (Some (fmt_Errorf "no pending requests for tag %d (%s)"
                                    [FmtInt tag; FmtInt rsp])) st
                | Some p =>
                    let st := {| m_tag := m_tag st;
                                 m_pending := delete tag (m_pending st);
                                 m_updates := m_updates st;
                                 m_trace := m_trace st;
                                 m_gone := m_gone st |} in
                    let send f :=
                      match deliver st (response p) f with
                      | Some st' => Continue st'
                      | None => Blocked st
                      end in
                    if decide (rsp = commandError) then
                      let '(b, code) :=
                        match bread_tagged_uint32 b with
                        | (b, inl code) => (b, code)
                        | (b, inr _) => (b, 0)
                        end in
                      match Uint32 (drop 21 (data p)) with
                      | None => Panic st
                      | Some cmd =>
                          send {| buff := Some b;
                                  err := Some (PulseError cmd code) |}
                      end
                    else if decide (rsp = commandReply) then
                      send {| buff := Some b; err := None |}
                    else
                      send {| buff := None;
                              err := Some (fmt_Errorf
                                             "expected reply (2) or error (0) but got: %s"
                                             [FmtInt rsp]) |}
                end
          end
      end
  end.

Definition handleFrames_step (st : mux) (ev : event) : outcome :=
  match ev with
  | OutReq p werr => handle_out st p werr
  | OutClosed => Return None st
  | InFrame f => handle_in st f
  | InClosed => Return None st
  | CallerLeft slot =>
      Continue {| m_tag := m_tag st; m_pending := m_pending st;
                  m_updates := m_updates st; m_trace := m_trace st;
                  m_gone := {[slot]} ∪ m_gone st |}
  | ClientClose =>
      Continue {| m_tag := m_tag st; m_pending := m_pending st;
                  m_updates := chan_close (m_updates st); m_trace := m_trace st;
                  m_gone := m_gone st |}
  end.

(** The [for] loop around the [select]: the events are the firings and the
    acts of the surroundings, in the order they happen; when they are used up
    the handler is still waiting in the [select]. *)
Fixpoint handleFrames_from (st : mux) (evs : list event) : outcome :=
  match evs with
  | [] => Continue st
  | ev :: evs' =>
      match handleFrames_step st ev with
      | Continue st' => handleFrames_from st' evs'
      | o => o
      end
  end.

(** [handleFrames] as [connect] calls it: the cursor starts at zero, and
    every caller is still there. *)
Definition handleFrames (updates : chan unit) (pending : gmap Z request)
    (trace : list effect) (evs : list event) : outcome :=
  handleFrames_from
    {| m_tag := 0; m_pending := pending; m_updates := updates; m_trace := trace;
       m_gone := ∅ |}
    evs.

Definition closed_frame : frame := {| buff := None; err := Some ErrClientClosed |}.

(** The deferred loop of [connect] over what is left in [pending]: one
    blocking send for each entry.  The boolean tells whether the loop came to
    its end; it does not when a send blocks, and the entries after that one
    are not reached.  Go ranges over a map in an unspecified order;
    [map_to_list] fixes one.  A caller that leaves while the loop runs,
    before the loop comes to its entry, is a caller that has left: its
    [CallerLeft] stands before the event on which the handler returns. *)
Fixpoint cleanup (st : mux) (ps : list (Z * request)) : mux * bool :=
  match ps with
  | [] => (st, true)
  | kp :: ps' =>
      match deliver st (response (snd kp)) closed_frame with
      | None => (st, false)
      | Some st' => cleanup st' ps'
      end
  end.

(** The two deferred calls of [connect], in the order they run: the loop,
    then [c.conn.Close()], which is reached only when the loop ends. *)
Definition teardown (st : mux) : mux * bool :=
  let '(st', done) := cleanup st (map_to_list (m_pending st)) in
  if done then (emit st' [ConnClosed], true) else (st', false).

(** The sends the deferred loop makes for a list of entries, and the
    response channels of the entries. *)
Definition closings (ps : list (Z * request)) : list effect :=
  (fun kp => Delivered (response (snd kp)) closed_frame) <$> ps.

Definition slots (ps : list (Z * request)) : list nat :=
  (fun kp => response (snd kp)) <$> ps.

(** The callers of the pending requests are all still waiting: no two
    entries share a response channel, and none of the channels is gone. *)
Definition callers_waiting (st : mux) : Prop :=
  NoDup (slots (map_to_list (m_pending st))) /\
  forall slot, slot ∈ slots (map_to_list (m_pending st)) -> slot ∉ m_gone st.

(** How far [connect] has come once the handshake is over: the handler is
    waiting in its [select]; the handler is stuck ([Spin] or [Blocked]); the
    handler is over and the deferred loop is stuck; or [connect] is over,
    with the error it returns, a panic being [inr]. *)
Inductive served : Type :=
| Serving (st : mux)
| HandlerStuck (st : mux)
| CleanupStuck (st : mux)
| Finished (r : option error + unit) (st : mux).

(** The deferred calls once the handler is over with [r]. *)
Definition finish (r : option error + unit) (st : mux) : served :=
  match teardown st with
  | (st', true) => Finished r st'
  | (st', false) => CleanupStuck st'
  end.

(** What is left of [connect] once the handshake is over: the handler runs
    on a fresh pending table, and the deferred calls run when it returns or
    panics. *)
Definition connect_serve (updates : chan unit) (evs : list event) : served :=
  match handleFrames updates ∅ [] evs with
  | Continue st => Serving st
  | Spin st | Blocked st => HandlerStuck st
  | Return None st => finish (inl None) st
  | Return (Some e) st =>
      finish (inl (Some (fmt_Errorf "frame handler error: %w" [FmtErr e]))) st
  | Panic st => finish (inr tt) st
  end.

(** ** Writing tagged values *)

(** The values the callers below hand to [request] as [...interface{}]. *)
Inductive arg : Type :=
| ArgByte (b : Z)
| ArgUint32 (v : Z)
| ArgBytes (bs : list Z)
| ArgCVolume (cv : list Z)
| ArgPropList (props : list (string * string)).

(** Modelled from the spec: the encoder [bwrite] is declared outside the
    source files modelled here.  Section 4.1: a raw byte is written as it is, a [uint32]
    as four big-endian bytes, a byte slice as it is; a volume vector carries
    its own tag ['v'], a one-byte count and the channels; a property list is
    ['P'], then for each entry the string-tagged key, the [uint32]-tagged
    size and the arbitrary-tagged value, both NUL-terminated, and a closing
    ['N']. *)
Definition bwrite_arg (a : arg) : list Z :=
  match a with
  | ArgByte b => [b]
  | ArgUint32 v => be32 v
  | ArgBytes bs => bs
  | ArgCVolume cv => cvolumeTag :: byte_of (Z.of_nat (length cv)) :: flat_map be32 cv
  | ArgPropList props =>
      propListTag ::
      flat_map (fun kv =>
        let k := bytes_of_string (fst kv) in
        let v := bytes_of_string (snd kv) ++ [0] in
        stringTag :: k ++ [0] ++
        uint32Tag :: be32 (Z.of_nat (length v)) ++
        arbitraryTag :: be32 (Z.of_nat (length v)) ++ v) props
      ++ [stringNullTag]
  end.

(** Modelled from the spec: [bwrite(&b, args...)], the arguments written one
    after the other. *)
Definition bwrite (args : list arg) : list Z := flat_map bwrite_arg args.

(** ** float32

    A [float32] is a [spec_float] of precision 24 and maximal exponent 128;
    arithmetic rounds to nearest, ties to even. *)

Definition f32_mul : spec_float -> spec_float -> spec_float := SFmul 24 128.
Definition f32_div : spec_float -> spec_float -> spec_float := SFdiv 24 128.

(** [float32(n)] for an integer [n]. *)
Definition f32_of_Z (n : Z) : spec_float := binary_normalize 24 128 n 0 false.

(** The integer part of a finite float, the fraction discarded (truncation
    towards zero); [None] for infinities and NaN. *)
Definition f32_trunc (f : spec_float) : option Z :=
  match f with
  | S754_zero _ => Some 0
  | S754_finite s m e =>
      let a := Z.shiftl (Zpos m) e in
      Some (if s then - a else a)
  | _ => None
  end.

(** The rational [m * 2^e]. *)
Definition f32_magnitude (m : positive) (e : Z) : Q :=
  match e with
  | Z0 => inject_Z (Zpos m)
  | Zpos p => inject_Z (Zpos m * 2 ^ Zpos p)
  | Zneg p => Qmake (Zpos m) (2 ^ p)
  end.

(** The exact value of a finite float as a rational. *)
Definition f32_value (f : spec_float) : option Q :=
  match f with
  | S754_zero _ => Some 0%Q
  | S754_finite s m e =>
      Some (if s then Qopp (f32_magnitude m e) else f32_magnitude m e)
  | _ => None
  end.

(** A rational with its fraction discarded, towards zero. *)
Definition Qtrunc (q : Q) : Z :=
  if Qle_bool 0 q then Qfloor q else Qceiling q.

(** The nearest integer, halves upwards. *)
Definition round_nearest (q : Q) : Z := Qfloor (q + (1 # 2)).

(** ** Server objects (the fields of the structs, in their order) *)

Record SampleSpec := { Format : Z; Channels : Z; Rate : Z }.

Record Server := {
  PackageName : string;
  PackageVersion : string;
  User : string;
  Hostname : string;
  ServerSampleSpec : SampleSpec;
  DefaultSink : string;
  DefaultSource : string;
  ServerCookie : Z;
  ServerChannelMap : list Z
}.

Record Sink := {
  Index : Z;
  Name : string;
  Description : string;
  SinkSampleSpec : SampleSpec;
  SinkChannelMap : list Z;
  ModuleIndex : Z;
  CVolume : list Z;
  Muted : bool;
  MonitorSourceIndex : Z;
  MonitorSourceName : string;
  Latency : Z;
  Driver : string;
  Flags : Z;
  PropList : list (string * string);
  RequestedLatency : Z;
  BaseVolume : Z;
  SinkState : Z;
  NVolumeSteps : Z;
  CardIndex : Z;
  ActivePortName : string
}.

Definition pulseVolumeMax : Z := 0xffff.
Definition version : Z := 32.

(** ** Calls of the client

    A call runs against the client's state: the frames handed to the
    multiplexer so far and the stored client index.  [None] is a call that
    does not return (a run-time panic or an endless loop). *)

Record client_state := { sent : list (list Z); clientIndex : Z }.

Definition Call (A : Type) : Type := client_state -> option A * client_state.

Definition ret {A} (a : A) : Call A := fun s => (Some a, s).

Definition bind {A B} (m : Call A) (k : A -> Call B) : Call B :=
  fun s => match m s with
           | (Some a, s') => k a s'
           | (None, s') => (None, s')
           end.

Definition crash {A} : Call A := fun s => (None, s).

Declare Scope call_scope.
Delimit Scope call_scope with call.
Notation "'do' p <- m ;; k" := (bind m (fun x => match x with p => k end))
  (at level 10, p pattern, m at level 99, k at level 200) : call_scope.

(** What happens to one submitted request: [sendRequest] fails, a frame
    arrives on the response channel, or the context is done first. *)
Inductive exchange : Type :=
| SubmitFailed (e : error)
| Answered (f : frame)
| ContextDone (e : error).

(** A decoder reads from the front of a buffer: how many bytes it took and
    what it made of them. *)
Definition decoder (A : Type) : Type := list Z -> nat * (A + error).

Section Client.

(** The far side of [request]: what happens to a frame, given the frames
    submitted before it. *)
Variable peer : list (list Z) -> list Z -> exchange.

(** [ioutil.ReadFile] *)
Variable ReadFile : string -> list Z + error.

(** The property map [setName] collects from the process. *)
Variable identity : list (string * string).

(** [bread(r, &s)] for a [Server] and [bread(b, &sink)] for a [Sink]; the
    field-by-field recipes rest on the decoder [bread], which is declared elsewhere. *)
Variable bread_Server : decoder Server.
Variable bread_Sink : decoder Sink.

(** The value of [uint32(f)] when the truncated [f] does not fit, which Go
    leaves to the implementation. *)
Variable uint32_unrepresentable : spec_float -> Z.

Definition uint32_of_float32 (f : spec_float) : Z :=
  match f32_trunc f with
  | Some z => if decide (0 <= z < uint32_mod) then z else uint32_unrepresentable f
  | None => uint32_unrepresentable f
  end.

(** The header fields and the command prefix [request] puts before the
    caller's arguments. *)
Definition request_prefix (cmd : Z) : list arg :=
  [ArgUint32 0; ArgUint32 0xffffffff; ArgUint32 0; ArgUint32 0; ArgUint32 0;
   ArgByte uint32Tag; ArgUint32 (uint32 cmd);
   ArgByte uint32Tag; ArgUint32 0].

Definition Client_request (cmd : Z) (args : list arg)
    : Call (option (list Z) * option error) :=
  fun s =>
    let b := bwrite (request_prefix cmd ++ args) in
    if decide (Z.of_nat (length b) > frameSizeMaxAllow) then
      (Some (None, Some (fmt_Errorf "request size %d is too long (only %d allowed)"
                           [FmtInt (Z.of_nat (length b)); FmtInt frameSizeMaxAllow])),
       s)
    else
      match peer (sent s) b with
      | SubmitFailed e => (Some (None, Some e), s)
      | Answered f =>
          (Some (buff f, err f),
           {| sent := sent s ++ [b]; clientIndex := clientIndex s |})
      | ContextDone e =>
          (Some (None, Some e),
           {| sent := sent s ++ [b]; clientIndex := clientIndex s |})
      end.

(** [bread(b, uint32Tag, &x)] on the buffer a request returned; a nil
    buffer is a nil dereference. *)
Definition read_reply_uint32 (b : option (list Z)) : Call (Z + error) :=
  match b with
  | None => crash
  | Some b => ret (snd (bread_tagged_uint32 b))
  end.

Definition protocolVersionMask : Z := 0x0000FFFF.
Definition cookieLength : nat := 256.

Definition auth (cookiePath : string) : Call (option error) :=
  match ReadFile cookiePath with
  | inr e => ret (Some e)
  | inl cookie =>
      if decide (length cookie <> cookieLength) then
        ret (Some (fmt_Errorf
               "pulseaudio client cookie has incorrect length %d: expected %d (path %#v)"
               [FmtInt (Z.of_nat (length cookie)); FmtInt (Z.of_nat cookieLength);
                FmtStr cookiePath]))
      else
        (do (b, e) <- Client_request commandAuth
                      [ArgByte uint32Tag; ArgUint32 (uint32 version);
                       ArgByte arbitraryTag;
                       ArgUint32 (uint32 (Z.of_nat (length cookie)));
                       ArgBytes cookie] ;;
         match e with
         | Some e => ret (Some e)
         | None =>
             do r <- read_reply_uint32 b ;;
             match r with
             | inr e => ret (Some e)
             | inl serverVersion =>
                 let serverVersion := Z.land serverVersion protocolVersionMask in
                 if decide (serverVersion < version) then
                   ret (Some (fmt_Errorf
                          "pulseaudio server supports version %d but minimum required is %d"
                          [FmtInt serverVersion; FmtInt version]))
                 else ret None
             end
         end)%call
  end.

Definition setName : Call (option error) :=
  (do (b, e) <- Client_request commandSetClientName [ArgPropList identity] ;;
   match e with
   | Some e => ret (Some e)
   | None =>
       do r <- read_reply_uint32 b ;;
       match r with
       | inr e => ret (Some e)
       | inl idx =>
           fun s => (Some None, {| sent := sent s; clientIndex := idx |})
       end
   end)%call.

Definition init (cookiePath : string) : Call (option error) :=
  (do e <- auth cookiePath ;;
   match e with
   | Some e => ret (Some (fmt_Errorf "authentication failure: %w" [FmtErr e]))
   | None =>
       do e <- setName ;;
       match e with
       | Some e =>
           ret (Some (fmt_Errorf
                  "could not send app identification data to server: %w" [FmtErr e]))
       | None => ret None
       end
   end)%call.

Definition ServerInfo : Call (Server + error) :=
  (do (r, e) <- Client_request commandGetServerInfo [] ;;
   match e with
   | Some e => ret (inr e)
   | None =>
       match r with
       | None => crash
       | Some r =>
           match snd (bread_Server r) with
           | inr e => ret (inr e)
           | inl s => ret (inl s)
           end
       end
   end)%call.

(** The loop [for b.Len() > 0] of [Sinks]: [None] when the turns are used
    up, which happens only if a decode succeeds without reading a byte. *)
Fixpoint Sinks_loop (turns : nat) (b : list Z) (sinks : list Sink)
    : option (list Sink + error) :=
  match b with
  | [] => Some (inl sinks)
  | _ :: _ =>
      match turns with
      | O => None
      | S turns' =>
          match bread_Sink b with
          | (_, inr e) => Some (inr e)
          | (n, inl sink) => Sinks_loop turns' (drop n b) (sinks ++ [sink])
          end
      end
  end.

Definition Sinks : Call (list Sink + error) :=
  (do (b, e) <- Client_request commandGetSinkInfoList [] ;;
   match e with
   | Some e => ret (inr e)
   | None =>
       match b with
       | None => crash
       | Some b =>
           match Sinks_loop (length b) b [] with
           | None => crash
           | Some r => ret r
           end
       end
   end)%call.

(** What [Sinks] leaves in the variable [sinks] of its caller: the list,
    or nil next to an error. *)
Definition sinks_value (r : list Sink + error) : list Sink :=
  match r with inl l => l | inr _ => [] end.

(** The [for ... range sinks] loop of [Volume]: the first sink whose name
    is the default sink's ends the loop; indexing an empty volume vector
    panics. *)
Fixpoint Volume_loop (sinks : list Sink) (default : string)
    : option (option spec_float) :=
  match sinks with
  | [] => Some None
  | sink :: sinks' =>
      if decide (Name sink <> default) then Volume_loop sinks' default
      else match CVolume sink with
           | [] => None
           | c0 :: _ =>
               Some (Some (f32_div (f32_of_Z c0) (f32_of_Z pulseVolumeMax)))
           end
  end.

Definition Volume : Call (spec_float * option error) :=
  (do s <- ServerInfo ;;
   match s with
   | inr e => ret (S754_zero false, Some e)
   | inl s =>
       do r <- Sinks ;;
       match Volume_loop (sinks_value r) (DefaultSink s) with
       | None => crash
       | Some (Some v) => ret (v, None)
       | Some None =>
           ret (S754_zero false,
                Some (fmt_Errorf
                        "PulseAudio error: couldn't query volume - Sink %s not found"
                        [FmtStr (DefaultSink s)]))
       end
   end)%call.

Definition setSinkVolume (sinkName : string) (cvolume : list Z)
    : Call (option error) :=
  (do (_, e) <- Client_request commandSetSinkVolume
                [ArgByte uint32Tag; ArgUint32 0xffffffff;
                 ArgByte stringTag; ArgBytes (bytes_of_string sinkName);
                 ArgByte 0; ArgCVolume cvolume] ;;
   ret e)%call.

Definition SetVolume (volume : spec_float) : Call (option error) :=
  (do s <- ServerInfo ;;
   match s with
   | inr e => ret (Some e)
   | inl s =>
       setSinkVolume (DefaultSink s)
         [uint32_of_float32 (f32_mul volume (f32_of_Z 0xffff))]
   end)%call.

Definition SetSinkVolume (sinkName : string) (volume : spec_float)
    : Call (option error) :=
  setSinkVolume sinkName [uint32_of_float32 (f32_mul volume (f32_of_Z 0xffff))].

End Client.

(** ** Configuration *)

Inductive Logger : Type :=
| discardLogger
| userLogger (id : nat).

Record Opts := {
  DialTimeout : Z;
  RequestTimeout : Z;
  OptLogger : option Logger;
  Protocol : string;
  Addr : string;
  Cookie : string
}.

(** What [NewClient] reads from the process: the environment and the uid. *)
Record OS := { Getenv : string -> string; Getuid : Z }.

(** The fields of [Client] that [NewClient] sets; the others are left at
    their zero values. *)
Record Client := {
  requests : chan request;
  updates : chan unit;
  dialer_Timeout : Z;
  logger : Logger;
  opts : Opts
}.

Definition defaultAddr (os : OS) : string :=
  ("/run/user/" ++ pretty (Getuid os) ++ "/pulse/native")%string.

Definition HasPrefix (s p : string) : bool := String.prefix p s.

Fixpoint string_drop (n : nat) (s : string) : string :=
  match n, s with
  | O, _ => s
  | S n', String _ s' => string_drop n' s'
  | S _, EmptyString => EmptyString
  end.

Definition TrimPrefix (s p : string) : string :=
  if HasPrefix s p then string_drop (String.length p) s else s.

(** [mergo.Merge(opts, defaults)] as [NewClient] calls it, with the struct
    [opts] itself as destination: the callee receives a copy boxed in an
    interface value, and the library answers a destination that is not a
    pointer with an error, merging nothing.  The returned error is all the
    caller can observe of the call. *)
Definition mergo_Merge_by_value (dst src : Opts) : option error :=
  Some (errors_New "dst must be a pointer").

Definition NewClient (os : OS) (opts : Opts) : Client :=
  let defaults :=
    {| DialTimeout := 0; RequestTimeout := 0; OptLogger := None;
       Protocol := "tcp";
       Addr := Getenv os "PULSE_SERVER";
       Cookie := Getenv os "PULSE_COOKIE" |} in
  let _ := mergo_Merge_by_value opts defaults in
  let opts :=
    if decide (Addr opts = ""%string) then
      {| DialTimeout := DialTimeout opts; RequestTimeout := RequestTimeout opts;
         OptLogger := OptLogger opts; Protocol := Protocol opts;
         Addr := defaultAddr os; Cookie := Cookie opts |}
    else opts in
  let opts :=
    if HasPrefix (Addr opts) "unix://" then
      {| DialTimeout := DialTimeout opts; RequestTimeout := RequestTimeout opts;
         OptLogger := OptLogger opts; Protocol := "unix";
         Addr := TrimPrefix (Addr opts) "unix://"; Cookie := Cookie opts |}
    else opts in
  let opts :=
    if decide (Cookie opts = ""%string) then
      {| DialTimeout := DialTimeout opts; RequestTimeout := RequestTimeout opts;
         OptLogger := OptLogger opts; Protocol := Protocol opts;
         Addr := Addr opts;
         Cookie := (Getenv os "HOME" ++ "/.config/pulse/cookie")%string |}
    else opts in
  {| requests := make_chan 16;
     updates := make_chan 1;
     dialer_Timeout := DialTimeout opts;
     logger := match OptLogger opts with Some l => l | None => discardLogger end;
     opts := opts |}.

(** The dial target as the specification words it: the explicit option, then
    [PULSE_SERVER], else the per-user socket; a [unix://] prefix is stripped
    and forces the unix scheme, otherwise the configured scheme, [tcp] when
    none is configured. *)
Definition dial_target_spec (os : OS) (opts : Opts) : string * string :=
  let addr :=
    if decide (Addr opts <> ""%string) then Addr opts
    else if decide (Getenv os "PULSE_SERVER" <> ""%string) then Getenv os "PULSE_SERVER"
    else defaultAddr os in
  if HasPrefix addr "unix://" then ("unix"%string, TrimPrefix addr "unix://")
  else (if decide (Protocol opts = ""%string) then "tcp"%string else Protocol opts, addr).

(** The target [connect] dials: [c.opts.Protocol] and [c.opts.Addr]. *)
Definition dial_target (c : Client) : string * string :=
  (Protocol (opts c), Addr (opts c)).

(** ** Submission *)

(** [sendRequest]: a [select] over the send on [c.requests], the context's
    [Done] channel and a [default].  The send is ready when the buffer has
    room or the channel is closed, [Done] when the context has ended with the
    error [ctx]; when both are ready the runtime picks one, which [pick_done]
    records; when neither is, the [default] branch runs.  The send on a
    closed channel panics: [None]. *)
Definition sendRequest (requests : chan request) (ctx : option error)
    (pick_done : bool) (req : request) : option (chan request * option error) :=
  let sent := {| cap := cap requests; queue := queue requests ++ [req];
                 closed := false |} in
  if closed requests then
    match ctx with
    | Some e => if pick_done then Some (requests, Some e) else None
    | None => None
    end
  else if decide (length (queue requests) < cap requests)%nat then
    match ctx with
    | Some e => if pick_done then Some (requests, Some e) else Some (sent, None)
    | None => Some (sent, None)
    end
  else
    match ctx with
    | Some e => Some (requests, Some e)
    | None => Some (requests, Some ErrCouldNotSendRequest)
    end.

(** Callers submitting one after the other under live contexts while the
    frame handler takes nothing: the channel afterwards and what each call
    returned. *)
Fixpoint submit_all (requests : chan request) (reqs : list request)
    : option (chan request * list (option error)) :=
  match reqs with
  | [] => Some (requests, [])
  | req :: reqs' =>
      match sendRequest requests None false req with
      | None => None
      | Some (requests', e) =>
          match submit_all requests' reqs' with
          | None => None
          | Some (requests'', es) => Some (requests'', e :: es)
          end
      end
  end.

(** ** The handshake inside [connect] *)

(** [connect] calls [init] before it starts the receive loop and the frame
    handler, and in the same goroutine: while [init] runs nobody takes a
    request from [c.requests], nothing is written to the socket and no
    response channel receives a frame.  A request made by [init] ends in one
    of two ways: [sendRequest] returns an error, or the request is queued and
    its caller waits until the init context, which has a deadline of ten
    seconds, is done.  [submit] is what [sendRequest] returns for a frame,
    given the frames submitted before it; [ctx_err] is the error of the init
    context once it is done. *)
Definition unserved (submit : list (list Z) -> list Z -> option error)
    (ctx_err : error) : list (list Z) -> list Z -> exchange :=
  fun earlier b =>
    match submit earlier b with
    | Some e => SubmitFailed e
    | None => ContextDone ctx_err
    end.

(** [connect] up to the start of the receive loop: the dial (its error, if
    any, is given) and the handshake.  [Some e] is the error [connect]
    returns, ending this turn of the connection loop; [None] lets
    [connect] go on to serve. *)
Definition connect_handshake
    (submit : list (list Z) -> list Z -> option error) (ctx_err : error)
    (ReadFile : string -> list Z + error) (identity : list (string * string))
    (addr cookiePath : string) (dial : option error) : Call (option error) :=
  match dial with
  | Some e =>
      ret (Some (fmt_Errorf "could not dial pulseaudio server %s: %w"
                   [FmtStr addr; FmtErr e]))
  | None =>
      (do e <- init (unserved submit ctx_err) ReadFile identity cookiePath ;;
       match e with
       | Some e => ret (Some (fmt_Errorf "error during init: %w" [FmtErr e]))
       | None => ret None
       end)%call
  end.

(** ** Mute *)

(** Modelled from the spec: the code of SET_SINK_MUTE. *)
Definition commandSetSinkMute : Z := 39.

Section Mute.

Variable peer : list (list Z) -> list Z -> exchange.
Variable bread_Server : decoder Server.
Variable bread_Sink : decoder Sink.

(** The rune ['0'] or ['1'], converted with [uint8]. *)
Definition muteCmd (mute : bool) : Z := if mute then 49 else 48.

Definition SetSinkMute (sinkName : string) (mute : bool) : Call (option error) :=
  (do (_, e) <- Client_request peer commandSetSinkMute
                  [ArgByte uint32Tag; ArgUint32 0xffffffff;
                   ArgByte stringTag; ArgBytes (bytes_of_string sinkName);
                   ArgByte 0; ArgByte (byte_of (muteCmd mute))] ;;
   ret e)%call.

(** [ServerInfo] returns a nil server only next to an error, so the test
    [err != nil || s == nil] is the error case. *)
Definition SetMute (mute : bool) : Call (option error) :=
  (do s <- ServerInfo peer bread_Server ;;
   match s with
   | inr e => ret (Some e)
   | inl s => SetSinkMute (DefaultSink s) mute
   end)%call.

(** The [for ... range sinks] loop of [Mute]: the flag of the first sink
    named like the default sink. *)
Fixpoint Mute_loop (sinks : list Sink) (default : string) : option bool :=
  match sinks with
  | [] => None
  | sink :: sinks' =>
      if decide (Name sink <> default) then Mute_loop sinks' default
      else Some (Muted sink)
  end.

Definition Mute : Call (bool * option error) :=
  (do s <- ServerInfo peer bread_Server ;;
   match s with
   | inr e => ret (false, Some e)
   | inl s =>
       do r <- Sinks peer bread_Sink ;;
       match r with
       | inr e => ret (false, Some e)
       | inl sinks =>
           match Mute_loop sinks (DefaultSink s) with
           | Some m => ret (m, None)
           | None => ret (true, Some (fmt_Errorf "couldn't find Sink" []))
           end
       end
   end)%call.

Definition ToggleMute : Call (bool * option error) :=
  (do s <- ServerInfo peer bread_Server ;;
   match s with
   | inr e => ret (true, Some e)
   | inl _ =>
       do (muted, e) <- Mute ;;
       match e with
       | Some e => ret (true, Some e)
       | None =>
           do e <- SetMute (negb muted) ;;
           ret (negb muted, e)
       end
   end)%call.

End Mute.

(** ** Reading the text of [pactl list sinks]

    The definitions of this part follow the source on lines of ASCII
    characters ([ascii_only]), for which ranging over the runes of a string
    is ranging over its bytes and the white space of [strings.TrimSpace] is
    the six characters of [is_space]; what the source does with other lines
    is not modelled, and every statement about these definitions is for
    ASCII lines. *)

(** The characters [strings.TrimSpace] removes among the ASCII ones: tab,
    line feed, vertical tab, form feed, carriage return, space. *)
Definition is_space (c : ascii) : bool :=
  let n := nat_of_ascii c in
  (Nat.leb 9 n && Nat.leb n 13) || Nat.eqb n 32.

Fixpoint trim_left (s : string) : string :=
  match s with
  | EmptyString => EmptyString
  | String c s' => if is_space c then trim_left s' else s
  end.

Fixpoint string_rev_append (s acc : string) : string :=
  match s with
  | EmptyString => acc
  | String c s' => string_rev_append s' (String c acc)
  end.

Definition string_rev (s : string) : string := string_rev_append s EmptyString.

Definition TrimSpace (s : string) : string :=
  string_rev (trim_left (string_rev (trim_left s))).

(** The strings this part is about: every character is an ASCII one. *)
Fixpoint ascii_only (s : string) : bool :=
  match s with
  | EmptyString => true
  | String c s' => Nat.ltb (nat_of_ascii c) 128 && ascii_only s'
  end.

Definition tab : ascii := ascii_of_nat 9.
Definition colon : ascii := ascii_of_nat 58.
Definition equals_sign : ascii := ascii_of_nat 61.

(** The loop of [readToken] over the characters still to read, with the
    builder's content and the indent so far. *)
Fixpoint readToken_loop (isText : bool) (line : string) (token : string)
    (indent : nat) : string * nat * string :=
  match line with
  | EmptyString => (TrimSpace token, indent, EmptyString)
  | String r rest =>
      if Ascii.eqb r tab then readToken_loop isText rest token (S indent)
      else if Ascii.eqb r colon || Ascii.eqb r equals_sign then
        if isText then readToken_loop isText rest (token ++ String r EmptyString) indent
        else (TrimSpace token, indent, rest)
      else readToken_loop isText rest (token ++ String r EmptyString) indent
  end.

Definition readToken (line : string) (isText : bool) : string * nat * string :=
  readToken_loop isText line EmptyString 0.

(** A line without its tabs, and the number of its tabs. *)
Fixpoint without_tabs (s : string) : string :=
  match s with
  | EmptyString => EmptyString
  | String c s' => if Ascii.eqb c tab then without_tabs s' else String c (without_tabs s')
  end.

Fixpoint count_tabs (s : string) : nat :=
  match s with
  | EmptyString => O
  | String c s' => if Ascii.eqb c tab then S (count_tabs s') else count_tabs s'
  end.

(** No colon and no equals sign in the string. *)
Fixpoint no_separator (s : string) : bool :=
  match s with
  | EmptyString => true
  | String c s' => negb (Ascii.eqb c colon || Ascii.eqb c equals_sign) && no_separator s'
  end.

(** ** The fallback client over [pactl] *)

Definition ErrSinkNotFound : error := errors_New "sink not found in output".

Section Cli.

(** What [runListSinks] returns: the sinks parsed from the output of
    [pactl list sinks], or its error. *)
Variable runListSinks : list Sink + error.

(** What running [/usr/bin/pactl] with the given arguments returns. *)
Variable exec : list string -> option error.

Variable uint32_unrepresentable : spec_float -> Z.

(** [runSetVolume]: the arguments of the command that is run, and the
    result. *)
Definition runSetVolume (sink vol : Z) : list (list string) * option error :=
  let args := ["set-sink-volume"; pretty sink; String.append (pretty vol) "%"]%string in
  ([args],
   match exec args with
   | Some e => Some (fmt_Errorf "error executing command: %w" [FmtErr e])
   | None => None
   end).

(** The loop of [CliClient.SetVolume] over the sinks. *)
Fixpoint cli_SetVolume_loop (sinks : list Sink) (defaultSink : string) (vol : Z)
    : list (list string) * option error :=
  match sinks with
  | [] => ([], Some ErrSinkNotFound)
  | s :: sinks' =>
      if decide (Name s = defaultSink) then runSetVolume (Index s) vol
      else cli_SetVolume_loop sinks' defaultSink vol
  end.

(** The arguments [runListSinks] runs [/usr/bin/pactl] with. *)
Definition list_sinks_args : list string := ["list"; "sinks"]%string.

(** [CliClient.SetVolume]: the commands run, in order, and the result.
    [runListSinks] comes first and runs its command whatever comes of it. *)
Definition cli_SetVolume (defaultSink : string) (volume : spec_float)
    : list (list string) * option error :=
  match runListSinks with
  | inr e =>
      ([list_sinks_args],
       Some (fmt_Errorf "could not get sinks info: %w" [FmtErr e]))
  | inl sinks =>
      let '(cmds, e) :=
        cli_SetVolume_loop sinks defaultSink
          (uint32_of_float32 uint32_unrepresentable (f32_mul volume (f32_of_Z 100))) in
      (list_sinks_args :: cmds, e)
  end.

(** The loop of [CliClient.Volume] over the sinks. *)
Fixpoint cli_Volume_loop (sinks : list Sink) (defaultSink : string)
    : spec_float * option error :=
  match sinks with
  | [] => (S754_zero false, Some ErrSinkNotFound)
  | s :: sinks' =>
      if decide (Name s = defaultSink) then
        match CVolume s with
        | [] => (S754_zero false, None)
        | c0 :: _ => (f32_div (f32_of_Z c0) (f32_of_Z 100), None)
        end
      else cli_Volume_loop sinks' defaultSink
  end.

Definition cli_Volume (defaultSink : string) : spec_float * option error :=
  match runListSinks with
  | inr e => (S754_zero false,
              Some (fmt_Errorf "could not get sinks info: %w" [FmtErr e]))
  | inl sinks => cli_Volume_loop sinks defaultSink
  end.

End Cli.

(** ** Inputs for the examples *)

(** A request as [Client.request] builds it for a command without arguments:
    thirty bytes. *)
Definition sample_request (cmd : Z) (slot : nat) : request :=
  {| data := bwrite [ArgUint32 0; ArgUint32 0xffffffff; ArgUint32 0; ArgUint32 0;
                     ArgUint32 0; ArgByte uint32Tag; ArgUint32 cmd;
                     ArgByte uint32Tag; ArgUint32 0];
     response := slot |}.

(** The body of an inbound frame, past the header: the tagged response
    command, the tagged request tag, and the rest. *)
Definition inbound_body (rsp tag : Z) (payload : list Z) : list Z :=
  uint32Tag :: be32 rsp ++ uint32Tag :: be32 tag ++ payload.

Definition inbound (rsp tag : Z) (payload : list Z) : frame :=
  {| buff := Some (inbound_body rsp tag payload); err := None |}.

(** A subscription event as the server pushes it. *)
Definition subscribe_event (payload : list Z) : frame :=
  inbound commandSubscribeEvent 0xffffffff payload.

(** Two requests submitted and written, none answered yet. *)
Definition two_requests : list event :=
  [OutReq (sample_request commandGetServerInfo 1) None;
   OutReq (sample_request commandGetSinkInfoList 2) None].

(** The frame [auth] submits for a cookie. *)
Definition auth_frame (cookie : list Z) : list Z :=
  bwrite (request_prefix commandAuth ++
          [ArgByte uint32Tag; ArgUint32 (uint32 version);
           ArgByte arbitraryTag; ArgUint32 (uint32 (Z.of_nat (length cookie)));
           ArgBytes cookie]).

(** The reply to AUTH: a tagged [uint32], then whatever follows. *)
Definition auth_reply (v : Z) (rest : list Z) : frame :=
  {| buff := Some (uint32Tag :: be32 v ++ rest); err := None |}.

Definition version_too_low (v : Z) : error :=
  fmt_Errorf "pulseaudio server supports version %d but minimum required is %d"
    [FmtInt v; FmtInt version].

(** A peer that answers every request with the reply to AUTH announcing
    [v]; a cookie file of [n] zero bytes; a client that has done nothing. *)
Definition auth_peer (v : Z) : list (list Z) -> list Z -> exchange :=
  fun _ _ => Answered (auth_reply v []).

(** [context.DeadlineExceeded] *)
Definition context_DeadlineExceeded : error := errors_New "context deadline exceeded".

Definition cookie_file (n : nat) : string -> list Z + error :=
  fun _ => inl (replicate n 0).

Definition fresh_client : client_state := {| sent := []; clientIndex := 0 |}.

(** The arguments and the frame of the SET_SINK_VOLUME request for a sink
    name and one channel value. *)
Definition set_sink_volume_args (name : string) (c : Z) : list arg :=
  [ArgByte uint32Tag; ArgUint32 0xffffffff;
   ArgByte stringTag; ArgBytes (bytes_of_string name); ArgByte 0;
   ArgCVolume [c]].

Definition set_sink_volume_frame (name : string) (c : Z) : list Z :=
  bwrite (request_prefix commandSetSinkVolume ++ set_sink_volume_args name c).

(** A server whose default sink is [name], and a sink with a name and a
    volume vector; the other fields are zero. *)
Definition server_with_default (name : string) : Server :=
  {| PackageName := "pulseaudio"; PackageVersion := "16.1"; User := "";
     Hostname := ""; ServerSampleSpec := {| Format := 3; Channels := 2; Rate := 44100 |};
     DefaultSink := name; DefaultSource := ""; ServerCookie := 0;
     ServerChannelMap := [1; 2] |}.

Definition sink_named (name : string) (cv : list Z) : Sink :=
  {| Index := 0; Name := name; Description := "";
     SinkSampleSpec := {| Format := 3; Channels := 2; Rate := 44100 |};
     SinkChannelMap := [1; 2]; ModuleIndex := 0; CVolume := cv; Muted := false;
     MonitorSourceIndex := 0; MonitorSourceName := ""; Latency := 0; Driver := "";
     Flags := 0; PropList := []; RequestedLatency := 0; BaseVolume := 0;
     SinkState := 0; NVolumeSteps := 0; CardIndex := 0; ActivePortName := "" |}.

(** A peer that answers every request with an empty reply body, and one that
    answers the first request so and fails every later one. *)
Definition ok_peer : list (list Z) -> list Z -> exchange :=
  fun _ _ => Answered {| buff := Some []; err := None |}.

Definition first_only_peer : list (list Z) -> list Z -> exchange :=
  fun earlier _ =>
    match earlier with
    | [] => Answered {| buff := Some []; err := None |}
    | _ => Answered {| buff := Some []; err := Some (PulseError commandGetSinkInfoList 1) |}
    end.

(** A decoder that reads nothing and yields the given value. *)
Definition const_decoder {A} (a : A) : decoder A := fun _ => (0%nat, inl a).

(** The floats 0.5 and 0.25. *)
Definition f32_half : spec_float := S754_finite false 8388608 (-24).
Definition f32_quarter : spec_float := S754_finite false 8388608 (-25).

(** A process of user 1000 whose environment holds only [PULSE_SERVER], and
    options with every field at its zero value. *)
Definition env_with_server (server : string) : OS :=
  {| Getenv := fun k => if String.eqb k "PULSE_SERVER" then server else ""%string;
     Getuid := 1000 |}.

Definition zero_opts : Opts :=
  {| DialTimeout := 0; RequestTimeout := 0; OptLogger := None;
     Protocol := ""; Addr := ""; Cookie := "" |}.

(** ** Notions used to state further properties *)

(** The bytes of a request of at least thirty bytes after the two patches:
    the body length, bytes 4 to 25 as they were, the tag, the rest. *)
Definition patched (d : list Z) (tag : Z) : list Z :=
  be32 (uint32 (uint32 (Z.of_nat (length d)) - 20)) ++
  take 22 (drop 4 d) ++ be32 tag ++ drop 30 d.

(** The frame [Client.request] builds for a command and its arguments. *)
Definition request_frame (cmd : Z) (args : list arg) : list Z :=
  bwrite ([ArgUint32 0; ArgUint32 0xffffffff; ArgUint32 0; ArgUint32 0; ArgUint32 0;
           ArgByte uint32Tag; ArgUint32 (uint32 cmd);
           ArgByte uint32Tag; ArgUint32 0] ++ args).

(** Every frame written to the connection has at least thirty bytes and
    carries its own body length in its first four. *)
Definition written_ok (st : mux) : Prop :=
  forall d, Wrote d ∈ m_trace st ->
    (30 <= length d)%nat /\
    Uint32 d = Some (uint32 (uint32 (Z.of_nat (length d)) - 20)).

(** Every pending entry holds at least thirty bytes, carries the tag it is
    filed under at offset 26, and was written to the connection. *)
Definition pending_ok (st : mux) : Prop :=
  forall t p, m_pending st !! t = Some p ->
    (30 <= length (data p))%nat /\
    Uint32 (drop 26 (data p)) = Some t /\
    Wrote (data p) ∈ m_trace st.

(** The response channels of the requests among the events. *)
Definition request_slots (evs : list event) : list nat :=
  flat_map (fun ev => match ev with OutReq p _ => [response p] | _ => [] end) evs.

(** The surroundings leave the handler alone: no caller leaves and [Close]
    is not called. *)
Definition undisturbed (ev : event) : Prop :=
  match ev with
  | CallerLeft _ | ClientClose => False
  | _ => True
  end.

(** What holds of the callers while the handler is left alone and every
    request to come has a response channel of its own: the updates channel
    is open, the callers of the pending requests are waiting on channels no
    two of which are the same, and the channels of the requests to come are
    not in use. *)
Definition waiters_ok (st : mux) (evs : list event) : Prop :=
  closed (m_updates st) = false /\
  (forall t p, m_pending st !! t = Some p ->
     (response p ∉ m_gone st) /\ (response p ∉ request_slots evs)) /\
  (forall t1 t2 p1 p2, t1 <> t2 ->
     m_pending st !! t1 = Some p1 -> m_pending st !! t2 = Some p2 ->
     response p1 <> response p2) /\
  (forall slot, slot ∈ request_slots evs -> slot ∉ m_gone st) /\
  NoDup (request_slots evs).

Definition is_Wrote (e : effect) : Prop :=
  match e with Wrote _ => True | _ => False end.

(** A peer that answers every request with the body [b], and a decoder that
    reads one byte and yields the given value. *)
Definition body_peer (b : list Z) : list (list Z) -> list Z -> exchange :=
  fun _ _ => Answered {| buff := Some b; err := None |}.

Definition one_byte_decoder {A} (a : A) : decoder A := fun _ => (1%nat, inl a).

(** * Properties *)

(** ** Big-endian words *)

Lemma byte_of_testbit x i :
  0 <= i -> Z.testbit (byte_of x) i = Z.testbit x i && (i <? 8).
Proof.
  intros Hi. unfold byte_of. change 255 with (Z.ones 8).
  rewrite Z.land_spec, Z.testbit_ones_nonneg by lia. reflexivity.
Qed.

Lemma byte_shift_testbit v k n :
  0 <= k ->
  Z.testbit (byte_of (Z.shiftr v k)) (n - k) =
  if decide (k <= n < k + 8) then Z.testbit v n else false.
Proof.
  intros Hk. destruct (Z.lt_ge_cases (n - k) 0) as [Hneg | Hpos].
  - rewrite Z.testbit_neg_r by lia. case_decide; [lia | reflexivity].
  - rewrite byte_of_testbit, Z.shiftr_spec by lia.
    replace (n - k + k) with n by lia.
    case_decide.
    + replace (n - k <? 8) with true by (symmetry; apply Z.ltb_lt; lia).
      apply andb_true_r.
    + replace (n - k <? 8) with false by (symmetry; apply Z.ltb_ge; lia).
      apply andb_false_r.
Qed.

Lemma testbit_above_32 v n :
  0 <= v < uint32_mod -> 32 <= n -> Z.testbit v n = false.
Proof.
  intros [Hv0 Hv] Hn. destruct (Z.eq_dec v 0) as [-> | Hne].
  - apply Z.bits_0.
  - apply Z.bits_above_log2; [lia |].
    assert (Z.log2 v < 32); [| lia].
    apply Z.log2_lt_pow2; [lia | exact Hv].
Qed.

Lemma be32_length v : length (be32 v) = 4%nat.
Proof. reflexivity. Qed.

Lemma Uint32_be32 v rest :
  0 <= v < uint32_mod -> Uint32 (be32 v ++ rest) = Some v.
Proof.
  intros Hv. cbn [be32 app Uint32]. f_equal.
  apply Z.bits_inj'. intros n Hn.
  rewrite !Z.lor_spec, !Z.shiftl_spec by lia.
  rewrite !byte_shift_testbit by lia.
  rewrite (byte_of_testbit v n) by lia.
  destruct (Z.lt_ge_cases n 8); [| destruct (Z.lt_ge_cases n 16);
    [| destruct (Z.lt_ge_cases n 24); [| destruct (Z.lt_ge_cases n 32)]]];
    repeat case_decide; try lia;
    try (replace (n <? 8) with true by (symmetry; apply Z.ltb_lt; lia));
    try (replace (n <? 8) with false by (symmetry; apply Z.ltb_ge; lia));
    rewrite ?andb_true_r, ?andb_false_r, ?orb_false_r; simpl; try reflexivity.
  symmetry. apply testbit_above_32; assumption.
Qed.

(** ** Tag allocation *)

Lemma next_tag_range t : 0 <= next_tag t < 0xffffffff.
Proof.
  unfold next_tag, uint32, uint32_mod.
  pose proof (Z.mod_pos_bound (t + 1) 0x100000000 eq_refl).
  case_decide; lia.
Qed.

Lemma next_tag_low t :
  0 <= t < 0xffffffff -> next_tag t = (t + 1) mod 0xffffffff.
Proof.
  intros Ht. unfold next_tag, uint32, uint32_mod.
  rewrite (Z.mod_small (t + 1)) by lia.
  case_decide as Heq.
  - rewrite Heq. symmetry. apply Z.mod_same. lia.
  - symmetry. apply Z.mod_small. lia.
Qed.

Lemma visited_S i t : visited (S i) t = visited i (next_tag t).
Proof. unfold visited. rewrite Nat.iter_succ_r. reflexivity. Qed.

Lemma visited_low i t :
  0 <= t < 0xffffffff -> visited i t = (t + Z.of_nat i) mod 0xffffffff.
Proof.
  revert t. induction i as [| i IH]; intros t Ht.
  - unfold visited. simpl. rewrite Z.add_0_r. symmetry. apply Z.mod_small. lia.
  - rewrite visited_S, IH by apply next_tag_range.
    rewrite next_tag_low by exact Ht.
    rewrite Zplus_mod_idemp_l. f_equal. lia.
Qed.

Lemma visited_inj t i j :
  0 <= t < 0xffffffff ->
  (Z.of_nat i < 0xffffffff) -> (Z.of_nat j < 0xffffffff) ->
  visited i t = visited j t -> i = j.
Proof.
  intros Ht Hi Hj. rewrite !visited_low by exact Ht. intros Heq.
  pose proof (Z.div_mod (t + Z.of_nat i) 0xffffffff ltac:(lia)) as Di.
  pose proof (Z.div_mod (t + Z.of_nat j) 0xffffffff ltac:(lia)) as Dj.
  rewrite Heq in Di.
  assert ((t + Z.of_nat i) / 0xffffffff = (t + Z.of_nat j) / 0xffffffff) by nia.
  lia.
Qed.

Lemma nextAvailableTag_loop_sound n t (P : gmap Z request) r :
  nextAvailableTag_loop n t P = Some r ->
  P !! r = None /\ (r = t \/ 0 <= r < 0xffffffff).
Proof.
  revert t. induction n as [| n IH]; intros t; simpl; [discriminate |].
  destruct (P !! t) eqn:Hl.
  - intros H. apply IH in H as [Hfree [-> | Hr]].
    + split; [exact Hfree | right; apply next_tag_range].
    + split; [exact Hfree | right; exact Hr].
  - intros [= <-]. split; [exact Hl | left; reflexivity].
Qed.

Lemma nextAvailableTag_loop_None n t (P : gmap Z request) :
  nextAvailableTag_loop n t P = None ->
  forall i, (i < n)%nat -> is_Some (P !! visited i t).
Proof.
  revert t. induction n as [| n IH]; intros t Hnone i Hi; [lia |].
  simpl in Hnone. destruct (P !! t) eqn:Hl; [| discriminate].
  destruct i as [| i].
  - unfold visited. simpl. rewrite Hl. eauto.
  - rewrite visited_S. apply IH; [exact Hnone | lia].
Qed.

(** Pigeonhole: [n] pairwise distinct keys need a table of size [n]. *)
Lemma visited_keys_bound n t (P : gmap Z request) :
  0 <= t < 0xffffffff -> Z.of_nat n <= 0xffffffff ->
  (forall i, (i < n)%nat -> is_Some (P !! visited i t)) ->
  (n <= size P)%nat.
Proof.
  intros Ht Hn Hkeys.
  set (l := (fun i => visited i t) <$> seq 0 n).
  assert (NoDup l) as Hnd.
  { apply NoDup_fmap_2_strong; [| apply NoDup_seq].
    intros i j Hi%elem_of_seq Hj%elem_of_seq. apply visited_inj; [exact Ht | lia | lia]. }
  assert (list_to_set l ⊆ dom P) as Hsub.
  { intros x Hx%elem_of_list_to_set.
    apply list_elem_of_fmap in Hx as (i & -> & Hi%elem_of_seq).
    apply elem_of_dom, Hkeys. lia. }
  apply subseteq_size in Hsub.
  rewrite size_list_to_set, size_dom in Hsub by exact Hnd.
  unfold l in Hsub. rewrite length_fmap, length_seq in Hsub. exact Hsub.
Qed.

Lemma nextAvailableTag_total t (P : gmap Z request) f :
  0 <= t < 0xffffffff -> 0 <= f < 0xffffffff -> P !! f = None ->
  is_Some (nextAvailableTag t P).
Proof.
  intros Ht Hf Hfree. unfold nextAvailableTag.
  destruct (nextAvailableTag_loop (S (size P)) t P) eqn:Hloop; [eauto |].
  exfalso.
  pose proof (nextAvailableTag_loop_None _ _ _ Hloop) as Hkeys.
  set (d := Z.to_nat ((f - t) mod 0xffffffff)).
  pose proof (Z.mod_pos_bound (f - t) 0xffffffff eq_refl) as Hd.
  assert (visited d t = f) as Hvis.
  { rewrite visited_low by exact Ht. unfold d.
    rewrite Z2Nat.id by lia. rewrite Zplus_mod_idemp_r.
    replace (t + (f - t)) with f by lia. apply Z.mod_small. lia. }
  destruct (Nat.lt_ge_cases d (S (size P))) as [Hlt | Hge].
  - destruct (Hkeys d Hlt) as [p Hp]. rewrite Hvis in Hp. congruence.
  - assert (S (size P) <= size P)%nat; [| lia].
    apply (visited_keys_bound _ t); [exact Ht | lia | exact Hkeys].
Qed.

(** ** The cursor and the keys of the pending table *)

Lemma nextAvailableTag_sound t (P : gmap Z request) r :
  0 <= t < 0xffffffff -> nextAvailableTag t P = Some r ->
  P !! r = None /\ 0 <= r < 0xffffffff.
Proof.
  intros Ht H. apply nextAvailableTag_loop_sound in H as [Hfree [-> | Hr]]; auto.
Qed.

Lemma deliver_Some st slot f st' :
  deliver st slot f = Some st' ->
  (slot ∉ m_gone st) /\
  m_tag st' = m_tag st /\ m_pending st' = m_pending st /\
  m_updates st' = m_updates st /\
  m_trace st' = m_trace st ++ [Delivered slot f] /\
  m_gone st' = {[slot]} ∪ m_gone st.
Proof.
  unfold deliver. case_decide; [discriminate |]. intros [= <-]. simpl. tauto.
Qed.

Lemma deliver_waiting st slot f :
  slot ∉ m_gone st ->
  deliver st slot f =
  Some {| m_tag := m_tag st; m_pending := m_pending st;
          m_updates := m_updates st;
          m_trace := m_trace st ++ [Delivered slot f];
          m_gone := {[slot]} ∪ m_gone st |}.
Proof. intros H. unfold deliver. rewrite decide_False by exact H. reflexivity. Qed.

Lemma deliver_gone st slot f : slot ∈ m_gone st -> deliver st slot f = None.
Proof. intros H. unfold deliver. rewrite decide_True by exact H. reflexivity. Qed.

Lemma handle_in_continue st f st' :
  handle_in st f = Continue st' ->
  m_tag st' = m_tag st /\
  forall k, is_Some (m_pending st' !! k) -> is_Some (m_pending st !! k).
Proof.
  unfold handle_in. cbv zeta. intros H.
  repeat (case_match; simplify_eq; simpl in * ); try (split; [reflexivity | tauto]);
    match goal with
    | Hd : deliver _ _ _ = Some _ |- _ =>
        apply deliver_Some in Hd as (_ & Ht & Hp & _); simpl in Ht, Hp
    end;
    (split; [exact Ht |]); rewrite Hp; intros k [x Hx];
    apply lookup_delete_Some in Hx as [_ Hx]; eauto.
Qed.

Lemma handle_out_continue st p werr st' :
  mux_ok st -> handle_out st p werr = Continue st' ->
  (m_tag st' = m_tag st /\ m_pending st' = m_pending st) \/
  exists r d,
    nextAvailableTag (m_tag st) (m_pending st) = Some r /\
    m_pending st !! r = None /\ 0 <= r < 0xffffffff /\
    patch_request (data p) r = Some d /\ werr = None /\
    m_tag st' = r /\
    m_pending st' = <[r := {| data := d; response := response p |}]> (m_pending st) /\
    m_trace st' = m_trace st ++ [Wrote d] /\
    m_updates st' = m_updates st.
Proof.
  intros [Htag _]. unfold handle_out. intros H.
  case_decide.
  - destruct (deliver st _ _) as [st1 |] eqn:Hd; [| discriminate].
    simplify_eq. apply deliver_Some in Hd as (_ & Ht & Hp & _). left. tauto.
  - destruct (nextAvailableTag (m_tag st) (m_pending st)) as [r |] eqn:Hr; [| discriminate].
    simpl in H.
    destruct (patch_request (data p) r) as [d |] eqn:Hd; [| discriminate].
    destruct werr.
    + destruct (deliver _ _ _); discriminate.
    + simplify_eq. simpl.
      destruct (nextAvailableTag_sound _ _ _ Htag Hr) as [Hfree Hrange].
      right. exists r, d. tauto.
Qed.

Lemma handleFrames_step_ok st ev st' :
  mux_ok st -> handleFrames_step st ev = Continue st' -> mux_ok st'.
Proof.
  intros Hok Hstep. destruct ev as [p werr | | f | | slot |]; simpl in Hstep;
    try discriminate; try (simplify_eq; exact Hok).
  - destruct (handle_out_continue _ _ _ _ Hok Hstep)
      as [[Ht Hp] | (r & d & _ & _ & Hr & _ & _ & Ht & Hp & _)].
    + destruct Hok as [H1 H2]. split; [rewrite Ht; exact H1 | rewrite Hp; exact H2].
    + split; [rewrite Ht; exact Hr |]. rewrite Hp. intros k [x Hx].
      apply lookup_insert_Some in Hx as [[<- _] | [_ Hx]]; [exact Hr |].
      apply Hok. eauto.
  - destruct (handle_in_continue _ _ _ Hstep) as [Ht Hp].
    destruct Hok as [H1 H2]. split; [rewrite Ht; exact H1 |].
    intros k Hk. apply H2, Hp, Hk.
Qed.

Lemma handleFrames_from_ok evs st st' :
  mux_ok st -> handleFrames_from st evs = Continue st' -> mux_ok st'.
Proof.
  revert st. induction evs as [| ev evs IH]; intros st Hok; simpl.
  - intros [= <-]. exact Hok.
  - destruct (handleFrames_step st ev) as [st1 | | | |] eqn:Hstep; try discriminate.
    apply IH. eapply handleFrames_step_ok; eassumption.
Qed.

Lemma mux_init_ok ups tr :
  mux_ok {| m_tag := 0; m_pending := ∅; m_updates := ups; m_trace := tr;
            m_gone := ∅ |}.
Proof.
  split; simpl; [lia |]. intros k [x Hx]. rewrite lookup_empty in Hx. discriminate.
Qed.

(** C4, as the code has it.  For every pending table and every cursor below
    the reserved value 0xFFFFFFFF, if some tag below the reserved value is
    free then [nextAvailableTag] returns, and the tag it returns is not a key
    of the table and is below the reserved value.  The frame handler starts
    its cursor at zero and only ever stores a returned tag in it, so in every
    state it reaches the cursor and all pending tags are below the reserved
    value, and the tag allocated to the next request is fresh: tags are
    unique within the pending set and 0xFFFFFFFF is never allocated. *)
Theorem tag_allocation (t : Z) (P : gmap Z request) (f : Z)
    (ups : chan unit) (evs : list event) (st : mux) :
  0 <= t < 0xffffffff ->
  0 <= f < 0xffffffff -> P !! f = None ->
  handleFrames ups ∅ [] evs = Continue st ->
  (exists r, nextAvailableTag t P = Some r /\ P !! r = None /\ 0 <= r < 0xffffffff) /\
  0 <= m_tag st < 0xffffffff /\
  m_pending st !! 0xffffffff = None /\
  (forall r, nextAvailableTag (m_tag st) (m_pending st) = Some r ->
             m_pending st !! r = None /\ 0 <= r < 0xffffffff).
Proof.
  intros Ht Hf Hfree Hrun. split.
  - destruct (nextAvailableTag_total t P f Ht Hf Hfree) as [r Hr].
    exists r. split; [exact Hr |]. exact (nextAvailableTag_sound _ _ _ Ht Hr).
  - pose proof (handleFrames_from_ok _ _ _ (mux_init_ok ups []) Hrun) as [Hcur Hkeys].
    split; [exact Hcur |]. split.
    + destruct (m_pending st !! 0xffffffff) eqn:Hl; [| reflexivity].
      assert (0 <= 0xffffffff < 0xffffffff) by (apply Hkeys; eauto). lia.
    + intros r Hr. exact (nextAvailableTag_sound _ _ _ Hcur Hr).
Qed.

Lemma tag_allocation_witness :
  let P : gmap Z request := {[ 0 := sample_request commandGetServerInfo 7 ]} in
  let evs := [OutReq (sample_request commandGetServerInfo 1) None;
              OutReq (sample_request commandGetSinkInfoList 2) None] in
  exists st,
    handleFrames (make_chan 1) ∅ [] evs = Continue st /\
    (exists r, nextAvailableTag 0 P = Some r /\ P !! r = None /\ 0 <= r < 0xffffffff) /\
    0 <= m_tag st < 0xffffffff /\
    m_pending st !! 0xffffffff = None /\
    (forall r, nextAvailableTag (m_tag st) (m_pending st) = Some r ->
               m_pending st !! r = None /\ 0 <= r < 0xffffffff).
Proof.
  intros P evs.
  destruct (handleFrames (make_chan 1) ∅ [] evs) as [st | | | |] eqn:Hrun;
    try (vm_compute in Hrun; discriminate).
  exists st. split; [reflexivity |].
  apply (tag_allocation 0 P 1 (make_chan 1) evs st);
    [lia | lia | reflexivity | exact Hrun].
Defined.

(** C4, as stated, fails at the reserved cursor: with the cursor at
    0xFFFFFFFF and that tag free, the loop returns 0xFFFFFFFF at its first
    lookup, so "for every cursor value the result is never 0xFFFFFFFF" does
    not hold of the function taken alone. *)
Lemma nextAvailableTag_reserved_cursor :
  nextAvailableTag 0xffffffff ∅ = Some 0xffffffff /\
  ~ (forall (t : Z) (P : gmap Z request) (r : Z),
       nextAvailableTag t P = Some r -> P !! r = None /\ r <> 0xffffffff).
Proof.
  assert (nextAvailableTag 0xffffffff ∅ = Some 0xffffffff) as E by reflexivity.
  split; [exact E |].
  intros H. destruct (H _ _ _ E) as [_ Hne].
  apply Hne. reflexivity.
Qed.

(** ** Runs of the frame handler *)

Lemma handleFrames_from_app st pre evs :
  handleFrames_from st (pre ++ evs) =
  match handleFrames_from st pre with
  | Continue st' => handleFrames_from st' evs
  | o => o
  end.
Proof.
  revert st. induction pre as [| ev pre IH]; intros st; simpl; [reflexivity |].
  destruct (handleFrames_step st ev); auto.
Qed.

Lemma bread_tagged_uint32_be32 v rest :
  0 <= v < uint32_mod ->
  bread_tagged_uint32 (uint32Tag :: be32 v ++ rest) = (rest, inl v).
Proof.
  intros Hv. unfold bread_tagged_uint32, bread_tag.
  rewrite decide_True by reflexivity.
  unfold bread_uint32. rewrite Uint32_be32 by exact Hv. reflexivity.
Qed.

Lemma bread_rsp_tag_inbound rsp tag payload :
  0 <= rsp < uint32_mod -> 0 <= tag < uint32_mod ->
  bread_rsp_tag (inbound_body rsp tag payload) = (payload, inl (rsp, tag)).
Proof.
  intros Hr Ht. unfold bread_rsp_tag, inbound_body.
  rewrite bread_tagged_uint32_be32 by exact Hr.
  rewrite bread_tagged_uint32_be32 by exact Ht. reflexivity.
Qed.

(** ** Teardown *)

Lemma closings_resolves (P : gmap Z request) t p :
  P !! t = Some p -> Delivered (response p) closed_frame ∈ closings (map_to_list P).
Proof.
  intros H. unfold closings. apply list_elem_of_fmap.
  exists (t, p). split; [reflexivity |]. apply elem_of_map_to_list. exact H.
Qed.

Lemma closings_only_pending (P : gmap Z request) e :
  e ∈ closings (map_to_list P) ->
  exists t p, P !! t = Some p /\ e = Delivered (response p) closed_frame.
Proof.
  unfold closings. intros ([t p] & -> & H%elem_of_map_to_list)%list_elem_of_fmap.
  exists t, p. split; [exact H | reflexivity].
Qed.

Lemma closings_length (P : gmap Z request) :
  length (closings (map_to_list P)) = size P.
Proof. unfold closings. rewrite length_fmap. apply length_map_to_list. Qed.

Lemma closings_no_close ps : ConnClosed ∉ closings ps.
Proof.
  unfold closings. intros (kp & H & _)%list_elem_of_fmap. discriminate H.
Qed.

(** The loop comes to its end when every caller on its way is waiting. *)
Lemma cleanup_waiting ps st :
  NoDup (slots ps) -> (forall slot, slot ∈ slots ps -> slot ∉ m_gone st) ->
  exists st',
    cleanup st ps = (st', true) /\
    m_trace st' = m_trace st ++ closings ps /\
    m_pending st' = m_pending st /\ m_tag st' = m_tag st /\
    m_updates st' = m_updates st.
Proof.
  revert st. induction ps as [| kp ps IH]; intros st Hnd Hw; simpl.
  - exists st. rewrite app_nil_r. tauto.
  - unfold slots in Hnd, Hw. rewrite fmap_cons in Hnd, Hw.
    apply NoDup_cons in Hnd as [Hhd Hnd].
    rewrite deliver_waiting by (apply Hw; left).
    destruct (IH {| m_tag := m_tag st; m_pending := m_pending st;
                    m_updates := m_updates st;
                    m_trace := m_trace st ++ [Delivered (response kp.2) closed_frame];
                    m_gone := {[response kp.2]} ∪ m_gone st |} Hnd)
      as (st' & Hc & Htr & Hp & Ht & Hu).
    { intros slot Hin. simpl. intros [Heq%elem_of_singleton | Hg]%elem_of_union.
      - subst slot. exact (Hhd Hin).
      - exact (Hw slot ltac:(right; exact Hin) Hg). }
    exists st'. split; [exact Hc |]. simpl in Htr, Hp, Ht, Hu.
    rewrite Htr, <- app_assoc. tauto.
Qed.

(** The loop stops for good at the first entry whose caller is gone: the
    entries it has served come before that one. *)
Lemma cleanup_gone ps st kp :
  kp ∈ ps -> response kp.2 ∈ m_gone st ->
  exists st' served,
    cleanup st ps = (st', false) /\
    m_trace st' = m_trace st ++ closings served /\
    served ⊆ ps /\ (kp ∉ served) /\
    (length served < length ps)%nat /\
    m_pending st' = m_pending st.
Proof.
  revert st. induction ps as [| kp0 ps IH]; intros st Hin Hg.
  - apply elem_of_nil in Hin. contradiction.
  - simpl. destruct (deliver st (response kp0.2) closed_frame) as [st1 |] eqn:Hd.
    + apply deliver_Some in Hd as (Hfree & _ & Hp1 & _ & Htr1 & Hg1).
      assert (kp ∈ ps) as Hin'.
      { apply elem_of_cons in Hin as [-> | Hin]; [contradiction | exact Hin]. }
      destruct (IH st1 Hin') as (st' & served & Hc & Htr & Hsub & Hnot & Hlen & Hp).
      { rewrite Hg1. apply elem_of_union_r. exact Hg. }
      exists st', (kp0 :: served). split; [exact Hc |].
      split; [rewrite Htr, Htr1, <- app_assoc; reflexivity |].
      split; [intros x [-> | Hx]%elem_of_cons; [left | right; apply Hsub, Hx] |].
      split; [| split; [simpl; lia | congruence]].
      intros [-> | Hx]%elem_of_cons; [contradiction | exact (Hnot Hx)].
    + exists st, []. rewrite app_nil_r.
      split; [reflexivity |]. split; [reflexivity |].
      split; [intros x Hx; apply elem_of_nil in Hx; contradiction |].
      split; [apply not_elem_of_nil |]. split; [simpl; lia | reflexivity].
Qed.

Lemma teardown_waiting st :
  callers_waiting st ->
  exists st',
    teardown st = (st', true) /\
    m_trace st' = m_trace st ++ closings (map_to_list (m_pending st)) ++ [ConnClosed] /\
    m_pending st' = m_pending st.
Proof.
  intros [Hnd Hw].
  destruct (cleanup_waiting _ st Hnd Hw) as (st1 & Hc & Htr & Hp & _).
  unfold teardown. rewrite Hc. eexists. split; [reflexivity |].
  unfold emit. simpl. rewrite Htr, <- app_assoc. split; [reflexivity | exact Hp].
Qed.

Lemma teardown_gone st t p :
  m_pending st !! t = Some p -> response p ∈ m_gone st ->
  exists st' served,
    teardown st = (st', false) /\
    m_trace st' = m_trace st ++ closings served /\
    (forall k q, (k, q) ∈ served -> m_pending st !! k = Some q) /\
    ((t, p) ∉ served) /\
    (length served < size (m_pending st))%nat.
Proof.
  intros Hl Hg.
  destruct (cleanup_gone (map_to_list (m_pending st)) st (t, p))
    as (st' & served & Hc & Htr & Hsub & Hnot & Hlen & _).
  { apply elem_of_map_to_list. exact Hl. }
  { exact Hg. }
  unfold teardown. rewrite Hc. exists st', served.
  split; [reflexivity |]. split; [exact Htr |].
  split; [intros k q Hin; apply elem_of_map_to_list, Hsub, Hin |].
  split; [exact Hnot |]. rewrite length_map_to_list in Hlen. exact Hlen.
Qed.


Lemma finish_waiting r st :
  callers_waiting st ->
  exists st',
    finish r st = Finished r st' /\
    m_trace st' = m_trace st ++ closings (map_to_list (m_pending st)) ++ [ConnClosed] /\
    (forall t p, m_pending st !! t = Some p ->
                 Delivered (response p) closed_frame ∈ closings (map_to_list (m_pending st))) /\
    (forall x, x ∈ closings (map_to_list (m_pending st)) ->
               exists t p, m_pending st !! t = Some p /\
                           x = Delivered (response p) closed_frame) /\
    length (closings (map_to_list (m_pending st))) = size (m_pending st).
Proof.
  intros Hw. destruct (teardown_waiting st Hw) as (st' & Ht & Htr & _).
  exists st'. unfold finish. rewrite Ht. split; [reflexivity |].
  split; [exact Htr |].
  split; [intros t p; apply closings_resolves |].
  split; [apply closings_only_pending | apply closings_length].
Qed.

Lemma finish_gone r st t p :
  m_pending st !! t = Some p -> response p ∈ m_gone st ->
  exists st' served,
    finish r st = CleanupStuck st' /\
    m_trace st' = m_trace st ++ closings served /\
    (forall k q, (k, q) ∈ served -> m_pending st !! k = Some q) /\
    ((t, p) ∉ served) /\
    (length served < size (m_pending st))%nat /\
    ConnClosed ∉ closings served.
Proof.
  intros Hl Hg.
  destruct (teardown_gone st t p Hl Hg) as (st' & served & Ht & Htr & Hs & Hn & Hlen).
  exists st', served. unfold finish. rewrite Ht.
  split; [reflexivity |]. split; [exact Htr |]. split; [exact Hs |].
  split; [exact Hn |]. split; [exact Hlen | apply closings_no_close].
Qed.

(** The state after two requests have been written: both callers are
    waiting; and the state once the second caller has left. *)
Lemma two_requests_state :
  exists st p1 p2,
    handleFrames (make_chan 1) ∅ [] two_requests = Continue st /\
    m_pending st !! 0 = Some p1 /\ response p1 = 1%nat /\
    m_pending st !! 1 = Some p2 /\ response p2 = 2%nat /\
    m_pending st !! 5 = None /\
    size (m_pending st) = 2%nat /\
    callers_waiting st.
Proof.
  eexists _, _, _. split; [vm_compute; reflexivity |].
  split; [reflexivity |]. split; [reflexivity |].
  split; [reflexivity |]. split; [reflexivity |].
  split; [reflexivity |]. split; [reflexivity |].
  split.
  - apply (bool_decide_unpack _). vm_compute. reflexivity.
  - intros slot _. apply not_elem_of_empty.
Qed.


(** ** Oversize frames *)




(** ** Replies without a waiter *)





(** ** Subscription events *)

Lemma handle_in_subscribe st payload :
  handle_in st (subscribe_event payload) =
  match try_send (m_updates st) tt with
  | None => Panic st
  | Some (ch, sent) =>
      Continue
        {| m_tag := m_tag st; m_pending := m_pending st;
           m_updates := ch;
           m_trace := m_trace st ++ [if sent then Notified else Dropped];
           m_gone := m_gone st |}
  end.
Proof.
  unfold handle_in, subscribe_event, inbound. cbn [err buff].
  rewrite bread_rsp_tag_inbound by (vm_compute; split; congruence).
  rewrite decide_True by (split; reflexivity). reflexivity.
Qed.

Lemma burst_on_full_channel payloads st :
  m_updates st = {| cap := 1; queue := [tt]; closed := false |} ->
  handleFrames_from st (InFrame <$> (subscribe_event <$> payloads)) =
  Continue
    {| m_tag := m_tag st; m_pending := m_pending st;
       m_updates := {| cap := 1; queue := [tt]; closed := false |};
       m_trace := m_trace st ++ replicate (length payloads) Dropped;
       m_gone := m_gone st |}.
Proof.
  revert st. induction payloads as [| pl payloads IH]; intros st Hfull.
  - simpl. rewrite app_nil_r. destruct st; simpl in *. subst. reflexivity.
  - simpl. rewrite handle_in_subscribe, Hfull. simpl.
    rewrite IH by reflexivity. simpl.
    rewrite <- app_assoc. reflexivity.
Qed.

(** C6.  A burst of [k >= 1] subscription events (response command
    SUBSCRIBE_EVENT, tag 0xFFFFFFFF) taken by the frame handler while the
    updates channel, as [NewClient] makes it (capacity one, empty), is not
    read: the first send is queued, the other [k - 1] take the [default]
    branch and are dropped; the handler goes on with its cursor and pending
    table untouched; one read by a consumer then leaves the channel empty. *)
Theorem subscribe_burst_coalesces (os : OS) (o : Opts) (st : mux)
    (payloads : list (list Z)) :
  m_updates st = updates (NewClient os o) ->
  (1 <= length payloads)%nat ->
  exists st',
    handleFrames_from st (InFrame <$> (subscribe_event <$> payloads)) = Continue st' /\
    cap (m_updates st') = 1%nat /\
    queue (m_updates st') = [tt] /\
    m_trace st' = m_trace st ++ Notified :: replicate (length payloads - 1) Dropped /\
    m_pending st' = m_pending st /\
    m_tag st' = m_tag st /\
    exists ch, chan_recv (m_updates st') = Some (tt, ch) /\
               queue ch = [] /\ chan_recv ch = None.
Proof.
  intros Hups Hk. destruct payloads as [| pl payloads]; [simpl in Hk; lia |].
  simpl. rewrite handle_in_subscribe, Hups. simpl.
  rewrite burst_on_full_channel by reflexivity. simpl.
  eexists. split; [reflexivity |]. simpl.
  rewrite Nat.sub_0_r, <- app_assoc. simpl.
  repeat (split; [reflexivity |]).
  eexists. repeat split; reflexivity.
Qed.

Lemma subscribe_burst_coalesces_witness :
  let os := {| Getenv := fun _ => ""%string; Getuid := 1000 |} in
  let o := {| DialTimeout := 0; RequestTimeout := 0; OptLogger := None;
              Protocol := "unix"; Addr := "/tmp/pulse.sock"; Cookie := "" |} in
  let st := {| m_tag := 0; m_pending := ∅;
               m_updates := updates (NewClient os o); m_trace := [];
               m_gone := ∅ |} in
  exists st',
    handleFrames_from st
      (InFrame <$> (subscribe_event <$> [[1; 2]; []; [3]])) = Continue st' /\
    queue (m_updates st') = [tt] /\
    m_trace st' = [Notified; Dropped; Dropped].
Proof.
  intros os o st.
  destruct (subscribe_burst_coalesces os o st [[1; 2]; []; [3]] eq_refl)
    as (st' & Hrun & _ & Hq & Htr & _); [simpl; lia |].
  exists st'. split; [exact Hrun |]. split; [exact Hq | exact Htr].
Defined.

(** ** The outgoing branch *)

Lemma patch_request_long d tag :
  (30 <= length d)%nat ->
  patch_request d tag =
  Some (be32 (uint32 (uint32 (Z.of_nat (length d)) - 20)) ++
        take 22 (drop 4 d) ++ be32 tag ++ drop 30 d).
Proof.
  intros Hlen. unfold patch_request, PutUint32.
  rewrite decide_True by lia.
  rewrite decide_True by (rewrite length_app, length_drop, be32_length; lia).
  cbn [be32 app drop take].
  rewrite decide_True by (rewrite length_drop, length_drop; lia).
  rewrite !drop_drop. simpl. reflexivity.
Qed.

Lemma patch_request_short d tag :
  (26 <= length d < 30)%nat -> patch_request d tag = None.
Proof.
  intros Hlen. unfold patch_request, PutUint32.
  rewrite decide_True by lia.
  rewrite decide_True by (rewrite length_app, length_drop, be32_length; lia).
  cbn [be32 app drop].
  rewrite decide_False by (rewrite length_drop, length_drop; lia).
  reflexivity.
Qed.

Lemma body_length_exact n :
  20 <= n < uint32_mod -> uint32 (uint32 n - 20) = n - 20.
Proof.
  intros Hn. unfold uint32, uint32_mod in *.
  rewrite (Z.mod_small n) by lia. apply Z.mod_small. lia.
Qed.

Lemma request_frame_length cmd args :
  (30 <= length (bwrite (request_prefix cmd ++ args)))%nat.
Proof.
  unfold bwrite. rewrite flat_map_app, length_app.
  assert (length (flat_map bwrite_arg (request_prefix cmd)) = 30%nat) as ->
    by reflexivity.
  lia.
Qed.

Lemma uint32_range x : 0 <= uint32 x < uint32_mod.
Proof. unfold uint32, uint32_mod. apply Z.mod_pos_bound. lia. Qed.

(** C9, as the code has it.  For every submitted request of at least 30
    bytes, in every state the frame handler reaches in which some tag below
    the reserved value is free: the handler allocates a tag that is not
    pending, overwrites bytes 0..3 with the total length minus 20 (as a
    32-bit value; exactly that difference for a request shorter than 2^32
    bytes) and bytes 26..29 with the tag, leaving every other byte as it
    was, and hands the patched bytes to the connection.  When the write
    succeeds it records the request with its patched bytes under the tag and
    goes on.  When the write fails nothing is recorded: the handler sends
    the failure to the caller's response channel and, if the caller is still
    there to take it, returns the write error; if the caller has left, the
    send blocks for good. *)
Theorem handle_out_patches (ups : chan unit) (pre : list event) (st : mux)
    (p : request) (f : Z) :
  handleFrames ups ∅ [] pre = Continue st ->
  0 <= f < 0xffffffff -> m_pending st !! f = None ->
  (30 <= length (data p))%nat ->
  let n := uint32 (uint32 (Z.of_nat (length (data p))) - 20) in
  exists tag d,
    nextAvailableTag (m_tag st) (m_pending st) = Some tag /\
    m_pending st !! tag = None /\
    0 <= tag < 0xffffffff /\
    d = be32 n ++ take 22 (drop 4 (data p)) ++ be32 tag ++ drop 30 (data p) /\
    length d = length (data p) /\
    Uint32 d = Some n /\
    (Z.of_nat (length (data p)) < uint32_mod ->
     n = Z.of_nat (length (data p)) - 20) /\
    Uint32 (drop 26 d) = Some tag /\
    handle_out st p None =
      Continue {| m_tag := tag;
                  m_pending := <[tag := {| data := d; response := response p |}]>
                                 (m_pending st);
                  m_updates := m_updates st;
                  m_trace := m_trace st ++ [Wrote d];
                  m_gone := m_gone st |} /\
    forall e,
      let told :=
        Delivered (response p)
          {| buff := None;
             err := Some (fmt_Errorf "couldn't send request: %s" [FmtErr e]) |} in
      handle_out st p (Some e) =
        if decide (response p ∈ m_gone st) then
          Blocked {| m_tag := tag; m_pending := m_pending st;
                     m_updates := m_updates st; m_trace := m_trace st;
                     m_gone := m_gone st |}
        else
          Return (Some (fmt_Errorf "could not write to connection: %w" [FmtErr e]))
            {| m_tag := tag; m_pending := m_pending st; m_updates := m_updates st;
               m_trace := m_trace st ++ [told];
               m_gone := {[response p]} ∪ m_gone st |}.
Proof.
  intros Hrun Hf Hfree Hlen n.
  pose proof (handleFrames_from_ok _ _ _ (mux_init_ok ups []) Hrun) as Hok.
  destruct (nextAvailableTag_total _ _ _ (proj1 Hok) Hf Hfree) as [tag Htag].
  destruct (nextAvailableTag_sound _ _ _ (proj1 Hok) Htag) as [Hnew Hrange].
  pose proof (patch_request_long (data p) tag Hlen) as Hpatch.
  fold n in Hpatch.
  pose proof (uint32_range (uint32 (Z.of_nat (length (data p))) - 20)) as Hn.
  fold n in Hn.
  eexists tag, _. split; [exact Htag |]. split; [exact Hnew |].
  split; [exact Hrange |]. split; [reflexivity |].
  split.
  { rewrite !length_app, !be32_length, length_take, !length_drop. lia. }
  split.
  { apply Uint32_be32. exact Hn. }
  split.
  { intros Hlt. unfold n. apply body_length_exact. lia. }
  split.
  { cbn [be32 app drop].
    rewrite drop_app_length' by (rewrite length_take, length_drop; lia).
    apply Uint32_be32. unfold uint32_mod. lia. }
  split; [| intros e told]; unfold handle_out;
    rewrite decide_False by lia; rewrite Htag; cbn zeta; rewrite Hpatch.
  - reflexivity.
  - unfold deliver. cbn [response m_gone m_tag m_pending m_updates m_trace].
    destruct (decide (response p ∈ m_gone st)); reflexivity.
Qed.

Lemma handle_out_patches_witness :
  let pre := [OutReq (sample_request commandAuth 3) None] in
  let p := sample_request commandGetServerInfo 4 in
  exists st d,
    handleFrames (make_chan 1) ∅ [] pre = Continue st /\
    d = [0; 0; 0; 10; 255; 255; 255; 255; 0; 0; 0; 0; 0; 0; 0; 0; 0; 0; 0; 0;
         76; 0; 0; 0; 20; 76; 0; 0; 0; 1] /\
    handle_out st p None =
      Continue {| m_tag := 1;
                  m_pending := <[1 := {| data := d; response := 4 |}]> (m_pending st);
                  m_updates := m_updates st;
                  m_trace := m_trace st ++ [Wrote d];
                  m_gone := m_gone st |}.
Proof.
  intros pre p.
  destruct (handleFrames (make_chan 1) ∅ [] pre) as [st | | | |] eqn:Hrun;
    try (vm_compute in Hrun; discriminate).
  assert (m_tag st = 0 /\ m_pending st !! 0 <> None /\ m_pending st !! 1 = None)
    as (Hcur & Hzero & Hone).
  { vm_compute in Hrun. injection Hrun as <-. repeat split. discriminate. }
  destruct (handle_out_patches (make_chan 1) pre st p 1 Hrun)
    as (tag & d & Htag & Hfree & _ & Hd & _ & _ & _ & _ & Hout & _);
    [lia | exact Hone | vm_compute; reflexivity |].
  assert (tag = 1) as ->.
  { unfold nextAvailableTag in Htag. rewrite Hcur in Htag.
    destruct (size (m_pending st)) as [| k].
    - simpl in Htag. destruct (m_pending st !! 0); [| contradiction].
      simpl in Htag. congruence.
    - cbn [nextAvailableTag_loop] in Htag.
      destruct (m_pending st !! 0); [| contradiction].
      change (next_tag 0) with 1 in Htag. rewrite Hone in Htag. congruence. }
  exists st, d. split; [reflexivity |].
  split; [rewrite Hd; reflexivity | exact Hout].
Defined.

(** C9, as stated, fails when the write fails: the request has passed the
    length check and has been patched, [c.conn.Write] returns an error, and
    the handler tells the caller and returns; the request is not in the
    pending table and nothing has reached the connection. *)
Lemma handle_out_write_failure :
  let st := {| m_tag := 0; m_pending := ∅; m_updates := make_chan 1;
               m_trace := []; m_gone := ∅ |} in
  let p := sample_request commandGetServerInfo 1 in
  (26 <= length (data p))%nat /\
  (exists st',
     handle_out st p (Some io_EOF) =
       Return (Some (fmt_Errorf "could not write to connection: %w" [FmtErr io_EOF]))
              st' /\
     m_pending st' = ∅ /\
     m_trace st' =
       [Delivered 1
          {| buff := None;
             err := Some (fmt_Errorf "couldn't send request: %s" [FmtErr io_EOF]) |}]) /\
  ~ (forall (st : mux) (p : request) (werr : option error),
       mux_ok st -> (26 <= length (data p))%nat ->
       exists st' tag d,
         handle_out st p werr = Continue st' /\
         m_trace st' = m_trace st ++ [Wrote d] /\
         m_pending st' !! tag = Some {| data := d; response := response p |}).
Proof.
  intros st p.
  assert (exists st',
     handle_out st p (Some io_EOF) =
       Return (Some (fmt_Errorf "could not write to connection: %w" [FmtErr io_EOF]))
              st' /\
     m_pending st' = ∅ /\
     m_trace st' =
       [Delivered 1
          {| buff := None;
             err := Some (fmt_Errorf "couldn't send request: %s" [FmtErr io_EOF]) |}])
    as E.
  { eexists. split; [vm_compute; reflexivity |]. split; reflexivity. }
  split; [vm_compute; lia |]. split; [exact E |].
  intros H. destruct E as (st1 & E & _).
  destruct (H st p (Some io_EOF) (mux_init_ok _ _)) as (st' & tag & d & Hc & _).
  { vm_compute. lia. }
  rewrite E in Hc. discriminate.
Qed.

(** The length check lets a request of 26 bytes through, and the store of
    the tag into [p.data[26:]], an empty slice, is out of range: the handler
    panics, nothing is written and nothing is recorded. *)
Lemma handle_out_26_bytes_panics :
  let st := {| m_tag := 0; m_pending := ∅; m_updates := make_chan 1;
               m_trace := []; m_gone := ∅ |} in
  let p := {| data := replicate 26 0; response := 1 |} in
  handle_out st p None = Panic st /\
  ~ (exists st', handle_out st p None = Continue st').
Proof.
  intros st p.
  assert (handle_out st p None = Panic st) as E by reflexivity.
  split; [exact E |]. intros [st' H]. rewrite E in H. discriminate.
Qed.

(** ** The handshake *)

Section Handshake.

Variable peer : list (list Z) -> list Z -> exchange.
Variable ReadFile : string -> list Z + error.
Variable identity : list (string * string).

Lemma auth_frame_length cookie :
  length (auth_frame cookie) = (40 + length cookie)%nat.
Proof.
  unfold auth_frame, bwrite. rewrite flat_map_app, length_app.
  assert (length (flat_map bwrite_arg (request_prefix commandAuth)) = 30%nat) as ->
    by reflexivity.
  cbn [flat_map bwrite_arg]. rewrite !length_app, !be32_length.
  cbn [length]. lia.
Qed.

Lemma Client_request_sent cmd args s r s' :
  Client_request peer cmd args s = (r, s') ->
  s' = s \/
  s' = {| sent := sent s ++ [bwrite (request_prefix cmd ++ args)];
          clientIndex := clientIndex s |}.
Proof.
  unfold Client_request. intros H.
  repeat (case_match; simplify_eq); auto.
Qed.

Lemma auth_submits path cookie s :
  ReadFile path = inl cookie -> length cookie = 256%nat ->
  auth peer ReadFile path s =
  match peer (sent s) (auth_frame cookie) with
  | SubmitFailed e => (Some (Some e), s)
  | ContextDone e =>
      (Some (Some e),
       {| sent := sent s ++ [auth_frame cookie]; clientIndex := clientIndex s |})
  | Answered f =>
      let s' := {| sent := sent s ++ [auth_frame cookie];
                   clientIndex := clientIndex s |} in
      match err f with
      | Some e => (Some (Some e), s')
      | None =>
          match buff f with
          | None => (None, s')
          | Some b =>
              match snd (bread_tagged_uint32 b) with
              | inr e => (Some (Some e), s')
              | inl v =>
                  if decide (Z.land v protocolVersionMask < version)
                  then (Some (Some (version_too_low (Z.land v protocolVersionMask))), s')
                  else (Some None, s')
              end
          end
      end
  end.
Proof.
  intros Hfile Hlen. unfold auth. rewrite Hfile.
  rewrite decide_False by (unfold cookieLength; lia).
  unfold bind, Client_request. fold (auth_frame cookie).
  rewrite decide_False
    by (rewrite auth_frame_length, Hlen; vm_compute; discriminate).
  destruct (peer (sent s) (auth_frame cookie)) as [e | f | e]; try reflexivity.
  destruct (err f); [reflexivity |].
  destruct (buff f) as [b |]; [| reflexivity].
  unfold read_reply_uint32, ret.
  destruct (snd (bread_tagged_uint32 b)); [| reflexivity].
  case_decide; reflexivity.
Qed.

(** C7.  When the cookie file does not hold exactly 256 bytes, [auth]
    returns the length error and the client has submitted nothing; and
    whenever a run of [auth] does submit something, the cookie has 256
    bytes and the one frame submitted is the AUTH request carrying it. *)
Theorem auth_cookie_length (path : string) (cookie : list Z) (s : client_state) :
  ReadFile path = inl cookie ->
  (length cookie <> 256%nat ->
   auth peer ReadFile path s =
     (Some (Some (fmt_Errorf
        "pulseaudio client cookie has incorrect length %d: expected %d (path %#v)"
        [FmtInt (Z.of_nat (length cookie)); FmtInt 256; FmtStr path])), s)) /\
  (sent (snd (auth peer ReadFile path s)) <> sent s ->
   length cookie = 256%nat /\
   sent (snd (auth peer ReadFile path s)) = sent s ++ [auth_frame cookie]).
Proof.
  intros Hfile. split.
  - intros Hlen. unfold auth. rewrite Hfile.
    rewrite decide_True by exact Hlen. reflexivity.
  - intros Hsent. destruct (decide (length cookie = 256%nat)) as [Hlen | Hlen].
    + split; [exact Hlen |].
      rewrite (auth_submits _ _ _ Hfile Hlen) in Hsent |- *.
      destruct (peer (sent s) (auth_frame cookie)) as [e | f | e];
        simpl in *; try congruence.
      repeat (case_match; simpl in * ); congruence.
    + exfalso. apply Hsent. unfold auth. rewrite Hfile.
      rewrite decide_True by exact Hlen. reflexivity.
Qed.

(** A missing or unreadable cookie file: the error is returned at once. *)
Lemma auth_unreadable_cookie path e s :
  ReadFile path = inr e -> auth peer ReadFile path s = (Some (Some e), s).
Proof. intros Hfile. unfold auth. rewrite Hfile. reflexivity. Qed.

(** What [auth] does with a reply, were one to reach it: with a 256-byte
    cookie and a reply that starts with a tagged [uint32] [v], it masks [v]
    with 0x0000FFFF and succeeds exactly when the masked version is at least
    32; below 32 it returns the version error. *)
Lemma auth_version_logic (path : string) (cookie : list Z)
    (v : Z) (rest : list Z) (s : client_state) :
  ReadFile path = inl cookie -> length cookie = 256%nat ->
  0 <= v < uint32_mod ->
  peer (sent s) (auth_frame cookie) = Answered (auth_reply v rest) ->
  let s' := {| sent := sent s ++ [auth_frame cookie];
               clientIndex := clientIndex s |} in
  let sv := Z.land v 0x0000FFFF in
  auth peer ReadFile path s =
    if decide (sv < 32) then (Some (Some (version_too_low sv)), s')
    else (Some None, s').
Proof.
  intros Hfile Hlen Hv Hpeer s' sv.
  rewrite (auth_submits _ _ _ Hfile Hlen), Hpeer.
  unfold auth_reply. cbv zeta. cbn [err buff].
  rewrite bread_tagged_uint32_be32 by exact Hv. reflexivity.
Qed.

End Handshake.

Lemma auth_cookie_length_witness :
  auth (auth_peer 32) (cookie_file 255) ".config/pulse/cookie" fresh_client =
    (Some (Some (fmt_Errorf
       "pulseaudio client cookie has incorrect length %d: expected %d (path %#v)"
       [FmtInt 255; FmtInt 256; FmtStr ".config/pulse/cookie"])), fresh_client).
Proof.
  exact (proj1 (auth_cookie_length (auth_peer 32) (cookie_file 255)
                  ".config/pulse/cookie" (replicate 255 0) fresh_client eq_refl)
               ltac:(vm_compute; discriminate)).
Defined.

(** [auth] while nobody serves the request channel. *)
Lemma auth_unserved submit ctx_err ReadFile path s :
  exists e s', auth (unserved submit ctx_err) ReadFile path s = (Some (Some e), s').
Proof.
  destruct (ReadFile path) as [cookie | e] eqn:Hfile.
  - destruct (decide (length cookie = 256%nat)) as [Hlen | Hlen].
    + rewrite (auth_submits _ _ _ _ _ Hfile Hlen). unfold unserved.
      destruct (submit (sent s) (auth_frame cookie)); eexists _, _; reflexivity.
    + eexists _, _. unfold auth. rewrite Hfile.
      rewrite decide_True by exact Hlen. reflexivity.
  - eexists _, _. apply auth_unreadable_cookie. exact Hfile.
Qed.

(** C8, on the code.  [connect] runs the handshake before it starts the
    receive loop and the frame handler, so the AUTH request is never written
    and its reply never read: whatever the server would answer, [connect]
    returns an error and never goes on to serve.  With a 256-byte cookie the
    error of [auth] is the one [sendRequest] returns or, when the request
    was queued, the error of the init context once its ten seconds are over;
    it is never the version error, and authentication never succeeds, which
    is where the code departs from C8. *)
Theorem handshake_unanswered
    (submit : list (list Z) -> list Z -> option error) (ctx_err : error)
    (ReadFile : string -> list Z + error) (identity : list (string * string))
    (addr path : string) (dial : option error) (s : client_state) :
  (exists e s',
     connect_handshake submit ctx_err ReadFile identity addr path dial s =
       (Some (Some e), s')) /\
  (forall cookie,
     ReadFile path = inl cookie -> length cookie = 256%nat ->
     let queued := {| sent := sent s ++ [auth_frame cookie];
                      clientIndex := clientIndex s |} in
     let e := match submit (sent s) (auth_frame cookie) with
              | Some e => e
              | None => ctx_err
              end in
     let s' := match submit (sent s) (auth_frame cookie) with
               | Some _ => s
               | None => queued
               end in
     auth (unserved submit ctx_err) ReadFile path s = (Some (Some e), s') /\
     init (unserved submit ctx_err) ReadFile identity path s =
       (Some (Some (fmt_Errorf "authentication failure: %w" [FmtErr e])), s') /\
     connect_handshake submit ctx_err ReadFile identity addr path None s =
       (Some (Some (fmt_Errorf "error during init: %w"
                      [FmtErr (fmt_Errorf "authentication failure: %w"
                                 [FmtErr e])])), s')).
Proof.
  split.
  - destruct dial as [e |]; [eexists _, _; reflexivity |].
    destruct (auth_unserved submit ctx_err ReadFile path s) as (e & s' & Hauth).
    eexists _, _. unfold connect_handshake, init, bind. rewrite Hauth. reflexivity.
  - intros cookie Hfile Hlen queued e s'.
    assert (auth (unserved submit ctx_err) ReadFile path s = (Some (Some e), s'))
      as Hauth.
    { rewrite (auth_submits _ _ _ _ _ Hfile Hlen). unfold unserved, e, s'.
      destruct (submit (sent s) (auth_frame cookie)); reflexivity. }
    split; [exact Hauth |].
    unfold connect_handshake, init, bind. rewrite Hauth. split; reflexivity.
Qed.

Lemma handshake_unanswered_witness :
  connect_handshake (fun _ _ => None) context_DeadlineExceeded (cookie_file 256) []
      "/run/user/1000/pulse/native" "cookie" None fresh_client =
    (Some (Some (fmt_Errorf "error during init: %w"
                   [FmtErr (fmt_Errorf "authentication failure: %w"
                              [FmtErr context_DeadlineExceeded])])),
     {| sent := [auth_frame (replicate 256 0)]; clientIndex := 0 |}).
Proof.
  exact (proj2 (proj2 (proj2 (handshake_unanswered (fun _ _ => None)
                  context_DeadlineExceeded (cookie_file 256) []
                  "/run/user/1000/pulse/native" "cookie" None fresh_client)
               (replicate 256 0) eq_refl eq_refl))).
Defined.

(** ** Conversions between floats and integers *)

Lemma f32_magnitude_floor m e :
  Qfloor (f32_magnitude m e) = Z.shiftl (Zpos m) e /\
  (0 < Qnum (f32_magnitude m e))%Z.
Proof.
  destruct e as [| p | p]; unfold f32_magnitude.
  - split; [rewrite Qfloor_Z; reflexivity | simpl; lia].
  - rewrite Qfloor_Z, Z.shiftl_mul_pow2 by lia. split; [reflexivity |].
    simpl. lia.
  - split; [| simpl; lia].
    change (Z.shiftl (Z.pos m) (Z.neg p)) with (Z.shiftr (Z.pos m) (Z.pos p)).
    rewrite Z.shiftr_div_pow2 by lia.
    unfold Qfloor. rewrite Pos2Z.inj_pow. reflexivity.
Qed.

Lemma f32_trunc_value f q :
  f32_value f = Some q -> f32_trunc f = Some (Qtrunc q).
Proof.
  destruct f as [s | s | | s m e]; simpl; try discriminate.
  - intros [= <-]. reflexivity.
  - intros [= <-]. f_equal.
    destruct (f32_magnitude_floor m e) as [Hfl Hpos].
    destruct (f32_magnitude m e) as [n d] eqn:Hq. simpl in Hpos.
    unfold Qtrunc, Qle_bool. destruct s; simpl.
    + replace (0 * Z.pos d <=? - n * 1) with false
        by (symmetry; apply Z.leb_gt; lia).
      unfold Qceiling. f_equal. rewrite <- Hfl.
      unfold Qopp, Qfloor. cbn [Qnum Qden]. rewrite Z.opp_involutive. reflexivity.
    + replace (0 * Z.pos d <=? n * 1) with true
        by (symmetry; apply Z.leb_le; lia).
      rewrite <- Hfl. reflexivity.
Qed.

Lemma uint32_of_float32_in_range oor f q :
  f32_value f = Some q -> 0 <= Qtrunc q < uint32_mod ->
  uint32_of_float32 oor f = Qtrunc q.
Proof.
  intros Hv Hr. unfold uint32_of_float32.
  rewrite (f32_trunc_value _ _ Hv). rewrite decide_True by exact Hr. reflexivity.
Qed.

(** ** Volume *)

Section VolumeOps.

Variable peer : list (list Z) -> list Z -> exchange.
Variable bread_Server : decoder Server.
Variable bread_Sink : decoder Sink.
Variable uint32_unrepresentable : spec_float -> Z.

Lemma set_sink_volume_frame_bytes name c :
  set_sink_volume_frame name c =
  bwrite (request_prefix commandSetSinkVolume) ++
  [uint32Tag] ++ be32 0xffffffff ++
  [stringTag] ++ bytes_of_string name ++ [0] ++
  [cvolumeTag; 1] ++ be32 c.
Proof.
  unfold set_sink_volume_frame, set_sink_volume_args, bwrite.
  rewrite flat_map_app. f_equal.
Qed.

(** C1, as the code has it.  When [ServerInfo] succeeds, for every [v],
    [SetVolume(v)] is the SET_SINK_VOLUME request whose arguments are the
    sink index 0xFFFFFFFF, the default sink name followed by a NUL byte, and
    a volume vector of one channel, the conversion [uint32(v * 0xffff)]; the
    frame spells these out after the request prefix, and it is what the
    client submits unless the submission is refused or the frame exceeds the
    size limit.  For a finite [v] whose float32 product with 0xFFFF, its
    fraction discarded towards zero, fits 32 bits, the channel is that
    truncated product (not the nearest integer). *)
Theorem SetVolume_request (v : spec_float) (s s1 : client_state) (srv : Server) :
  ServerInfo peer bread_Server s = (Some (inl srv), s1) ->
  let c := uint32_of_float32 uint32_unrepresentable (f32_mul v (f32_of_Z 0xffff)) in
  let args := [ArgByte uint32Tag; ArgUint32 0xffffffff;
               ArgByte stringTag; ArgBytes (bytes_of_string (DefaultSink srv));
               ArgByte 0; ArgCVolume [c]] in
  let b := bwrite (request_prefix commandSetSinkVolume ++ args) in
  SetVolume peer bread_Server uint32_unrepresentable v s =
    bind (Client_request peer commandSetSinkVolume args) (fun r => ret (snd r)) s1 /\
  b = bwrite (request_prefix commandSetSinkVolume) ++
      [uint32Tag] ++ be32 0xffffffff ++
      [stringTag] ++ bytes_of_string (DefaultSink srv) ++ [0] ++
      [cvolumeTag; 1] ++ be32 c /\
  (Z.of_nat (length b) <= frameSizeMaxAllow ->
   (forall e, peer (sent s1) b <> SubmitFailed e) ->
   sent (snd (SetVolume peer bread_Server uint32_unrepresentable v s)) =
     sent s1 ++ [b]) /\
  (forall q,
     f32_value (f32_mul v (f32_of_Z 0xffff)) = Some q ->
     0 <= Qtrunc q < uint32_mod ->
     c = Qtrunc q).
Proof.
  intros Hinfo c args b.
  assert (SetVolume peer bread_Server uint32_unrepresentable v s =
          bind (Client_request peer commandSetSinkVolume args)
               (fun r => ret (snd r)) s1) as Hrun.
  { unfold SetVolume, bind at 1. rewrite Hinfo.
    unfold setSinkVolume. fold c.
    unfold bind. fold args.
    destruct (Client_request peer commandSetSinkVolume args s1) as [[[r e] |] s2];
      reflexivity. }
  split; [exact Hrun |].
  split; [apply (set_sink_volume_frame_bytes (DefaultSink srv) c) |].
  split.
  - intros Hsize Hsub. rewrite Hrun. unfold bind, Client_request. fold b.
    rewrite decide_False by lia.
    destruct (peer (sent s1) b) as [e | f | e] eqn:Hp; [| reflexivity | reflexivity].
    exfalso. exact (Hsub e eq_refl).
  - intros q Hq Hr. exact (uint32_of_float32_in_range _ _ _ Hq Hr).
Qed.

End VolumeOps.

Lemma SetVolume_request_witness :
  let s1 := {| sent := [bwrite (request_prefix commandGetServerInfo)];
               clientIndex := 0 |} in
  let b := set_sink_volume_frame "X" 0x7FFF in
  f32_value (f32_mul f32_half (f32_of_Z 0xffff)) = Some (16776960 # 512) /\
  Qtrunc (16776960 # 512) = 0x7FFF /\
  uint32_of_float32 (fun _ => 0) (f32_mul f32_half (f32_of_Z 0xffff)) = 0x7FFF /\
  b = bwrite (request_prefix commandSetSinkVolume) ++
      [uint32Tag; 255; 255; 255; 255; stringTag; 88; 0; cvolumeTag; 1; 0; 0; 127; 255] /\
  sent (snd (SetVolume ok_peer (const_decoder (server_with_default "X"))
               (fun _ => 0) f32_half fresh_client)) =
    sent s1 ++ [b].
Proof.
  intros s1 b.
  assert (0 <= Qtrunc (16776960 # 512) < uint32_mod) as Hr
    by (vm_compute; split; [discriminate | reflexivity]).
  destruct (SetVolume_request ok_peer (const_decoder (server_with_default "X"))
              (fun _ => 0) f32_half fresh_client s1 (server_with_default "X")
              eq_refl) as (_ & _ & Hsent & Htrunc).
  split; [reflexivity |]. split; [reflexivity |].
  split; [exact (Htrunc (16776960 # 512) eq_refl Hr) |].
  split; [reflexivity |].
  apply Hsent; [vm_compute; discriminate | intros e; discriminate].
Defined.

(** C1, as stated, fails at v = 0.25: the product with 0xFFFF is 16383.75
    exactly, the nearest integer is 16384, and the channel that is sent is
    16383. *)
Lemma SetVolume_quarter_truncates :
  f32_value f32_quarter = Some (8388608 # 33554432) /\
  f32_value (f32_mul f32_quarter (f32_of_Z 0xffff)) = Some (16776960 # 1024) /\
  round_nearest (16776960 # 1024) = 16384 /\
  round_nearest ((8388608 # 33554432) * inject_Z 0xffff) = 16384 /\
  sent (snd (SetVolume ok_peer (const_decoder (server_with_default "X"))
               (fun _ => 0) f32_quarter fresh_client)) =
    [bwrite (request_prefix commandGetServerInfo);
     set_sink_volume_frame "X" 16383] /\
  set_sink_volume_frame "X" 16383 <> set_sink_volume_frame "X" 16384.
Proof.
  repeat split; try reflexivity. vm_compute. discriminate.
Qed.

Section VolumeQuery.

Variable peer : list (list Z) -> list Z -> exchange.
Variable bread_Server : decoder Server.
Variable bread_Sink : decoder Sink.

Lemma Volume_loop_found sinks default v :
  Volume_loop sinks default = Some (Some v) ->
  exists pre sink rest c0 cv,
    sinks = pre ++ sink :: rest /\
    Forall (fun x => Name x <> default) pre /\
    Name sink = default /\
    CVolume sink = c0 :: cv /\
    v = f32_div (f32_of_Z c0) (f32_of_Z pulseVolumeMax).
Proof.
  induction sinks as [| x sinks IH]; simpl; [discriminate |].
  case_decide as Hname.
  - intros H. destruct (IH H) as (pre & sink & rest & c0 & cv & -> & Hpre & Hrest).
    exists (x :: pre), sink, rest, c0, cv.
    split; [reflexivity |]. split; [constructor; assumption | exact Hrest].
  - destruct (CVolume x) as [| c0 cv] eqn:Hcv; [discriminate |].
    intros [= <-]. exists [], x, sinks, c0, cv.
    split; [reflexivity |]. split; [constructor |].
    split; [| split; [exact Hcv | reflexivity]].
    destruct (decide (Name x = default)); [assumption | contradiction].
Qed.

(** C10.  When [ServerInfo] succeeds: if [Sinks] returns an error, that
    error is dropped and [Volume] returns zero with the "Sink not found"
    error naming the default sink; and whenever [Volume] returns a value
    without an error, [Sinks] returned a list in which the first sink named
    like the default sink has a first channel [c0], and the value is
    [float32(c0) / 0xFFFF]. *)
Theorem Volume_result (s s1 : client_state) (srv : Server) :
  ServerInfo peer bread_Server s = (Some (inl srv), s1) ->
  (forall e s2,
     Sinks peer bread_Sink s1 = (Some (inr e), s2) ->
     Volume peer bread_Server bread_Sink s =
       (Some (S754_zero false,
              Some (fmt_Errorf
                      "PulseAudio error: couldn't query volume - Sink %s not found"
                      [FmtStr (DefaultSink srv)])), s2)) /\
  (forall v s2,
     Volume peer bread_Server bread_Sink s = (Some (v, None), s2) ->
     exists sinks pre sink rest c0 cv,
       Sinks peer bread_Sink s1 = (Some (inl sinks), s2) /\
       sinks = pre ++ sink :: rest /\
       Forall (fun x => Name x <> DefaultSink srv) pre /\
       Name sink = DefaultSink srv /\
       CVolume sink = c0 :: cv /\
       v = f32_div (f32_of_Z c0) (f32_of_Z 0xffff)).
Proof.
  intros Hinfo. split.
  - intros e s2 Hsinks. unfold Volume, bind. rewrite Hinfo, Hsinks. reflexivity.
  - intros v s2. unfold Volume, bind. rewrite Hinfo.
    destruct (Sinks peer bread_Sink s1) as [[[sinks | e] |] s3] eqn:Hsinks;
      simpl; try discriminate.
    destruct (Volume_loop sinks (DefaultSink srv)) as [[v' |] |] eqn:Hloop;
      unfold ret, crash; intros H; try discriminate.
    injection H as <- <-.
    destruct (Volume_loop_found _ _ _ Hloop)
      as (pre & sink & rest & c0 & cv & H1 & H2 & H3 & H4 & H5).
    exists sinks, pre, sink, rest, c0, cv. repeat split; assumption.
Qed.

End VolumeQuery.

Lemma Volume_result_witness :
  let s2 := {| sent := [bwrite (request_prefix commandGetServerInfo);
                        bwrite (request_prefix commandGetSinkInfoList)];
               clientIndex := 0 |} in
  Sinks first_only_peer (const_decoder (sink_named "X" [0x7FFF]))
    {| sent := [bwrite (request_prefix commandGetServerInfo)]; clientIndex := 0 |} =
    (Some (inr (PulseError commandGetSinkInfoList 1)), s2) /\
  Volume first_only_peer (const_decoder (server_with_default "X"))
    (const_decoder (sink_named "X" [0x7FFF])) fresh_client =
    (Some (S754_zero false,
           Some (fmt_Errorf "PulseAudio error: couldn't query volume - Sink %s not found"
                   [FmtStr "X"])), s2).
Proof.
  intros s2. split; [reflexivity |].
  exact (proj1 (Volume_result first_only_peer (const_decoder (server_with_default "X"))
                  (const_decoder (sink_named "X" [0x7FFF])) fresh_client
                  {| sent := [bwrite (request_prefix commandGetServerInfo)];
                     clientIndex := 0 |}
                  (server_with_default "X") eq_refl)
               (PulseError commandGetSinkInfoList 1) s2 eq_refl).
Defined.

(** ** Configuration *)

(** The dial target [NewClient] arrives at: the environment's
    [PULSE_SERVER] and the default scheme play no part in it. *)
Lemma NewClient_dial_target os o :
  dial_target (NewClient os o) =
  let addr := if decide (Addr o = ""%string) then defaultAddr os else Addr o in
  if HasPrefix addr "unix://" then ("unix"%string, TrimPrefix addr "unix://")
  else (Protocol o, addr).
Proof.
  unfold dial_target, NewClient. cbv zeta.
  repeat (case_decide || case_match); simpl in *; congruence.
Qed.

(** C2 at a failing input: no explicit address, [PULSE_SERVER] set to
    [unix:///tmp/pulse.sock].  The merge of the defaults into the options is
    called on a copy and changes nothing, so the client dials the per-user
    socket with an empty scheme, where the precedence asks for the unix
    socket named by the environment. *)
Theorem NewClient_ignores_PULSE_SERVER :
  let os := env_with_server "unix:///tmp/pulse.sock" in
  dial_target (NewClient os zero_opts) = (""%string, "/run/user/1000/pulse/native"%string) /\
  dial_target_spec os zero_opts = ("unix"%string, "/tmp/pulse.sock"%string) /\
  (forall server, dial_target (NewClient (env_with_server server) zero_opts) =
                  dial_target (NewClient os zero_opts)).
Proof.
  split; [vm_compute; reflexivity |]. split; [vm_compute; reflexivity |].
  intros server. rewrite !NewClient_dial_target. reflexivity.
Qed.

(** * Further properties of the code *)

(** ** Steps of the frame handler *)

Lemma patch_request_Some d tag d' :
  patch_request d tag = Some d' -> (30 <= length d)%nat /\ d' = patched d tag.
Proof.
  intros H. destruct (Nat.lt_ge_cases (length d) 30) as [Hlt | Hge].
  - exfalso. destruct (Nat.lt_ge_cases (length d) 26) as [Hlt' | Hge'].
    + unfold patch_request, PutUint32 in H.
      case_decide; [| discriminate].
      rewrite decide_False in H; [discriminate |].
      rewrite length_app, length_drop, be32_length. lia.
    + rewrite patch_request_short in H by lia. discriminate.
  - rewrite patch_request_long in H by exact Hge.
    split; [exact Hge |]. injection H as <-. reflexivity.
Qed.

Lemma patched_length d tag :
  (30 <= length d)%nat -> length (patched d tag) = length d.
Proof.
  intros H. unfold patched.
  rewrite !length_app, !be32_length, length_take, !length_drop. lia.
Qed.

Lemma patched_body_length d tag :
  Uint32 (patched d tag) = Some (uint32 (uint32 (Z.of_nat (length d)) - 20)).
Proof. unfold patched. apply Uint32_be32, uint32_range. Qed.

Lemma patched_tag d tag :
  (30 <= length d)%nat -> 0 <= tag < uint32_mod ->
  Uint32 (drop 26 (patched d tag)) = Some tag.
Proof.
  intros Hlen Ht. unfold patched. cbn [be32 app drop].
  rewrite drop_app_length' by (rewrite length_take, length_drop; lia).
  apply Uint32_be32. exact Ht.
Qed.

Lemma handle_out_cases st p werr st' :
  handle_out st p werr = Continue st' ->
  ((length (data p) < 26)%nat /\
   deliver st (response p)
     {| buff := None;
        err := Some (fmt_Errorf "request too short; minimum is 26 bytes" []) |}
   = Some st') \/
  (exists tag,
     (30 <= length (data p))%nat /\ werr = None /\
     nextAvailableTag (m_tag st) (m_pending st) = Some tag /\
     st' = {| m_tag := tag;
              m_pending := <[tag := {| data := patched (data p) tag;
                                       response := response p |}]> (m_pending st);
              m_updates := m_updates st;
              m_trace := m_trace st ++ [Wrote (patched (data p) tag)];
              m_gone := m_gone st |}).
Proof.
  unfold handle_out. intros H.
  case_decide as Hshort.
  { left. split; [exact Hshort |].
    destruct (deliver st _ _); [congruence | discriminate]. }
  destruct (nextAvailableTag (m_tag st) (m_pending st)) as [tag |] eqn:Htag;
    [| discriminate].
  cbn zeta in H.
  destruct (patch_request (data p) tag) as [d |] eqn:Hd; [| discriminate].
  apply patch_request_Some in Hd as [Hlen ->].
  destruct werr; [destruct (deliver _ _ _); discriminate |]. injection H as <-.
  right. exists tag. split; [exact Hlen |]. split; [reflexivity |].
  split; reflexivity.
Qed.

Lemma handle_out_written st p tag :
  nextAvailableTag (m_tag st) (m_pending st) = Some tag ->
  (30 <= length (data p))%nat ->
  handle_out st p None =
  Continue {| m_tag := tag;
              m_pending := <[tag := {| data := patched (data p) tag;
                                       response := response p |}]> (m_pending st);
              m_updates := m_updates st;
              m_trace := m_trace st ++ [Wrote (patched (data p) tag)];
              m_gone := m_gone st |}.
Proof.
  intros Htag Hlen. unfold handle_out.
  rewrite decide_False by lia. rewrite Htag. cbn zeta.
  rewrite patch_request_long by exact Hlen. reflexivity.
Qed.

(** The frame handler on a frame whose tag is pending: the entry leaves the
    table, then the frame for the caller is sent. *)
Lemma handle_in_pending st rsp tag payload p :
  0 <= rsp < uint32_mod -> 0 <= tag < uint32_mod ->
  ~ (rsp = commandSubscribeEvent /\ tag = 0xffffffff) ->
  m_pending st !! tag = Some p ->
  handle_in st (inbound rsp tag payload) =
  let st' := {| m_tag := m_tag st; m_pending := delete tag (m_pending st);
                m_updates := m_updates st; m_trace := m_trace st;
                m_gone := m_gone st |} in
  let send f :=
    match deliver st' (response p) f with
    | Some st'' => Continue st''
    | None => Blocked st'
    end in
  if decide (rsp = commandError) then
    match Uint32 (drop 21 (data p)) with
    | None => Panic st'
    | Some cmd =>
        send {| buff := Some (fst (bread_tagged_uint32 payload));
                err := Some (PulseError cmd
                               match snd (bread_tagged_uint32 payload) with
                               | inl code => code
                               | inr _ => 0
                               end) |}
    end
  else if decide (rsp = commandReply) then
    send {| buff := Some payload; err := None |}
  else
    send {| buff := None;
            err := Some (fmt_Errorf "expected reply (2) or error (0) but got: %s"
                           [FmtInt rsp]) |}.
Proof.
  intros Hr Ht Hns Hp. unfold handle_in, inbound. cbn [err buff].
  rewrite bread_rsp_tag_inbound by assumption.
  rewrite decide_False by exact Hns. rewrite Hp. cbv zeta.
  case_decide; [| reflexivity].
  destruct (bread_tagged_uint32 payload) as [b [code | e]]; reflexivity.
Qed.

(** The send that ends a step on a pending entry, in its two cases. *)
Lemma send_waiting st slot f :
  slot ∉ m_gone st ->
  match deliver st slot f with
  | Some st'' => Continue st''
  | None => Blocked st
  end =
  Continue {| m_tag := m_tag st; m_pending := m_pending st;
              m_updates := m_updates st;
              m_trace := m_trace st ++ [Delivered slot f];
              m_gone := {[slot]} ∪ m_gone st |}.
Proof. intros H. rewrite deliver_waiting by exact H. reflexivity. Qed.

Lemma send_gone st slot f :
  slot ∈ m_gone st ->
  match deliver st slot f with
  | Some st'' => Continue st''
  | None => Blocked st
  end = Blocked st.
Proof. intros H. rewrite deliver_gone by exact H. reflexivity. Qed.

(** X1.  A REPLY frame whose tag is pending.  While the caller of the
    request filed under that tag is still waiting, the rest of the body goes
    to its response channel, without an error; that entry and no other
    leaves the table; the cursor, the updates channel and the connection are
    untouched and the handler goes on.  When the caller has left, the entry
    leaves the table all the same and the send blocks the handler for
    good. *)
Theorem reply_delivered (st : mux) (tag : Z) (payload : list Z) (p : request) :
  0 <= tag < uint32_mod ->
  m_pending st !! tag = Some p ->
  (response p ∉ m_gone st ->
   exists st',
     handle_in st (inbound commandReply tag payload) = Continue st' /\
     m_trace st' = m_trace st ++
                   [Delivered (response p) {| buff := Some payload; err := None |}] /\
     m_pending st' !! tag = None /\
     (forall t, t <> tag -> m_pending st' !! t = m_pending st !! t) /\
     m_tag st' = m_tag st /\ m_updates st' = m_updates st /\
     m_gone st' = {[response p]} ∪ m_gone st) /\
  (response p ∈ m_gone st ->
   exists st',
     handle_in st (inbound commandReply tag payload) = Blocked st' /\
     m_trace st' = m_trace st /\
     m_pending st' = delete tag (m_pending st)).
Proof.
  intros Ht Hp.
  assert (handle_in st (inbound commandReply tag payload) =
          let st' := {| m_tag := m_tag st; m_pending := delete tag (m_pending st);
                        m_updates := m_updates st; m_trace := m_trace st;
                        m_gone := m_gone st |} in
          match deliver st' (response p) {| buff := Some payload; err := None |} with
          | Some st'' => Continue st''
          | None => Blocked st'
          end) as Hstep.
  { rewrite (handle_in_pending st commandReply tag payload p);
      [| vm_compute; split; congruence | exact Ht | | exact Hp].
    - cbv zeta. rewrite decide_False by discriminate.
      rewrite decide_True by reflexivity. reflexivity.
    - intros [Hs _]. discriminate Hs. }
  cbv zeta in Hstep. split; intros Hw.
  - rewrite send_waiting in Hstep by exact Hw. eexists. split; [exact Hstep |].
    cbn. split; [reflexivity |]. split; [apply lookup_delete_eq |].
    split; [| repeat split; reflexivity].
    intros t Hne. apply lookup_delete_ne. congruence.
  - rewrite send_gone in Hstep by exact Hw. eexists. split; [exact Hstep |].
    split; reflexivity.
Qed.

Lemma reply_delivered_witness :
  exists st st',
    handleFrames (make_chan 1) ∅ [] two_requests = Continue st /\
    handle_in st (inbound commandReply 1 [uint32Tag; 0; 0; 0; 7]) = Continue st' /\
    m_trace st' = m_trace st ++
      [Delivered 2 {| buff := Some [uint32Tag; 0; 0; 0; 7]; err := None |}] /\
    m_pending st' !! 1 = None /\
    m_pending st' !! 0 = m_pending st !! 0.
Proof.
  destruct (handleFrames (make_chan 1) ∅ [] two_requests) as [st | | | |] eqn:Hrun;
    try (vm_compute in Hrun; discriminate).
  assert (exists p, m_pending st !! 1 = Some p /\ response p = 2%nat /\
                    response p ∉ m_gone st) as (p & Hp & Hr & Hw).
  { vm_compute in Hrun. injection Hrun as <-. eexists.
    split; [reflexivity |]. split; [reflexivity |]. apply not_elem_of_empty. }
  assert (0 <= 1 < uint32_mod) as Ht by (vm_compute; split; [discriminate | reflexivity]).
  destruct (proj1 (reply_delivered st 1 [uint32Tag; 0; 0; 0; 7] p Ht Hp) Hw)
    as (st' & Hstep & Htr & Hgone & Hother & _).
  exists st, st'. split; [reflexivity |]. split; [exact Hstep |].
  split; [rewrite Htr, Hr; reflexivity |]. split; [exact Hgone |].
  apply Hother. discriminate.
Defined.

(** ** A request and its answer *)

Lemma request_frame_unfold cmd args :
  request_frame cmd args =
  be32 0 ++ be32 0xffffffff ++ be32 0 ++ be32 0 ++ be32 0 ++
  [uint32Tag] ++ be32 (uint32 cmd) ++ [uint32Tag] ++ be32 0 ++ bwrite args.
Proof. unfold request_frame, bwrite. rewrite flat_map_app. reflexivity. Qed.

Lemma request_frame_long cmd args : (30 <= length (request_frame cmd args))%nat.
Proof.
  rewrite request_frame_unfold. rewrite !length_app, !be32_length. simpl. lia.
Qed.

Lemma patched_request_frame_command cmd args tag :
  drop 21 (patched (request_frame cmd args) tag) =
  be32 (uint32 cmd) ++ [uint32Tag] ++ be32 tag ++ bwrite args.
Proof. unfold patched. rewrite request_frame_unfold. reflexivity. Qed.

(** X2.  An ERROR frame names the command of the request it answers.  A
    frame built by [Client.request] for a command is submitted and written
    under the tag the handler allocates; when the ERROR frame for that tag
    arrives with a tagged code while the caller is still waiting, the
    caller's response channel receives the error carrying the command of
    the request, read back from offset 21 of the stored bytes, and that
    code, together with the rest of the body; the pending table is as it was
    before the request. *)
Theorem error_names_command (st : mux) (cmd : Z) (args : list arg) (slot : nat)
    (f code : Z) (rest : list Z) :
  mux_ok st ->
  0 <= f < 0xffffffff -> m_pending st !! f = None ->
  0 <= code < uint32_mod ->
  slot ∉ m_gone st ->
  exists tag,
    nextAvailableTag (m_tag st) (m_pending st) = Some tag /\
    handleFrames_from st
      [OutReq {| data := request_frame cmd args; response := slot |} None;
       InFrame (inbound commandError tag (uint32Tag :: be32 code ++ rest))] =
    Continue
      {| m_tag := tag; m_pending := m_pending st; m_updates := m_updates st;
         m_trace := m_trace st ++
           [Wrote (patched (request_frame cmd args) tag);
            Delivered slot {| buff := Some rest;
                              err := Some (PulseError (uint32 cmd) code) |}];
         m_gone := {[slot]} ∪ m_gone st |}.
Proof.
  intros Hok Hf Hfree Hcode Hw.
  destruct (nextAvailableTag_total _ _ _ (proj1 Hok) Hf Hfree) as [tag Htag].
  destruct (nextAvailableTag_sound _ _ _ (proj1 Hok) Htag) as [Hnew Hrange].
  exists tag. split; [exact Htag |].
  cbn [handleFrames_from handleFrames_step].
  rewrite (handle_out_written _ _ tag Htag) by apply request_frame_long.
  cbn [data response].
  erewrite handle_in_pending;
    [| vm_compute; split; congruence | unfold uint32_mod; lia
     | intros [Hs _]; discriminate Hs
     | cbn [m_pending]; apply lookup_insert_eq].
  cbv zeta. rewrite decide_True by reflexivity.
  cbn [data response m_pending m_tag m_updates m_trace m_gone].
  rewrite patched_request_frame_command, Uint32_be32 by apply uint32_range.
  rewrite bread_tagged_uint32_be32 by exact Hcode.
  rewrite send_waiting by exact Hw.
  cbn [fst snd m_pending m_tag m_updates m_trace m_gone].
  rewrite delete_insert_id by exact Hnew.
  rewrite <- app_assoc. reflexivity.
Qed.

Lemma error_names_command_witness :
  handleFrames (make_chan 1) ∅ []
    [OutReq {| data := request_frame commandSetSinkVolume
                         (set_sink_volume_args "X" 0x7FFF);
               response := 5 |} None;
     InFrame (inbound commandError 0 (uint32Tag :: be32 5 ++ []))] =
  Continue
    {| m_tag := 0; m_pending := ∅; m_updates := make_chan 1;
       m_trace :=
         [Wrote (patched (request_frame commandSetSinkVolume
                            (set_sink_volume_args "X" 0x7FFF)) 0);
          Delivered 5 {| buff := Some [];
                         err := Some (PulseError commandSetSinkVolume 5) |}];
       m_gone := {[5%nat]} ∪ ∅ |}.
Proof.
  assert (0 <= 5 < uint32_mod) as Hc by (vm_compute; split; [discriminate | reflexivity]).
  destruct (error_names_command
              {| m_tag := 0; m_pending := ∅; m_updates := make_chan 1; m_trace := [];
                 m_gone := ∅ |}
              commandSetSinkVolume (set_sink_volume_args "X" 0x7FFF) 5%nat 0 5 []
              (mux_init_ok _ _) ltac:(lia) eq_refl Hc (not_elem_of_empty _))
    as (tag & Htag & Hrun).
  assert (tag = 0) as -> by (vm_compute in Htag; congruence).
  exact Hrun.
Defined.

(** X3.  Submitting a request and receiving its reply leaves the pending
    table as it was: the request is written with the allocated tag, filed
    under it, answered by the REPLY frame for that tag, whose body goes to
    the response channel of the caller, who is still waiting, and removed
    again. *)
Theorem submit_reply_round_trip (st : mux) (p : request) (f : Z) (payload : list Z) :
  mux_ok st ->
  0 <= f < 0xffffffff -> m_pending st !! f = None ->
  (30 <= length (data p))%nat ->
  response p ∉ m_gone st ->
  exists tag,
    nextAvailableTag (m_tag st) (m_pending st) = Some tag /\
    m_pending st !! tag = None /\
    handleFrames_from st [OutReq p None; InFrame (inbound commandReply tag payload)] =
    Continue
      {| m_tag := tag; m_pending := m_pending st; m_updates := m_updates st;
         m_trace := m_trace st ++
           [Wrote (patched (data p) tag);
            Delivered (response p) {| buff := Some payload; err := None |}];
         m_gone := {[response p]} ∪ m_gone st |}.
Proof.
  intros Hok Hf Hfree Hlen Hw.
  destruct (nextAvailableTag_total _ _ _ (proj1 Hok) Hf Hfree) as [tag Htag].
  destruct (nextAvailableTag_sound _ _ _ (proj1 Hok) Htag) as [Hnew Hrange].
  exists tag. split; [exact Htag |]. split; [exact Hnew |].
  cbn [handleFrames_from handleFrames_step].
  rewrite (handle_out_written _ _ tag Htag) by exact Hlen.
  erewrite handle_in_pending;
    [| vm_compute; split; congruence | unfold uint32_mod; lia
     | intros [Hs _]; discriminate Hs
     | cbn [m_pending]; apply lookup_insert_eq].
  cbv zeta. rewrite decide_False by discriminate.
  rewrite decide_True by reflexivity.
  cbn [data response m_pending m_tag m_updates m_trace m_gone].
  rewrite send_waiting by exact Hw.
  cbn [m_pending m_tag m_updates m_trace m_gone].
  rewrite delete_insert_id by exact Hnew.
  rewrite <- app_assoc. reflexivity.
Qed.

Lemma submit_reply_round_trip_witness :
  exists st,
    handleFrames (make_chan 1) ∅ [] two_requests = Continue st /\
    handleFrames_from st
      [OutReq (sample_request commandSubscribe 9) None;
       InFrame (inbound commandReply 2 [])] =
    Continue
      {| m_tag := 2; m_pending := m_pending st; m_updates := m_updates st;
         m_trace := m_trace st ++
           [Wrote (patched (data (sample_request commandSubscribe 9)) 2);
            Delivered 9 {| buff := Some []; err := None |}];
         m_gone := {[9%nat]} ∪ m_gone st |}.
Proof.
  destruct (handleFrames (make_chan 1) ∅ [] two_requests) as [st | | | |] eqn:Hrun;
    try (vm_compute in Hrun; discriminate).
  exists st. split; [reflexivity |].
  pose proof (handleFrames_from_ok _ _ _ (mux_init_ok _ _) Hrun) as Hok.
  assert (m_pending st !! 2 = None /\ m_gone st = ∅) as [Hfree Hgone]
    by (vm_compute in Hrun; injection Hrun as <-; split; reflexivity).
  destruct (submit_reply_round_trip st (sample_request commandSubscribe 9) 2 []
              Hok ltac:(lia) Hfree ltac:(vm_compute; lia))
    as (tag & Htag & _ & Hgo).
  { rewrite Hgone. apply not_elem_of_empty. }
  assert (tag = 2) as ->
    by (vm_compute in Hrun; injection Hrun as <-; vm_compute in Htag; congruence).
  exact Hgo.
Defined.

(** X4.  A frame for a pending tag whose response command is neither REPLY
    nor ERROR does not tear the connection down: the caller, when still
    waiting, receives the "expected reply or error" error, the entry leaves
    the table, and the handler goes on. *)
Theorem unexpected_response (st : mux) (rsp tag : Z) (payload : list Z) (p : request) :
  0 <= rsp < uint32_mod -> 0 <= tag < uint32_mod ->
  rsp <> commandReply -> rsp <> commandError ->
  ~ (rsp = commandSubscribeEvent /\ tag = 0xffffffff) ->
  m_pending st !! tag = Some p ->
  response p ∉ m_gone st ->
  handle_in st (inbound rsp tag payload) =
  Continue
    {| m_tag := m_tag st; m_pending := delete tag (m_pending st);
       m_updates := m_updates st;
       m_trace := m_trace st ++
         [Delivered (response p)
            {| buff := None;
               err := Some (fmt_Errorf "expected reply (2) or error (0) but got: %s"
                              [FmtInt rsp]) |}];
       m_gone := {[response p]} ∪ m_gone st |}.
Proof.
  intros Hr Ht Hnr Hne Hns Hp Hw.
  rewrite (handle_in_pending st rsp tag payload p Hr Ht Hns Hp). cbv zeta.
  rewrite !decide_False by assumption.
  rewrite send_waiting by exact Hw. reflexivity.
Qed.

Lemma unexpected_response_witness :
  exists st,
    handleFrames (make_chan 1) ∅ [] two_requests = Continue st /\
    handle_in st (inbound commandSubscribeEvent 1 []) =
    Continue
      {| m_tag := m_tag st; m_pending := delete 1 (m_pending st);
         m_updates := m_updates st;
         m_trace := m_trace st ++
           [Delivered 2
              {| buff := None;
                 err := Some (fmt_Errorf "expected reply (2) or error (0) but got: %s"
                                [FmtInt commandSubscribeEvent]) |}];
         m_gone := {[2%nat]} ∪ m_gone st |}.
Proof.
  destruct (handleFrames (make_chan 1) ∅ [] two_requests) as [st | | | |] eqn:Hrun;
    try (vm_compute in Hrun; discriminate).
  assert (exists p, m_pending st !! 1 = Some p /\ response p = 2%nat /\
                    response p ∉ m_gone st) as (p & Hp & Hr & Hw).
  { vm_compute in Hrun. injection Hrun as <-. eexists.
    split; [reflexivity |]. split; [reflexivity |]. apply not_elem_of_empty. }
  exists st. split; [reflexivity |]. rewrite <- Hr.
  apply unexpected_response; try exact Hp; try exact Hw; try discriminate.
  - vm_compute. split; [discriminate | reflexivity].
  - vm_compute. split; [discriminate | reflexivity].
  - intros [_ H]. discriminate H.
Defined.

(** X5.  Replies are matched by tag, not by order: with two requests
    pending whose callers are both still waiting, a reply to the second
    followed by a reply to the first gives each caller the body of its own
    reply and empties both entries. *)
Theorem out_of_order_replies (st : mux) (t1 t2 : Z) (p1 p2 : request)
    (b1 b2 : list Z) :
  0 <= t1 < uint32_mod -> 0 <= t2 < uint32_mod -> t1 <> t2 ->
  m_pending st !! t1 = Some p1 -> m_pending st !! t2 = Some p2 ->
  response p1 ∉ m_gone st -> response p2 ∉ m_gone st ->
  response p1 <> response p2 ->
  handleFrames_from st
    [InFrame (inbound commandReply t2 b2); InFrame (inbound commandReply t1 b1)] =
  Continue
    {| m_tag := m_tag st;
       m_pending := delete t1 (delete t2 (m_pending st));
       m_updates := m_updates st;
       m_trace := m_trace st ++
         [Delivered (response p2) {| buff := Some b2; err := None |};
          Delivered (response p1) {| buff := Some b1; err := None |}];
       m_gone := {[response p1]} ∪ ({[response p2]} ∪ m_gone st) |}.
Proof.
  intros H1 H2 Hne Hp1 Hp2 Hw1 Hw2 Hslots.
  assert (forall s t b q, 0 <= t < uint32_mod -> m_pending s !! t = Some q ->
            response q ∉ m_gone s ->
            handle_in s (inbound commandReply t b) =
            Continue {| m_tag := m_tag s; m_pending := delete t (m_pending s);
                        m_updates := m_updates s;
                        m_trace := m_trace s ++
                          [Delivered (response q) {| buff := Some b; err := None |}];
                        m_gone := {[response q]} ∪ m_gone s |})
    as Hstep.
  { intros s t b q Ht Hq Hw.
    rewrite (handle_in_pending s commandReply t b q);
      [| vm_compute; split; congruence | exact Ht
       | intros [Hs _]; discriminate Hs | exact Hq].
    cbv zeta. rewrite decide_False by discriminate.
    rewrite decide_True by reflexivity.
    rewrite send_waiting by exact Hw. reflexivity. }
  cbn [handleFrames_from handleFrames_step].
  rewrite (Hstep st t2 b2 p2 H2 Hp2 Hw2).
  rewrite (Hstep _ t1 b1 p1 H1).
  - cbn [m_tag m_pending m_updates m_trace m_gone]. rewrite <- app_assoc. reflexivity.
  - cbn [m_pending]. rewrite lookup_delete_ne by congruence. exact Hp1.
  - cbn [m_gone]. intros [Heq%elem_of_singleton | Hg]%elem_of_union;
      [exact (Hslots Heq) | exact (Hw1 Hg)].
Qed.

Lemma out_of_order_replies_witness :
  exists st,
    handleFrames (make_chan 1) ∅ [] two_requests = Continue st /\
    handleFrames_from st
      [InFrame (inbound commandReply 1 [2]); InFrame (inbound commandReply 0 [1])] =
    Continue
      {| m_tag := m_tag st;
         m_pending := delete 0 (delete 1 (m_pending st));
         m_updates := m_updates st;
         m_trace := m_trace st ++
           [Delivered 2 {| buff := Some [2]; err := None |};
            Delivered 1 {| buff := Some [1]; err := None |}];
         m_gone := {[1%nat]} ∪ ({[2%nat]} ∪ m_gone st) |}.
Proof.
  destruct (handleFrames (make_chan 1) ∅ [] two_requests) as [st | | | |] eqn:Hrun;
    try (vm_compute in Hrun; discriminate).
  assert (exists p1 p2, m_pending st !! 0 = Some p1 /\ response p1 = 1%nat /\
                        m_pending st !! 1 = Some p2 /\ response p2 = 2%nat /\
                        m_gone st = ∅)
    as (p1 & p2 & H1 & R1 & H2 & R2 & Hgone).
  { vm_compute in Hrun. injection Hrun as <-.
    eexists _, _. repeat split; reflexivity. }
  exists st. split; [reflexivity |].
  assert (0 <= 0 < uint32_mod) as Ht0 by (vm_compute; split; [discriminate | reflexivity]).
  assert (0 <= 1 < uint32_mod) as Ht1 by (vm_compute; split; [discriminate | reflexivity]).
  assert (response p1 ∉ m_gone st) as Hw1 by (rewrite Hgone; apply not_elem_of_empty).
  assert (response p2 ∉ m_gone st) as Hw2 by (rewrite Hgone; apply not_elem_of_empty).
  assert (response p1 <> response p2) as Hne by (rewrite R1, R2; discriminate).
  pose proof (out_of_order_replies st 0 1 p1 p2 [1] [2] Ht0 Ht1 ltac:(discriminate)
                H1 H2 Hw1 Hw2 Hne) as Hgo.
  rewrite R1, R2 in Hgo. exact Hgo.
Defined.

(** X6.  When either channel of the handler is found closed, the handler
    returns without error.  When the callers of the pending requests are all
    still waiting, the deferred calls of [connect] send the "client closed"
    frame to every request still pending, to those only, and close the
    connection, and [connect] returns without error.  When the caller of
    some pending request has left, the deferred loop blocks for good: that
    request is not resolved and the connection is not closed. *)
Theorem closed_channel_teardown (ups : chan unit) (pre post : list event)
    (ev : event) (st : mux) :
  ev = OutClosed \/ ev = InClosed ->
  handleFrames ups ∅ [] pre = Continue st ->
  handleFrames ups ∅ [] (pre ++ [ev]) = Return None st /\
  (callers_waiting st ->
   exists st',
     connect_serve ups (pre ++ ev :: post) = Finished (inl None) st' /\
     m_trace st' =
       m_trace st ++ closings (map_to_list (m_pending st)) ++ [ConnClosed] /\
     (forall t p, m_pending st !! t = Some p ->
                  Delivered (response p) closed_frame
                    ∈ closings (map_to_list (m_pending st))) /\
     (forall x, x ∈ closings (map_to_list (m_pending st)) ->
                exists t p, m_pending st !! t = Some p /\
                            x = Delivered (response p) closed_frame) /\
     length (closings (map_to_list (m_pending st))) = size (m_pending st)) /\
  (forall t p,
     m_pending st !! t = Some p -> response p ∈ m_gone st ->
     exists st' served,
       connect_serve ups (pre ++ ev :: post) = CleanupStuck st' /\
       m_trace st' = m_trace st ++ closings served /\
       (forall k q, (k, q) ∈ served -> m_pending st !! k = Some q) /\
       ((t, p) ∉ served) /\
       (length served < size (m_pending st))%nat /\
       ConnClosed ∉ closings served).
Proof.
  intros Hev Hpre.
  assert (handleFrames ups ∅ [] (pre ++ [ev]) = Return None st /\
          connect_serve ups (pre ++ ev :: post) = finish (inl None) st) as [Hh Hc].
  { unfold connect_serve, handleFrames in *.
    rewrite !handleFrames_from_app, Hpre. destruct Hev as [-> | ->]; split; reflexivity. }
  split; [exact Hh |]. rewrite Hc. split.
  - apply finish_waiting.
  - intros t p. apply finish_gone.
Qed.

Lemma closed_channel_teardown_witness :
  exists st st',
    handleFrames (make_chan 1) ∅ [] two_requests = Continue st /\
    connect_serve (make_chan 1) (two_requests ++ OutClosed :: []) =
      Finished (inl None) st' /\
    m_trace st' =
      m_trace st ++ closings (map_to_list (m_pending st)) ++ [ConnClosed] /\
    length (closings (map_to_list (m_pending st))) = 2%nat.
Proof.
  destruct two_requests_state as (st & p1 & p2 & Hrun & _ & _ & _ & _ & _ & Hsize & Hw).
  destruct (closed_channel_teardown (make_chan 1) two_requests [] OutClosed st
              (or_introl eq_refl) Hrun) as (_ & Hgood & _).
  destruct (Hgood Hw) as (st' & Hconn & Htr & _ & _ & Hlen).
  exists st, st'. split; [exact Hrun |]. split; [exact Hconn |].
  split; [exact Htr |]. rewrite Hlen. exact Hsize.
Defined.

(** ** What the handler keeps true of the connection and the table *)

Lemma handle_in_effects st f st' :
  handle_in st f = Continue st' ->
  (forall k p, m_pending st' !! k = Some p -> m_pending st !! k = Some p) /\
  exists es, m_trace st' = m_trace st ++ es /\ Forall (fun e => ~ is_Wrote e) es.
Proof.
  unfold handle_in. cbv zeta. intros H.
  repeat (case_match; simplify_eq);
    try match goal with
        | Hd : deliver _ _ _ = Some _ |- _ =>
            apply deliver_Some in Hd as (_ & _ & Hp & _ & Htr & _);
            cbn [m_pending m_trace] in Hp, Htr; rewrite Hp, Htr
        end;
    cbn [m_pending m_trace];
    (split;
     [ intros k q Hq; try exact Hq;
       apply lookup_delete_Some in Hq as [_ Hq]; exact Hq
     | eexists; split; [reflexivity |];
       apply Forall_cons; split; [simpl; tauto | apply Forall_nil_2] ]).
Qed.

Lemma handleFrames_step_inv st ev st' :
  mux_ok st -> written_ok st -> pending_ok st ->
  handleFrames_step st ev = Continue st' ->
  written_ok st' /\ pending_ok st'.
Proof.
  intros Hok Hw Hp Hstep.
  destruct ev as [p werr | | f | | slot |]; simpl in Hstep; try discriminate;
    try (simplify_eq; split; assumption).
  - destruct (handle_out_cases _ _ _ _ Hstep)
      as [[_ Hd] | (tag & Hlen & _ & Htag & ->)].
    + apply deliver_Some in Hd as (_ & _ & Hpe & _ & Htr & _). split.
      * intros d Hd. rewrite Htr in Hd.
        apply elem_of_app in Hd as [Hd | Hd]; [exact (Hw d Hd) |].
        apply list_elem_of_singleton in Hd. discriminate.
      * intros t q Hq. rewrite Hpe in Hq. destruct (Hp t q Hq) as (H1 & H2 & H3).
        repeat split; try assumption. rewrite Htr.
        apply elem_of_app. left. exact H3.
    + destruct (nextAvailableTag_sound _ _ _ (proj1 Hok) Htag) as [_ Hrange].
      split.
      * intros d Hd. cbn [m_trace] in Hd.
        apply elem_of_app in Hd as [Hd | Hd]; [exact (Hw d Hd) |].
        apply list_elem_of_singleton in Hd. injection Hd as ->.
        rewrite patched_length by exact Hlen. split; [exact Hlen |].
        apply patched_body_length.
      * intros t q Hq. cbn [m_pending m_trace] in *.
        apply lookup_insert_Some in Hq as [[<- <-] | [_ Hq]].
        -- cbn [data]. rewrite patched_length by exact Hlen.
           split; [exact Hlen |]. split.
           ++ apply patched_tag; [exact Hlen | unfold uint32_mod; lia].
           ++ apply elem_of_app. right. apply list_elem_of_singleton. reflexivity.
        -- destruct (Hp t q Hq) as (H1 & H2 & H3).
           repeat split; try assumption. apply elem_of_app. left. exact H3.
  - destruct (handle_in_effects _ _ _ Hstep) as [Hsub (es & Htr & Hes)].
    split.
    + intros d Hd. rewrite Htr in Hd.
      apply elem_of_app in Hd as [Hd | Hd]; [exact (Hw d Hd) |].
      exfalso. rewrite Forall_forall in Hes. exact (Hes _ Hd I).
    + intros t q Hq. destruct (Hp t q (Hsub t q Hq)) as (H1 & H2 & H3).
      repeat split; try assumption. rewrite Htr. apply elem_of_app. left. exact H3.
Qed.

Lemma handleFrames_from_inv evs st st' :
  mux_ok st -> written_ok st -> pending_ok st ->
  handleFrames_from st evs = Continue st' ->
  written_ok st' /\ pending_ok st'.
Proof.
  revert st. induction evs as [| ev evs IH]; intros st Hok Hw Hp; simpl.
  - intros [= <-]. split; assumption.
  - destruct (handleFrames_step st ev) as [st1 | | | |] eqn:Hstep; try discriminate.
    destruct (handleFrames_step_inv _ _ _ Hok Hw Hp Hstep) as [Hw1 Hp1].
    apply IH; [eapply handleFrames_step_ok; eassumption | exact Hw1 | exact Hp1].
Qed.

Lemma init_inv ups :
  let st := {| m_tag := 0; m_pending := ∅; m_updates := ups; m_trace := [];
               m_gone := ∅ |} in
  written_ok st /\ pending_ok st.
Proof.
  split.
  - intros d Hd. simpl in Hd. apply elem_of_nil in Hd. contradiction.
  - intros t p Hp. simpl in Hp. rewrite lookup_empty in Hp. discriminate.
Qed.

(** X7.  Whatever requests are submitted, every frame the handler has
    written to the connection has at least thirty bytes and holds, in its
    first four bytes, its own length minus twenty (as a 32-bit value): a
    request below thirty bytes never reaches the connection. *)
Theorem written_frames_wellformed (ups : chan unit) (evs : list event)
    (st : mux) (d : list Z) :
  handleFrames ups ∅ [] evs = Continue st ->
  Wrote d ∈ m_trace st ->
  (30 <= length d)%nat /\
  Uint32 d = Some (uint32 (uint32 (Z.of_nat (length d)) - 20)) /\
  (Z.of_nat (length d) < uint32_mod -> Uint32 d = Some (Z.of_nat (length d) - 20)).
Proof.
  intros Hrun Hd.
  destruct (init_inv ups) as [Hw0 Hp0].
  destruct (handleFrames_from_inv _ _ _ (mux_init_ok ups []) Hw0 Hp0 Hrun) as [Hw _].
  destruct (Hw d Hd) as [Hlen Hu]. split; [exact Hlen |]. split; [exact Hu |].
  intros Hlt. rewrite Hu. f_equal. apply body_length_exact. lia.
Qed.

Lemma written_frames_wellformed_witness :
  exists st d,
    handleFrames (make_chan 1) ∅ []
      (OutReq {| data := [1; 2; 3]; response := 8 |} None :: two_requests) = Continue st /\
    Wrote d ∈ m_trace st /\ length d = 30%nat /\ Uint32 d = Some 10.
Proof.
  destruct (handleFrames (make_chan 1) ∅ []
              (OutReq {| data := [1; 2; 3]; response := 8 |} None :: two_requests))
    as [st | | | |] eqn:Hrun; try (vm_compute in Hrun; discriminate).
  assert (exists d, Wrote d ∈ m_trace st /\ length d = 30%nat) as (d & Hd & Hlen).
  { vm_compute in Hrun. injection Hrun as <-. eexists. split.
    - cbn [m_trace]. apply list_elem_of_In. right. left. reflexivity.
    - reflexivity. }
  destruct (written_frames_wellformed _ _ st d Hrun Hd) as (_ & _ & Hu).
  exists st, d. split; [reflexivity |]. split; [exact Hd |]. split; [exact Hlen |].
  rewrite Hu by (rewrite Hlen; vm_compute; reflexivity).
  rewrite Hlen. reflexivity.
Defined.

(** X8.  Every entry of the pending table holds the bytes that were written
    to the connection for it, at least thirty of them, with the tag it is
    filed under at offset 26; so the command of a pending request can always
    be read back from offset 21. *)
Theorem pending_entries_carry_their_tag (ups : chan unit) (evs : list event)
    (st : mux) (t : Z) (p : request) :
  handleFrames ups ∅ [] evs = Continue st ->
  m_pending st !! t = Some p ->
  (30 <= length (data p))%nat /\
  Uint32 (drop 26 (data p)) = Some t /\
  Wrote (data p) ∈ m_trace st /\
  is_Some (Uint32 (drop 21 (data p))).
Proof.
  intros Hrun Hp.
  destruct (init_inv ups) as [Hw0 Hp0].
  destruct (handleFrames_from_inv _ _ _ (mux_init_ok ups []) Hw0 Hp0 Hrun) as [_ Hpe].
  destruct (Hpe t p Hp) as (Hlen & Htag & Hwr).
  repeat split; try assumption.
  assert (4 <= length (drop 21 (data p)))%nat as H4 by (rewrite length_drop; lia).
  destruct (drop 21 (data p)) as [| a [| b [| c [| e l]]]]; simpl in H4; try lia.
  simpl. eauto.
Qed.

Lemma pending_entries_carry_their_tag_witness :
  exists st p,
    handleFrames (make_chan 1) ∅ [] two_requests = Continue st /\
    m_pending st !! 1 = Some p /\
    Uint32 (drop 26 (data p)) = Some 1 /\
    Wrote (data p) ∈ m_trace st.
Proof.
  destruct (handleFrames (make_chan 1) ∅ [] two_requests) as [st | | | |] eqn:Hrun;
    try (vm_compute in Hrun; discriminate).
  assert (exists p, m_pending st !! 1 = Some p) as [p Hp].
  { vm_compute in Hrun. injection Hrun as <-. eexists. reflexivity. }
  destruct (pending_entries_carry_their_tag _ _ st 1 p Hrun Hp) as (_ & Ht & Hw & _).
  exists st, p. split; [reflexivity |]. split; [exact Hp |]. split; assumption.
Defined.

(** ** What the handler never does *)

Lemma nextAvailableTag_not_full t (P : gmap Z request) :
  0 <= t < 0xffffffff -> Z.of_nat (size P) < 0xffffffff ->
  is_Some (nextAvailableTag t P).
Proof.
  intros Ht Hsize. unfold nextAvailableTag.
  destruct (nextAvailableTag_loop (S (size P)) t P) eqn:Hloop; [eauto |].
  exfalso.
  pose proof (nextAvailableTag_loop_None _ _ _ Hloop) as Hkeys.
  assert (S (size P) <= size P)%nat; [| lia].
  apply (visited_keys_bound _ t); [exact Ht | lia | exact Hkeys].
Qed.

Lemma waiters_ok_delivered st evs tag p tr :
  waiters_ok st evs -> m_pending st !! tag = Some p ->
  waiters_ok {| m_tag := m_tag st; m_pending := delete tag (m_pending st);
                m_updates := m_updates st; m_trace := tr;
                m_gone := {[response p]} ∪ m_gone st |} evs.
Proof.
  intros (Hc & Hpend & Hinj & Hfresh & Hnd) Hp.
  split; [exact Hc |]. cbn [m_pending m_gone]. split; [| split; [| split]].
  - intros t q [Hne Hq]%lookup_delete_Some.
    destruct (Hpend t q Hq) as [Hg Hs]. split; [| exact Hs].
    intros [Heq%elem_of_singleton | Hin]%elem_of_union; [| exact (Hg Hin)].
    exact (Hinj t tag q p ltac:(congruence) Hq Hp Heq).
  - intros t1 t2 p1 p2 Hne [_ H1]%lookup_delete_Some [_ H2]%lookup_delete_Some.
    exact (Hinj t1 t2 p1 p2 Hne H1 H2).
  - intros slot Hs [Heq%elem_of_singleton | Hin]%elem_of_union.
    + subst slot. exact (proj2 (Hpend tag p Hp) Hs).
    + exact (Hfresh slot Hs Hin).
  - exact Hnd.
Qed.

Lemma handle_in_safe st f evs :
  pending_ok st -> waiters_ok st evs -> (err f = None -> buff f <> None) ->
  match handle_in st f with
  | Continue st1 => waiters_ok st1 evs
  | Return _ _ => True
  | _ => False
  end.
Proof.
  intros Hp Hw Hb. unfold handle_in.
  destruct (err f); [exact I |].
  destruct (buff f) as [b |]; [| exact (Hb eq_refl eq_refl)].
  destruct (bread_rsp_tag b) as [b' [[rsp tag] | e]]; [| exact I].
  case_decide.
  { destruct Hw as (Hc & Hrest). unfold try_send. rewrite Hc.
    case_decide; (split; [| exact Hrest]); [reflexivity | exact Hc]. }
  destruct (m_pending st !! tag) as [p |] eqn:Hl; [| exact I].
  cbv zeta.
  assert (response p ∉ m_gone st) as Hfree by exact (proj1 (proj1 (proj2 Hw) tag p Hl)).
  assert (forall fr,
            match
              match deliver {| m_tag := m_tag st; m_pending := delete tag (m_pending st);
                               m_updates := m_updates st; m_trace := m_trace st;
                               m_gone := m_gone st |} (response p) fr with
              | Some st' => Continue st'
              | None => Blocked {| m_tag := m_tag st;
                                   m_pending := delete tag (m_pending st);
                                   m_updates := m_updates st; m_trace := m_trace st;
                                   m_gone := m_gone st |}
              end
            with
            | Continue st1 => waiters_ok st1 evs
            | Return _ _ => True
            | _ => False
            end) as Hsend.
  { intros fr. rewrite deliver_waiting by exact Hfree.
    cbn [m_tag m_pending m_updates m_trace m_gone].
    apply (waiters_ok_delivered st evs tag p _ Hw Hl). }
  case_decide; [| case_decide; apply Hsend].
  destruct (Hp tag p Hl) as (Hlen & _ & _).
  assert (4 <= length (drop 21 (data p)))%nat as H4 by (rewrite length_drop; lia).
  destruct (bread_tagged_uint32 b') as [b'' [code | e]];
    destruct (drop 21 (data p)) as [| a [| x [| c [| y l]]]]; simpl in H4; try lia;
    apply Hsend.
Qed.

Lemma handle_out_safe st p werr evs :
  mux_ok st -> waiters_ok st (OutReq p werr :: evs) ->
  Z.of_nat (size (m_pending st)) < 0xffffffff ->
  ~ (26 <= length (data p) < 30)%nat ->
  match handle_out st p werr with
  | Continue st1 => waiters_ok st1 evs
  | Return _ _ => True
  | _ => False
  end.
Proof.
  intros Hok (Hc & Hpend & Hinj & Hfresh & Hnd) Hsize Hlen.
  cbn [request_slots flat_map app] in Hpend, Hfresh, Hnd.
  fold (request_slots evs) in Hpend, Hfresh, Hnd.
  apply NoDup_cons in Hnd as [Hhead Hnd].
  assert (response p ∉ m_gone st) as Hfree by (apply Hfresh; left).
  unfold handle_out. case_decide as Hshort.
  - rewrite deliver_waiting by exact Hfree.
    split; [exact Hc |]. cbn [m_pending m_gone]. split; [| split; [| split]].
    + intros t q Hq. destruct (Hpend t q Hq) as [Hg Hs]. split.
      * intros [Heq%elem_of_singleton | Hin]%elem_of_union; [| exact (Hg Hin)].
        apply Hs. rewrite Heq. left.
      * intros Hin. apply Hs. right. exact Hin.
    + exact Hinj.
    + intros slot Hs [Heq%elem_of_singleton | Hin]%elem_of_union.
      * subst slot. exact (Hhead Hs).
      * exact (Hfresh slot ltac:(right; exact Hs) Hin).
    + exact Hnd.
  - destruct (nextAvailableTag_not_full (m_tag st) (m_pending st) (proj1 Hok) Hsize)
      as [tag Htag].
    rewrite Htag. cbn zeta.
    rewrite patch_request_long by lia.
    destruct werr as [e |].
    + cbn [response]. rewrite deliver_waiting by exact Hfree. exact I.
    + split; [exact Hc |]. cbn [m_pending m_gone]. split; [| split; [| split]].
      * intros t q [[<- <-] | [_ Hq]]%lookup_insert_Some.
        -- cbn [response]. split; [exact Hfree | exact Hhead].
        -- destruct (Hpend t q Hq) as [Hg Hs]. split; [exact Hg |].
           intros Hin. apply Hs. right. exact Hin.
      * intros t1 t2 p1 p2 Hne [[<- <-] | [_ H1]]%lookup_insert_Some
                               [[<- <-] | [_ H2]]%lookup_insert_Some.
        -- congruence.
        -- cbn [response]. intros Heq.
           apply (proj2 (Hpend t2 p2 H2)). rewrite <- Heq. left.
        -- cbn [response]. intros Heq.
           apply (proj2 (Hpend t1 p1 H1)). rewrite Heq. left.
        -- exact (Hinj t1 t2 p1 p2 Hne H1 H2).
      * intros slot Hs. apply Hfresh. right. exact Hs.
      * exact Hnd.
Qed.

Lemma handleFrames_from_safe evs st :
  mux_ok st -> written_ok st -> pending_ok st -> waiters_ok st evs ->
  Z.of_nat (size (m_pending st)) + Z.of_nat (length evs) < 0xffffffff ->
  (forall p w, OutReq p w ∈ evs -> ~ (26 <= length (data p) < 30)%nat) ->
  (forall f, InFrame f ∈ evs -> err f = None -> buff f <> None) ->
  (forall ev, ev ∈ evs -> undisturbed ev) ->
  match handleFrames_from st evs with
  | Continue _ | Return _ _ => True
  | _ => False
  end.
Proof.
  revert st. induction evs as [| ev evs IH];
    intros st Hok Hw Hp Hwait Hsize Hout Hin Hquiet; [exact I |].
  cbn [handleFrames_from].
  assert (match handleFrames_step st ev with
          | Continue st1 => waiters_ok st1 evs
          | Return _ _ => True
          | _ => False
          end) as Hstep_safe.
  { destruct ev as [p werr | | f | | slot |]; cbn [handleFrames_step];
      try exact I.
    - apply handle_out_safe; [exact Hok | exact Hwait | simpl in Hsize; lia |].
      apply (Hout p werr). left.
    - apply handle_in_safe; [exact Hp | exact Hwait |]. apply Hin. left.
    - exfalso. exact (Hquiet (CallerLeft slot) ltac:(left)).
    - exfalso. exact (Hquiet ClientClose ltac:(left)). }
  destruct (handleFrames_step st ev) as [st1 | e st1 | st1 | st1 | st1] eqn:Hstep;
    try exact Hstep_safe; try exact I.
  destruct (handleFrames_step_inv _ _ _ Hok Hw Hp Hstep) as [Hw1 Hp1].
  apply IH; try assumption.
  - eapply handleFrames_step_ok; eassumption.
  - assert (size (m_pending st1) <= S (size (m_pending st)))%nat;
      [| simpl in Hsize; lia].
    destruct ev as [p werr | | f | | slot |]; simpl in Hstep; try discriminate;
      try (simplify_eq; simpl; lia).
    + destruct (handle_out_cases _ _ _ _ Hstep) as [[_ Hd] | (tag & _ & _ & _ & ->)].
      * apply deliver_Some in Hd as (_ & _ & -> & _). lia.
      * cbn [m_pending]. rewrite map_size_insert.
        destruct (m_pending st !! tag); simpl; lia.
    + destruct (handle_in_effects _ _ _ Hstep) as [Hsub _].
      assert (m_pending st1 ⊆ m_pending st) as Hss
        by (apply map_subseteq_spec; exact Hsub).
      apply map_subseteq_size in Hss. lia.
  - intros p w Hel. apply (Hout p w). right. exact Hel.
  - intros f Hel. apply (Hin f). right. exact Hel.
  - intros ev' Hel. apply Hquiet. right. exact Hel.
Qed.

(** X9.  While its surroundings leave it alone, the handler neither
    panics, nor loops in the tag search, nor blocks in a send.  Provided
    that the updates channel is open and [Close] is not called, that every
    submitted request has a response channel of its own and no caller
    leaves, that no submitted request has 26 to 29 bytes, that every inbound
    frame without an error carries a buffer (as every frame of the receiver
    does), and that fewer than 2^32 - 1 events have fired: after any such
    sequence of events the handler is waiting in the [select] or has
    returned. *)
Theorem handler_never_panics (ups : chan unit) (evs : list event) :
  closed ups = false ->
  Z.of_nat (length evs) < 0xffffffff ->
  (forall p w, OutReq p w ∈ evs -> ~ (26 <= length (data p) < 30)%nat) ->
  (forall f, InFrame f ∈ evs -> err f = None -> buff f <> None) ->
  NoDup (request_slots evs) ->
  (forall ev, ev ∈ evs -> undisturbed ev) ->
  (exists st, handleFrames ups ∅ [] evs = Continue st) \/
  (exists e st, handleFrames ups ∅ [] evs = Return e st).
Proof.
  intros Hopen Hlen Hout Hin Hnd Hquiet.
  destruct (init_inv ups) as [Hw0 Hp0].
  pose proof (handleFrames_from_safe evs _ (mux_init_ok ups []) Hw0 Hp0) as Hsafe.
  unfold handleFrames.
  destruct (handleFrames_from _ evs) as [st | e st | st | st | st] eqn:Hrun;
    [left; eauto | right; eauto | exfalso | exfalso | exfalso];
    apply Hsafe; try assumption;
    try (simpl; rewrite map_size_empty; lia);
    (split; [exact Hopen |]; cbn [m_pending m_gone];
     split; [intros t p Hl; rewrite lookup_empty in Hl; discriminate |];
     split; [intros t1 t2 p1 p2 _ Hl; rewrite lookup_empty in Hl; discriminate |];
     split; [intros slot _; apply not_elem_of_empty | exact Hnd]).
Qed.

Lemma handler_never_panics_witness :
  (exists st, handleFrames (make_chan 1) ∅ []
                (two_requests ++ [InFrame (inbound commandReply 0 [])]) = Continue st) \/
  (exists e st, handleFrames (make_chan 1) ∅ []
                  (two_requests ++ [InFrame (inbound commandReply 0 [])]) = Return e st).
Proof.
  apply handler_never_panics.
  - reflexivity.
  - vm_compute. reflexivity.
  - intros p w Hel. apply list_elem_of_In in Hel.
    simpl in Hel. destruct Hel as [H | [H | [H | []]]]; try discriminate;
      injection H as <- _; vm_compute; lia.
  - intros f Hel. apply list_elem_of_In in Hel.
    simpl in Hel. destruct Hel as [H | [H | [H | []]]]; try discriminate.
    injection H as <-. discriminate.
  - apply (bool_decide_unpack _). vm_compute. reflexivity.
  - intros ev Hel. apply list_elem_of_In in Hel.
    simpl in Hel. destruct Hel as [<- | [<- | [<- | []]]]; exact I.
Defined.

(** X10.  [nextAvailableTag] returns the first free tag on the cursor's
    path: for a cursor [t] below the reserved value, the result is
    [(t + k) mod 0xFFFFFFFF] for some [k] not above the size of the table,
    and the [k] tags before it on the path, from [t] on and wrapping from
    0xFFFFFFFE to 0, are all pending. *)
Theorem nextAvailableTag_first_free (t : Z) (P : gmap Z request) (r : Z) :
  0 <= t < 0xffffffff ->
  nextAvailableTag t P = Some r ->
  exists k : nat,
    (k <= size P)%nat /\
    r = (t + Z.of_nat k) mod 0xffffffff /\
    P !! r = None /\
    forall i : nat, (i < k)%nat -> is_Some (P !! ((t + Z.of_nat i) mod 0xffffffff)).
Proof.
  intros Ht. unfold nextAvailableTag.
  assert (forall n t0 r0, 0 <= t0 < 0xffffffff ->
            nextAvailableTag_loop n t0 P = Some r0 ->
            exists k : nat, (k < n)%nat /\ r0 = visited k t0 /\ P !! r0 = None /\
              forall i, (i < k)%nat -> is_Some (P !! visited i t0)) as Hgen.
  { induction n as [| n IH]; intros t0 r0 Ht0; simpl; [discriminate |].
    destruct (P !! t0) eqn:Hl.
    - intros H. destruct (IH _ _ (next_tag_range t0) H) as (k & Hk & -> & Hfree & Hbefore).
      exists (S k). split; [lia |]. split; [symmetry; apply visited_S |].
      split; [exact Hfree |].
      intros [| i] Hi; [unfold visited; simpl; rewrite Hl; eauto |].
      rewrite visited_S. apply Hbefore. lia.
    - intros [= <-]. exists 0%nat. split; [lia |]. split; [reflexivity |].
      split; [exact Hl |]. intros i Hi. lia. }
  intros H. destruct (Hgen _ _ _ Ht H) as (k & Hk & -> & Hfree & Hbefore).
  exists k. split; [lia |]. split; [apply visited_low; exact Ht |].
  split; [exact Hfree |].
  intros i Hi. rewrite <- visited_low by exact Ht. apply Hbefore. exact Hi.
Qed.

Lemma nextAvailableTag_first_free_witness :
  let P : gmap Z request :=
    <[0xfffffffe := sample_request commandAuth 1]>
      {[ 0 := sample_request commandAuth 2 ]} in
  nextAvailableTag 0xfffffffe P = Some 1 /\
  exists k : nat,
    (k <= size P)%nat /\
    1 = (0xfffffffe + Z.of_nat k) mod 0xffffffff /\
    P !! 1 = None /\
    forall i : nat, (i < k)%nat ->
      is_Some (P !! ((0xfffffffe + Z.of_nat i) mod 0xffffffff)).
Proof.
  intros P.
  assert (nextAvailableTag 0xfffffffe P = Some 1) as E by (vm_compute; reflexivity).
  split; [exact E |].
  exact (nextAvailableTag_first_free 0xfffffffe P 1 ltac:(lia) E).
Defined.

(** ** The receiver *)

Lemma CopyN_enough conn n :
  (Z.to_nat n <= length conn)%nat ->
  CopyN conn n = (take (Z.to_nat n) conn, drop (Z.to_nat n) conn, None).
Proof. intros H. unfold CopyN. rewrite decide_True by exact H. reflexivity. Qed.

Lemma CopyN_short conn n :
  (length conn < Z.to_nat n)%nat -> CopyN conn n = (conn, [], Some io_EOF).
Proof. intros H. unfold CopyN. rewrite decide_False by lia. reflexivity. Qed.

Lemma Uint32_take4 conn :
  (4 <= length conn)%nat -> is_Some (Uint32 (take 4 conn)).
Proof.
  intros H. destruct conn as [| a [| b [| c [| d l]]]]; simpl in H; try lia.
  simpl. eauto.
Qed.

(** One turn of the receiver's loop, by cases on what the connection holds. *)
Lemma receive_loop_turn turns conn :
  receive_loop (S turns) conn =
  if decide (length conn < 4)%nat then
    [ {| buff := Some conn;
         err := Some (fmt_Errorf "could not read header from connection: %w"
                        [FmtErr io_EOF]) |} ]
  else
    match Uint32 (take 4 conn) with
    | None => []
    | Some n =>
        if decide (n > frameSizeMaxAllow) then
          [ {| buff := Some (take 4 conn);
               err := Some (fmt_Errorf "response size %d is too long (only %d allowed)"
                              [FmtInt n; FmtInt frameSizeMaxAllow]) |} ]
        else if decide (length (drop 4 conn) < Z.to_nat (n + 16))%nat then
          [ {| buff := Some (take 4 conn ++ drop 4 conn);
               err := Some (fmt_Errorf "could not read data from connection: %w"
                              [FmtErr io_EOF]) |} ]
        else
          {| buff := Some (drop 20 (take 4 conn ++
                                    take (Z.to_nat (n + 16)) (drop 4 conn)));
             err := None |}
            :: receive_loop turns (drop (Z.to_nat (n + 16)) (drop 4 conn))
    end.
Proof.
  cbn [receive_loop]. case_decide as H4.
  - rewrite CopyN_short by (simpl; lia). reflexivity.
  - rewrite CopyN_enough by (simpl; lia).
    change (Z.to_nat 4) with 4%nat.
    destruct (Uint32 (take 4 conn)) as [n |]; [| reflexivity].
    case_decide; [reflexivity |].
    case_decide as Hb.
    + rewrite CopyN_short by exact Hb. reflexivity.
    + rewrite CopyN_enough by lia. reflexivity.
Qed.

Lemma receive_loop_fuel a b conn :
  (length conn < a)%nat -> (length conn < b)%nat ->
  receive_loop a conn = receive_loop b conn.
Proof.
  revert b conn. induction a as [| a IH]; intros b conn Ha Hb; [lia |].
  destruct b as [| b]; [lia |].
  rewrite !receive_loop_turn.
  case_decide as H4; [reflexivity |].
  destruct (Uint32 (take 4 conn)) as [n |]; [| reflexivity].
  case_decide; [reflexivity |]. case_decide; [reflexivity |].
  f_equal. apply IH; rewrite !length_drop; lia.
Qed.

(** X11.  A complete frame on the connection (a length prefix [n] of at
    most 16 MiB, the sixteen further header bytes, [n] body bytes) is handed
    on as its body, the twenty header bytes skipped and no error set, and
    the receiver goes on with the bytes that follow. *)
Theorem receive_complete_frame (n : Z) (hdr body rest : list Z) :
  0 <= n <= frameSizeMaxAllow ->
  length hdr = 16%nat ->
  Z.of_nat (length body) = n ->
  receive (be32 n ++ hdr ++ body ++ rest) =
  {| buff := Some body; err := None |} :: receive rest.
Proof.
  intros Hn Hhdr Hbody. unfold receive.
  rewrite receive_loop_turn.
  rewrite decide_False by (rewrite length_app, be32_length; lia).
  change (take 4 (be32 n ++ hdr ++ body ++ rest)) with (be32 n).
  change (drop 4 (be32 n ++ hdr ++ body ++ rest)) with (hdr ++ body ++ rest).
  pose proof (Uint32_be32 n [] ltac:(unfold uint32_mod, frameSizeMaxAllow in *; lia))
    as Hu.
  rewrite app_nil_r in Hu. rewrite Hu.
  rewrite decide_False by lia.
  assert (Z.to_nat (n + 16) = length (hdr ++ body)) as Hlen
    by (rewrite length_app; lia).
  rewrite decide_False by (rewrite Hlen, !length_app; lia).
  rewrite (app_assoc hdr body rest), Hlen.
  rewrite take_app_length, drop_app_length.
  f_equal.
  - f_equal. f_equal. cbn [be32 app drop].
    apply drop_app_length'. symmetry. exact Hhdr.
  - apply receive_loop_fuel; rewrite ?length_app, ?be32_length; lia.
Qed.

Lemma receive_complete_frame_witness :
  receive (be32 3 ++ replicate 16 255 ++ [7; 8; 9] ++ [0; 0]) =
  [ {| buff := Some [7; 8; 9]; err := None |};
    {| buff := Some [0; 0];
       err := Some (fmt_Errorf "could not read header from connection: %w"
                      [FmtErr io_EOF]) |} ].
Proof.
  rewrite (receive_complete_frame 3 (replicate 16 255) [7; 8; 9] [0; 0]);
    [reflexivity | vm_compute; split; discriminate | reflexivity | reflexivity].
Defined.

Lemma receive_loop_shape turns conn :
  (length conn < turns)%nat ->
  exists good bad,
    receive_loop turns conn = good ++ [bad] /\
    Forall (fun f => err f = None /\ is_Some (buff f)) good /\
    is_Some (err bad) /\ is_Some (buff bad).
Proof.
  revert conn. induction turns as [| turns IH]; intros conn Hlen; [lia |].
  rewrite receive_loop_turn.
  case_decide as H4.
  - eexists [], _. split; [reflexivity |]. split; [constructor |]. split; simpl; eauto.
  - destruct (Uint32_take4 conn ltac:(lia)) as [n Hn]. rewrite Hn.
    case_decide.
    + eexists [], _. split; [reflexivity |]. split; [constructor |]. split; simpl; eauto.
    + case_decide.
      * eexists [], _. split; [reflexivity |]. split; [constructor |].
        split; simpl; eauto.
      * destruct (IH (drop (Z.to_nat (n + 16)) (drop 4 conn)))
          as (good & bad & Hrec & Hgood & Hbad); [rewrite !length_drop; lia |].
        rewrite Hrec. eexists (_ :: good), bad.
        split; [reflexivity |]. split; [| exact Hbad].
        constructor; [simpl; eauto | exact Hgood].
Qed.

(** X12.  While its context is live the receiver never stops silently:
    whatever the connection delivers before it ends, the frames sent to the
    handler are some frames without error, each with a buffer, followed by
    exactly one last frame that carries an error (the header or data could
    not be read, or the size was refused). *)
Theorem receive_ends_with_error (conn : list Z) :
  exists good bad,
    receive conn = good ++ [bad] /\
    Forall (fun f => err f = None /\ is_Some (buff f)) good /\
    is_Some (err bad) /\ is_Some (buff bad).
Proof. apply receive_loop_shape. lia. Qed.

(** ** Requests of the client *)

Lemma request_frame_eq cmd args :
  bwrite (request_prefix cmd ++ args) = request_frame cmd args.
Proof. reflexivity. Qed.

(** X13.  What [Client.request] hands to the multiplexer.  The frame is the
    twenty-byte control header (a zero length, channel 0xFFFFFFFF, zero
    offsets and flags), the tagged command, a tagged zero in place of the
    request tag, and the encoded arguments, so the command can be read back
    at offset 21.  A frame above 16 MiB is refused with the size error and
    nothing is submitted; whenever the call does submit, it submits exactly
    that frame, once, and the frame is within the limit. *)
Theorem request_submits_wellformed (peer : list (list Z) -> list Z -> exchange)
    (cmd : Z) (args : list arg) (s : client_state) :
  let b := request_frame cmd args in
  let run := Client_request peer cmd args s in
  b = [0; 0; 0; 0; 255; 255; 255; 255; 0; 0; 0; 0; 0; 0; 0; 0; 0; 0; 0; 0] ++
      [uint32Tag] ++ be32 (uint32 cmd) ++ [uint32Tag; 0; 0; 0; 0] ++ bwrite args /\
  Uint32 (drop 21 b) = Some (uint32 cmd) /\
  (Z.of_nat (length b) > frameSizeMaxAllow ->
   run = (Some (None,
                Some (fmt_Errorf "request size %d is too long (only %d allowed)"
                        [FmtInt (Z.of_nat (length b)); FmtInt frameSizeMaxAllow])), s)) /\
  (snd run <> s ->
   snd run = {| sent := sent s ++ [b]; clientIndex := clientIndex s |} /\
   Z.of_nat (length b) <= frameSizeMaxAllow).
Proof.
  intros b run. split; [unfold b; rewrite request_frame_unfold; reflexivity |].
  split.
  { unfold b. rewrite request_frame_unfold.
    change (drop 21 _) with (be32 (uint32 cmd) ++ [uint32Tag] ++ be32 0 ++ bwrite args).
    apply Uint32_be32, uint32_range. }
  unfold run, Client_request. rewrite request_frame_eq. fold b.
  split.
  - intros Hbig. rewrite decide_True by exact Hbig. reflexivity.
  - case_decide as Hsize; cbn [snd]; [congruence |].
    destruct (peer (sent s) b); cbn [snd]; intros Hne;
      try congruence; (split; [reflexivity | lia]).
Qed.

Lemma request_submits_wellformed_witness :
  let b := request_frame commandGetSinkInfoList [] in
  b = [0; 0; 0; 0; 255; 255; 255; 255; 0; 0; 0; 0; 0; 0; 0; 0; 0; 0; 0; 0;
       76; 0; 0; 0; 22; 76; 0; 0; 0; 0] /\
  Uint32 (drop 21 b) = Some 22 /\
  snd (Client_request ok_peer commandGetSinkInfoList [] fresh_client) =
    {| sent := [b]; clientIndex := 0 |}.
Proof.
  intros b.
  destruct (request_submits_wellformed ok_peer commandGetSinkInfoList [] fresh_client)
    as (_ & Hcmd & _ & Hsent).
  split; [reflexivity |]. split; [exact Hcmd |].
  apply Hsent. vm_compute. discriminate.
Defined.

(** ** Backpressure on submission *)

Lemma submit_all_from (q reqs : list request) :
  (length q <= 16)%nat ->
  submit_all {| cap := 16; queue := q; closed := false |} reqs =
  Some ({| cap := 16; queue := q ++ take (16 - length q) reqs; closed := false |},
        replicate (min (16 - length q) (length reqs)) None ++
        replicate (length reqs - (16 - length q)) (Some ErrCouldNotSendRequest)).
Proof.
  revert q. induction reqs as [| r reqs IH]; intros q Hq.
  - simpl. rewrite take_nil, app_nil_r, Nat.min_0_r. reflexivity.
  - cbn [submit_all]. unfold sendRequest. cbn [cap queue closed].
    case_decide as Hroom.
    + rewrite IH by (rewrite length_app; simpl; lia).
      rewrite length_app. cbn [length].
      replace (16 - length q)%nat with (S (16 - (length q + 1))) by lia.
      cbn [take]. rewrite <- app_assoc. cbn [app].
      reflexivity.
    + rewrite IH by exact Hq.
      replace (16 - length q)%nat with 0%nat by lia.
      cbn [take]. rewrite Nat.min_0_l. cbn [replicate app length].
      rewrite !Nat.sub_0_r. reflexivity.
Qed.

(** X15.  Submission never blocks and never queues more than sixteen
    requests.  When callers submit one after the other into the request
    channel of a new client while the frame handler takes nothing, the first
    sixteen are queued in order and each of them returns nil; every later
    call returns the "could not send packet" error and leaves the queue as
    it is. *)
Theorem submission_backpressure (os : OS) (o : Opts) (reqs : list request) :
  submit_all (requests (NewClient os o)) reqs =
  Some ({| cap := 16; queue := take 16 reqs; closed := false |},
        replicate (min 16 (length reqs)) None ++
        replicate (length reqs - 16) (Some ErrCouldNotSendRequest)).
Proof.
  change (requests (NewClient os o))
    with {| cap := 16; queue := @nil request; closed := false |}.
  rewrite submit_all_from by (simpl; lia). reflexivity.
Qed.

(** ** The tokens of a line *)

Lemma string_append_cons c s t :
  String.append (String c s) t = String c (String.append s t).
Proof. reflexivity. Qed.

Lemma string_append_nil_l t : String.append EmptyString t = t.
Proof. reflexivity. Qed.

Lemma string_append_nil_r s : String.append s EmptyString = s.
Proof.
  induction s as [| c s IH]; [reflexivity |].
  rewrite string_append_cons, IH. reflexivity.
Qed.

Lemma string_append_assoc s t u :
  String.append (String.append s t) u = String.append s (String.append t u).
Proof.
  induction s as [| c s IH]; [reflexivity |].
  rewrite !string_append_cons, IH. reflexivity.
Qed.

Lemma string_append_snoc token r s :
  String.append (String.append token (String r EmptyString)) s =
  String.append token (String r s).
Proof. rewrite string_append_assoc. reflexivity. Qed.

Lemma readToken_loop_text line token indent :
  readToken_loop true line token indent =
  (TrimSpace (String.append token (without_tabs line)),
   (indent + count_tabs line)%nat, EmptyString).
Proof.
  revert token indent. induction line as [| r rest IH]; intros token indent.
  - cbn [readToken_loop without_tabs count_tabs].
    rewrite string_append_nil_r, Nat.add_0_r. reflexivity.
  - cbn [readToken_loop without_tabs count_tabs].
    destruct (Ascii.eqb r tab).
    + rewrite IH. rewrite Nat.add_succ_r. reflexivity.
    + assert (readToken_loop true rest (String.append token (String r EmptyString)) indent =
              (TrimSpace (String.append token (String r (without_tabs rest))),
               (indent + count_tabs rest)%nat, EmptyString)) as H.
      { rewrite IH. rewrite string_append_snoc. reflexivity. }
      destruct (Ascii.eqb r colon || Ascii.eqb r equals_sign); exact H.
Qed.

Lemma readToken_loop_split pre sep rest token indent :
  no_separator pre = true ->
  Ascii.eqb sep colon || Ascii.eqb sep equals_sign = true ->
  readToken_loop false (String.append pre (String sep rest)) token indent =
  (TrimSpace (String.append token (without_tabs pre)),
   (indent + count_tabs pre)%nat, rest).
Proof.
  revert token indent. induction pre as [| r pre IH]; intros token indent Hpre Hsep.
  - rewrite string_append_nil_l. cbn [readToken_loop without_tabs count_tabs].
    assert (Ascii.eqb sep tab = false) as ->.
    { destruct (Ascii.eqb_spec sep tab) as [-> |]; [discriminate Hsep | reflexivity]. }
    rewrite Hsep, string_append_nil_r, Nat.add_0_r. reflexivity.
  - rewrite string_append_cons.
    cbn [readToken_loop without_tabs count_tabs no_separator] in *.
    apply andb_true_iff in Hpre as [Hr Hpre].
    apply negb_true_iff in Hr. rewrite Hr.
    destruct (Ascii.eqb r tab).
    + rewrite IH by assumption. rewrite Nat.add_succ_r. reflexivity.
    + rewrite IH by assumption. rewrite string_append_snoc. reflexivity.
Qed.

Lemma readToken_loop_whole line token indent :
  no_separator line = true ->
  readToken_loop false line token indent =
  (TrimSpace (String.append token (without_tabs line)),
   (indent + count_tabs line)%nat, EmptyString).
Proof.
  revert token indent. induction line as [| r rest IH]; intros token indent Hline.
  - cbn [readToken_loop without_tabs count_tabs].
    rewrite string_append_nil_r, Nat.add_0_r. reflexivity.
  - cbn [readToken_loop without_tabs count_tabs no_separator] in *.
    apply andb_true_iff in Hline as [Hr Hline].
    apply negb_true_iff in Hr. rewrite Hr.
    destruct (Ascii.eqb r tab).
    + rewrite IH by assumption. rewrite Nat.add_succ_r. reflexivity.
    + rewrite IH by assumption. rewrite string_append_snoc. reflexivity.
Qed.

(** X16.  [readToken] on a property line of ASCII characters.  Without
    the text flag, a line is cut at its first colon or equals sign: the
    token is what stands before it, tabs removed and surrounding blanks
    trimmed, the indent is the number of tabs before it, and the remainder
    is everything after it, untouched; a line without a separator is all
    token.  With the text flag the line is never cut: separators belong to
    the token and the remainder is empty. *)
Theorem readToken_cuts_at_first_separator (pre rest : string) (sep : ascii) :
  ascii_only (String.append pre (String sep rest)) = true ->
  no_separator pre = true ->
  sep = colon \/ sep = equals_sign ->
  readToken (String.append pre (String sep rest)) false =
    (TrimSpace (without_tabs pre), count_tabs pre, rest) /\
  readToken pre false = (TrimSpace (without_tabs pre), count_tabs pre, EmptyString) /\
  readToken (String.append pre (String sep rest)) true =
    (TrimSpace (without_tabs (String.append pre (String sep rest))),
     count_tabs (String.append pre (String sep rest)), EmptyString).
Proof.
  intros _ Hpre Hsep. unfold readToken.
  split; [| split].
  - rewrite readToken_loop_split; [reflexivity | exact Hpre |].
    destruct Hsep as [-> | ->]; reflexivity.
  - rewrite readToken_loop_whole by exact Hpre. reflexivity.
  - rewrite readToken_loop_text. reflexivity.
Qed.

Lemma readToken_cuts_at_first_separator_witness :
  readToken (String tab "Name: alsa_output.zone1") false =
    ("Name"%string, 1%nat, " alsa_output.zone1"%string) /\
  readToken (String tab "Volume: front-left: 45875 /  70% / -9.29 dB") false =
    ("Volume"%string, 1%nat, " front-left: 45875 /  70% / -9.29 dB"%string).
Proof.
  pose proof (readToken_cuts_at_first_separator (String tab "Name")
                " alsa_output.zone1" colon eq_refl eq_refl (or_introl eq_refl))
    as (H1 & _ & _).
  pose proof (readToken_cuts_at_first_separator (String tab "Volume")
                " front-left: 45875 /  70% / -9.29 dB" colon eq_refl eq_refl
                (or_introl eq_refl)) as (H3 & _ & _).
  split; [exact H1 | exact H3].
Defined.

(** ** Listing sinks *)

Section SinkList.

Variable peer : list (list Z) -> list Z -> exchange.
Variable bread_Server : decoder Server.
Variable bread_Sink : decoder Sink.




(** X18.  [Mute], unlike [Volume], returns the error of [Sinks]: when
    [ServerInfo] succeeds and [Sinks] fails, the result is false with that
    error.  When the list holds no sink named like the default sink the
    result is true with the "couldn't find Sink" error; and a result without
    error is the muted flag of the first sink of that name. *)
Theorem Mute_result (s s1 : client_state) (srv : Server) :
  ServerInfo peer bread_Server s = (Some (inl srv), s1) ->
  (forall e s2,
     Sinks peer bread_Sink s1 = (Some (inr e), s2) ->
     Mute peer bread_Server bread_Sink s = (Some (false, Some e), s2)) /\
  (forall sinks s2,
     Sinks peer bread_Sink s1 = (Some (inl sinks), s2) ->
     Forall (fun x => Name x <> DefaultSink srv) sinks ->
     Mute peer bread_Server bread_Sink s =
       (Some (true, Some (fmt_Errorf "couldn't find Sink" [])), s2)) /\
  (forall m s2,
     Mute peer bread_Server bread_Sink s = (Some (m, None), s2) ->
     exists sinks pre sink rest,
       Sinks peer bread_Sink s1 = (Some (inl sinks), s2) /\
       sinks = pre ++ sink :: rest /\
       Forall (fun x => Name x <> DefaultSink srv) pre /\
       Name sink = DefaultSink srv /\ m = Muted sink).
Proof.
  intros Hinfo.
  assert (forall sinks d, Forall (fun x => Name x <> d) sinks -> Mute_loop sinks d = None)
    as Hnone.
  { induction sinks as [| x sinks IH]; intros d Hall; [reflexivity |].
    inversion Hall; subst. simpl. rewrite decide_True by assumption. auto. }
  assert (forall sinks d m, Mute_loop sinks d = Some m ->
            exists pre sink rest, sinks = pre ++ sink :: rest /\
              Forall (fun x => Name x <> d) pre /\ Name sink = d /\ m = Muted sink)
    as Hsome.
  { induction sinks as [| x sinks IH]; intros d m; simpl; [discriminate |].
    case_decide as Hname.
    - intros H. destruct (IH _ _ H) as (pre & sink & rest & -> & Hpre & Hrest).
      exists (x :: pre), sink, rest. split; [reflexivity |].
      split; [constructor; assumption | exact Hrest].
    - intros [= <-]. exists [], x, sinks. split; [reflexivity |].
      split; [constructor |]. split; [| reflexivity].
      destruct (decide (Name x = d)); [assumption | contradiction]. }
  split; [| split].
  - intros e s2 Hsinks. unfold Mute, bind. rewrite Hinfo, Hsinks. reflexivity.
  - intros sinks s2 Hsinks Hall. unfold Mute, bind. rewrite Hinfo, Hsinks.
    rewrite (Hnone _ _ Hall). reflexivity.
  - intros m s2. unfold Mute, bind. rewrite Hinfo.
    destruct (Sinks peer bread_Sink s1) as [[[sinks | e] |] s3] eqn:Hsinks;
      unfold ret; try discriminate.
    destruct (Mute_loop sinks (DefaultSink srv)) as [m' |] eqn:Hloop;
      intros H; try discriminate.
    injection H as <- <-.
    destruct (Hsome _ _ _ Hloop) as (pre & sink & rest & H1 & H2 & H3 & H4).
    exists sinks, pre, sink, rest. repeat split; assumption.
Qed.

(** X19.  [ToggleMute] sets the opposite of what [Mute] reports.  When the
    first [ServerInfo] and [Mute] succeed, the result is what [SetMute] of
    the negated flag gives: the negated flag, with the error of that call if
    any; and when [SetMute]'s own [ServerInfo] succeeds it is the
    SET_SINK_MUTE request for the default sink, index 0xFFFFFFFF, whose last
    byte is ['1'] to mute and ['0'] to unmute.  When [Mute] fails, the result
    is true with its error and nothing more is submitted. *)
Theorem ToggleMute_negates (s s1 s2 : client_state) (srv0 : Server) (muted : bool) :
  ServerInfo peer bread_Server s = (Some (inl srv0), s1) ->
  (Mute peer bread_Server bread_Sink s1 = (Some (muted, None), s2) ->
   (forall srv s3,
      ServerInfo peer bread_Server s2 = (Some (inl srv), s3) ->
      ToggleMute peer bread_Server bread_Sink s =
        bind (Client_request peer commandSetSinkMute
                [ArgByte uint32Tag; ArgUint32 0xffffffff;
                 ArgByte stringTag; ArgBytes (bytes_of_string (DefaultSink srv));
                 ArgByte 0; ArgByte (if muted then 48 else 49)])
             (fun r => ret (negb muted, snd r)) s3) /\
   (forall e s3,
      ServerInfo peer bread_Server s2 = (Some (inr e), s3) ->
      ToggleMute peer bread_Server bread_Sink s = (Some (negb muted, Some e), s3))) /\
  (forall m e,
     Mute peer bread_Server bread_Sink s1 = (Some (m, Some e), s2) ->
     ToggleMute peer bread_Server bread_Sink s = (Some (true, Some e), s2)).
Proof.
  intros Hinfo. split; [intros Hmute; split |].
  - intros srv s3 Hinfo2. unfold ToggleMute, bind at 1. rewrite Hinfo.
    unfold bind at 1. rewrite Hmute.
    unfold SetMute, bind at 1. unfold bind at 1. rewrite Hinfo2.
    unfold SetSinkMute, bind.
    replace (byte_of (muteCmd (negb muted))) with (if muted then 48 else 49)
      by (destruct muted; reflexivity).
    destruct (Client_request peer commandSetSinkMute _ s3) as [[[r e] |] s4];
      reflexivity.
  - intros e s3 Hinfo2. unfold ToggleMute, bind at 1. rewrite Hinfo.
    unfold bind at 1. rewrite Hmute.
    unfold SetMute, bind. rewrite Hinfo2. reflexivity.
  - intros m e Hmute. unfold ToggleMute, bind. rewrite Hinfo, Hmute. reflexivity.
Qed.

End SinkList.


Lemma Mute_result_witness :
  Mute first_only_peer (const_decoder (server_with_default "X"))
    (const_decoder (sink_named "X" [0x7FFF])) fresh_client =
    (Some (false, Some (PulseError commandGetSinkInfoList 1)),
     {| sent := [bwrite (request_prefix commandGetServerInfo);
                 bwrite (request_prefix commandGetSinkInfoList)];
        clientIndex := 0 |}).
Proof.
  exact (proj1 (Mute_result first_only_peer (const_decoder (server_with_default "X"))
                  (const_decoder (sink_named "X" [0x7FFF])) fresh_client
                  {| sent := [bwrite (request_prefix commandGetServerInfo)];
                     clientIndex := 0 |}
                  (server_with_default "X") eq_refl)
               (PulseError commandGetSinkInfoList 1) _ eq_refl).
Defined.

Lemma ToggleMute_negates_witness :
  let info := request_frame commandGetServerInfo [] in
  let mute_frame :=
    request_frame commandSetSinkMute
      [ArgByte uint32Tag; ArgUint32 0xffffffff; ArgByte stringTag;
       ArgBytes (bytes_of_string "X"); ArgByte 0; ArgByte 49] in
  ToggleMute (body_peer [1]) (const_decoder (server_with_default "X"))
    (one_byte_decoder (sink_named "X" [70])) fresh_client =
    (Some (true, None),
     {| sent := [info; info; request_frame commandGetSinkInfoList []; info; mute_frame];
        clientIndex := 0 |}).
Proof.
  intros info mute_frame.
  pose (s1 := {| sent := [info]; clientIndex := 0 |}).
  pose (s2 := {| sent := [info; info; request_frame commandGetSinkInfoList []];
                 clientIndex := 0 |}).
  pose (s3 := {| sent := [info; info; request_frame commandGetSinkInfoList []; info];
                 clientIndex := 0 |}).
  destruct (ToggleMute_negates (body_peer [1]) (const_decoder (server_with_default "X"))
              (one_byte_decoder (sink_named "X" [70])) fresh_client s1 s2
              (server_with_default "X") false eq_refl) as [Hok _].
  destruct (Hok eq_refl) as [Hset _].
  rewrite (Hset (server_with_default "X") s3 eq_refl). reflexivity.
Defined.

(** ** Options of a new client *)

Lemma HasPrefix_unix path :
  HasPrefix (String.append "unix://" path) "unix://" = true.
Proof. destruct path; reflexivity. Qed.

Lemma TrimPrefix_unix path :
  TrimPrefix (String.append "unix://" path) "unix://" = path.
Proof. unfold TrimPrefix. rewrite HasPrefix_unix. reflexivity. Qed.

Lemma NewClient_fields os o :
  Cookie (opts (NewClient os o)) =
    (if decide (Cookie o = ""%string)
     then String.append (Getenv os "HOME") "/.config/pulse/cookie"
     else Cookie o) /\
  dialer_Timeout (NewClient os o) = DialTimeout o /\
  requests (NewClient os o) = make_chan 16 /\
  updates (NewClient os o) = make_chan 1.
Proof.
  unfold NewClient. cbv zeta.
  repeat (case_decide || case_match); simpl in *;
    try congruence; repeat split; reflexivity.
Qed.

(** X20.  An explicit address with the [unix://] prefix: the prefix is
    stripped and the client dials the unix scheme, whatever scheme the
    options name; the cookie path is the option's, or
    [$HOME/.config/pulse/cookie] when the option is empty; the dial timeout
    is the option's; the request channel buffers sixteen requests and the
    updates channel one notification. *)
Theorem NewClient_unix_address (os : OS) (o : Opts) (path : string) :
  Addr o = String.append "unix://" path ->
  let c := NewClient os o in
  dial_target c = ("unix"%string, path) /\
  Cookie (opts c) =
    (if decide (Cookie o = ""%string)
     then String.append (Getenv os "HOME") "/.config/pulse/cookie"
     else Cookie o) /\
  dialer_Timeout c = DialTimeout o /\
  requests c = make_chan 16 /\ updates c = make_chan 1.
Proof.
  intros Haddr c. split.
  - unfold c. rewrite NewClient_dial_target. cbv zeta. rewrite Haddr.
    rewrite decide_False by discriminate.
    rewrite HasPrefix_unix, TrimPrefix_unix. reflexivity.
  - apply NewClient_fields.
Qed.

Lemma NewClient_unix_address_witness :
  let o := {| DialTimeout := 5; RequestTimeout := 0; OptLogger := None;
              Protocol := "tcp"; Addr := "unix:///tmp/pulse.sock"; Cookie := "" |} in
  let os := {| Getenv := fun k => if String.eqb k "HOME" then "/home/u" else ""%string;
               Getuid := 1000 |} in
  dial_target (NewClient os o) = ("unix"%string, "/tmp/pulse.sock"%string) /\
  Cookie (opts (NewClient os o)) = "/home/u/.config/pulse/cookie"%string.
Proof.
  intros o os.
  destruct (NewClient_unix_address os o "/tmp/pulse.sock" eq_refl) as (H1 & H2 & _).
  split; [exact H1 | exact H2].
Defined.

(** ** Volume at its edges *)

Section VolumeEdges.

Variable peer : list (list Z) -> list Z -> exchange.
Variable bread_Server : decoder Server.
Variable bread_Sink : decoder Sink.

Lemma Volume_loop_first pre sink rest default :
  Forall (fun x => Name x <> default) pre -> Name sink = default ->
  Volume_loop (pre ++ sink :: rest) default =
  match CVolume sink with
  | [] => None
  | c0 :: _ => Some (Some (f32_div (f32_of_Z c0) (f32_of_Z pulseVolumeMax)))
  end.
Proof.
  intros Hpre Hname. induction Hpre as [| x pre Hx Hpre IH].
  - cbn [app Volume_loop]. rewrite decide_False by (intros H; exact (H Hname)).
    reflexivity.
  - cbn [app Volume_loop]. rewrite decide_True by exact Hx. exact IH.
Qed.

(** X21.  [Volume] indexes the volume vector without a guard: when the
    first sink named like the default sink has no channel, the call panics
    instead of returning; sinks of other names before it are skipped
    whatever their vectors, and sinks after it are not looked at. *)
Theorem Volume_empty_cvolume_panics (s s1 s2 : client_state) (srv : Server)
    (pre rest : list Sink) (sink : Sink) :
  ServerInfo peer bread_Server s = (Some (inl srv), s1) ->
  Sinks peer bread_Sink s1 = (Some (inl (pre ++ sink :: rest)), s2) ->
  Forall (fun x => Name x <> DefaultSink srv) pre ->
  Name sink = DefaultSink srv ->
  (CVolume sink = [] -> Volume peer bread_Server bread_Sink s = (None, s2)) /\
  (forall c0 cv, CVolume sink = c0 :: cv ->
     Volume peer bread_Server bread_Sink s =
       (Some (f32_div (f32_of_Z c0) (f32_of_Z 0xffff), None), s2)).
Proof.
  intros Hinfo Hsinks Hpre Hname.
  assert (Volume peer bread_Server bread_Sink s =
          match Volume_loop (pre ++ sink :: rest) (DefaultSink srv) with
          | None => (None, s2)
          | Some (Some v) => (Some (v, None), s2)
          | Some None =>
              (Some (S754_zero false,
                     Some (fmt_Errorf
                             "PulseAudio error: couldn't query volume - Sink %s not found"
                             [FmtStr (DefaultSink srv)])), s2)
          end) as Hrun.
  { unfold Volume, bind. rewrite Hinfo, Hsinks. cbn [sinks_value].
    destruct (Volume_loop (pre ++ sink :: rest) (DefaultSink srv)) as [[v |] |];
      reflexivity. }
  rewrite Hrun, (Volume_loop_first _ _ _ _ Hpre Hname).
  split.
  - intros ->. reflexivity.
  - intros c0 cv ->. reflexivity.
Qed.

End VolumeEdges.

Lemma Volume_empty_cvolume_panics_witness :
  fst (Volume (body_peer [1; 2]) (const_decoder (server_with_default "X"))
         (one_byte_decoder (sink_named "X" [])) fresh_client) = None.
Proof.
  pose (s1 := {| sent := [request_frame commandGetServerInfo []]; clientIndex := 0 |}).
  pose (s2 := {| sent := [request_frame commandGetServerInfo [];
                          request_frame commandGetSinkInfoList []];
                 clientIndex := 0 |}).
  destruct (Volume_empty_cvolume_panics (body_peer [1; 2])
              (const_decoder (server_with_default "X"))
              (one_byte_decoder (sink_named "X" [])) fresh_client s1 s2
              (server_with_default "X") [] [sink_named "X" []] (sink_named "X" [])
              eq_refl eq_refl ltac:(constructor) eq_refl) as [Hpanic _].
  rewrite (Hpanic eq_refl). reflexivity.
Defined.

(** ** The fallback client *)

Section CliProps.

Variable runListSinks : list Sink + error.
Variable exec : list string -> option error.
Variable uint32_unrepresentable : spec_float -> Z.

Lemma cli_Volume_loop_first pre sink rest default :
  Forall (fun x => Name x <> default) pre -> Name sink = default ->
  cli_Volume_loop (pre ++ sink :: rest) default =
  match CVolume sink with
  | [] => (S754_zero false, None)
  | c0 :: _ => (f32_div (f32_of_Z c0) (f32_of_Z 100), None)
  end.
Proof.
  intros Hpre Hname. induction Hpre as [| x pre Hx Hpre IH].
  - cbn [app cli_Volume_loop]. rewrite decide_True by exact Hname. reflexivity.
  - cbn [app cli_Volume_loop]. rewrite decide_False by exact Hx. exact IH.
Qed.

Lemma cli_SetVolume_loop_first pre sink rest default vol :
  Forall (fun x => Name x <> default) pre -> Name sink = default ->
  cli_SetVolume_loop exec (pre ++ sink :: rest) default vol =
  runSetVolume exec (Index sink) vol.
Proof.
  intros Hpre Hname. induction Hpre as [| x pre Hx Hpre IH].
  - cbn [app cli_SetVolume_loop]. rewrite decide_True by exact Hname. reflexivity.
  - cbn [app cli_SetVolume_loop]. rewrite decide_False by exact Hx. exact IH.
Qed.

Lemma cli_SetVolume_loop_none sinks default vol :
  Forall (fun x => Name x <> default) sinks ->
  cli_SetVolume_loop exec sinks default vol = ([], Some ErrSinkNotFound).
Proof.
  intros Hall. induction Hall as [| x sinks Hx Hall IH]; [reflexivity |].
  cbn [cli_SetVolume_loop]. rewrite decide_False by exact Hx. exact IH.
Qed.

(** X22.  The fallback [Volume] guards the index that the native [Volume]
    does not: for the first listed sink named like the default sink it
    returns zero without error when the sink has no channel, and otherwise
    the first channel's percentage divided by 100. *)
Theorem cli_Volume_first_sink (default : string) (pre rest : list Sink) (sink : Sink) :
  runListSinks = inl (pre ++ sink :: rest) ->
  Forall (fun x => Name x <> default) pre ->
  Name sink = default ->
  (CVolume sink = [] -> cli_Volume runListSinks default = (S754_zero false, None)) /\
  (forall c0 cv, CVolume sink = c0 :: cv ->
     cli_Volume runListSinks default = (f32_div (f32_of_Z c0) (f32_of_Z 100), None)).
Proof.
  intros Hlist Hpre Hname. unfold cli_Volume. rewrite Hlist.
  rewrite (cli_Volume_loop_first _ _ _ _ Hpre Hname).
  split; [intros -> | intros c0 cv ->]; reflexivity.
Qed.

(** X23.  The fallback [SetVolume] runs [pactl list sinks] and then at
    most one more command.  For the first listed sink named like the default
    sink it runs [pactl set-sink-volume] with that sink's index and the
    percentage [uint32(volume * 100)] followed by a percent sign, and
    returns that command's error wrapped; when no listed sink has the name
    it runs nothing more and returns the sink-not-found error; when the
    listing fails it runs nothing more and returns the listing's error
    wrapped.  For a finite volume whose float32 product with 100 truncates
    into 32 bits, the percentage is that truncated product. *)
Theorem cli_SetVolume_command (default : string) (volume : spec_float) :
  let vol := uint32_of_float32 uint32_unrepresentable
               (f32_mul volume (f32_of_Z 100)) in
  (forall pre sink rest,
     runListSinks = inl (pre ++ sink :: rest) ->
     Forall (fun x => Name x <> default) pre -> Name sink = default ->
     let args := ["set-sink-volume"%string; pretty (Index sink);
                  String.append (pretty vol) "%"] in
     cli_SetVolume runListSinks exec uint32_unrepresentable default volume =
       ([list_sinks_args; args],
        match exec args with
        | Some e => Some (fmt_Errorf "error executing command: %w" [FmtErr e])
        | None => None
        end)) /\
  (forall sinks,
     runListSinks = inl sinks ->
     Forall (fun x => Name x <> default) sinks ->
     cli_SetVolume runListSinks exec uint32_unrepresentable default volume =
       ([list_sinks_args], Some ErrSinkNotFound)) /\
  (forall e,
     runListSinks = inr e ->
     cli_SetVolume runListSinks exec uint32_unrepresentable default volume =
       ([list_sinks_args],
        Some (fmt_Errorf "could not get sinks info: %w" [FmtErr e]))) /\
  (forall q,
     f32_value (f32_mul volume (f32_of_Z 100)) = Some q ->
     0 <= Qtrunc q < uint32_mod ->
     vol = Qtrunc q).
Proof.
  intros vol. unfold cli_SetVolume. fold vol. split; [| split; [| split]].
  - intros pre sink rest -> Hpre Hname. cbv zeta.
    rewrite (cli_SetVolume_loop_first _ _ _ _ _ Hpre Hname). reflexivity.
  - intros sinks -> Hall. rewrite (cli_SetVolume_loop_none _ _ _ Hall). reflexivity.
  - intros e ->. reflexivity.
  - intros q Hq Hr. exact (uint32_of_float32_in_range _ _ _ Hq Hr).
Qed.

End CliProps.

Lemma cli_Volume_first_sink_witness :
  cli_Volume (inl [sink_named "null" [74; 74]; sink_named "test" []]) "test" =
    (S754_zero false, None) /\
  cli_Volume (inl [sink_named "null" [74; 74]; sink_named "test" []]) "null" =
    (f32_div (f32_of_Z 74) (f32_of_Z 100), None).
Proof.
  split.
  - exact (proj1 (cli_Volume_first_sink
                    (inl [sink_named "null" [74; 74]; sink_named "test" []]) "test"
                    [sink_named "null" [74; 74]] [] (sink_named "test" []) eq_refl
                    ltac:(repeat constructor; discriminate) eq_refl) eq_refl).
  - exact (proj2 (cli_Volume_first_sink
                    (inl [sink_named "null" [74; 74]; sink_named "test" []]) "null"
                    [] [sink_named "test" []] (sink_named "null" [74; 74]) eq_refl
                    ltac:(constructor) eq_refl) 74 [74] eq_refl).
Defined.

Lemma cli_SetVolume_command_witness :
  cli_SetVolume (inl [sink_named "null" [74]; sink_named "test" []])
    (fun _ => None) (fun _ => 0) "test" f32_half =
    ([["list"; "sinks"]%string; ["set-sink-volume"; "0"; "50%"]%string], None) /\
  cli_SetVolume (inl [sink_named "null" [74]; sink_named "test" []])
    (fun _ => None) (fun _ => 0) "zone1" f32_half =
    ([["list"; "sinks"]%string], Some ErrSinkNotFound).
Proof.
  assert (0 <= Qtrunc (13107200 # 262144) < uint32_mod) as Hr
    by (vm_compute; split; [discriminate | reflexivity]).
  split.
  - destruct (cli_SetVolume_command (inl [sink_named "null" [74]; sink_named "test" []])
                (fun _ => None) (fun _ => 0) "test" f32_half)
      as (Hfirst & _ & _ & Htrunc).
    rewrite (Hfirst [sink_named "null" [74]] (sink_named "test" []) [] eq_refl
               ltac:(repeat constructor; discriminate) eq_refl).
    rewrite (Htrunc (13107200 # 262144) eq_refl Hr). reflexivity.
  - destruct (cli_SetVolume_command (inl [sink_named "null" [74]; sink_named "test" []])
                (fun _ => None) (fun _ => 0) "zone1" f32_half)
      as (_ & Hnone & _).
    apply (Hnone _ eq_refl). repeat constructor; discriminate.
Defined.
